(** * cinephrase: phrase search and clip export

    A shallow embedding of the search engine of [server.py]: token
    normalisation, the sliding-window matcher with its silence rule, the
    segment aggregator with its full/partial filters, the clip cache check,
    the clip renderer with its GPU fallback, and the per-segment generator
    loop with its skip and cancel checkpoints.

    Conventions.
    - A Python [str] is a list of Unicode code points ([N]).
    - Times are Python floats in the source; they are rationals ([Q]) here,
      so subtraction and comparison are exact.
    - What the source takes from the Unicode database ([str.lower],
      [str.isspace], [str.isalnum] behind [\w], [unicodedata.normalize]) is
      an interface, [UnicodeDB]; the theorems hold for every implementation
      of it, and examples are evaluated on an excerpt of the database. *)

From Stdlib Require Import List Bool Arith ZArith NArith QArith String Ascii Lia Lqa.
Import ListNotations.

(* ================================================================== *)
(** * Python values and the string methods the source uses            *)
(* ================================================================== *)

Module Py.

Definition codepoint := N.
Definition str := list codepoint.

(** A string literal of the source, as code points. *)
Definition lit (s : string) : str :=
  List.map N_of_ascii (list_ascii_of_string s).

Definition str_eq_dec : forall a b : str, {a = b} + {a <> b} :=
  list_eq_dec N.eq_dec.

Definition str_eqb (a b : str) : bool :=
  if str_eq_dec a b then true else false.

Lemma str_eqb_eq a b : str_eqb a b = true <-> a = b.
Proof.
  unfold str_eqb. destruct (str_eq_dec a b); split; congruence.
Qed.

Lemma str_eqb_refl a : str_eqb a a = true.
Proof. now apply str_eqb_eq. Qed.

Definition strs_eq_dec : forall a b : list str, {a = b} + {a <> b} :=
  list_eq_dec str_eq_dec.

(** [a == b] on lists of strings. *)
Definition strs_eqb (a b : list str) : bool :=
  if strs_eq_dec a b then true else false.

Lemma strs_eqb_eq a b : strs_eqb a b = true <-> a = b.
Proof.
  unfold strs_eqb. destruct (strs_eq_dec a b); split; congruence.
Qed.

(** A JSON value where the source expects a string: [isinstance(v, str)]
    separates the two cases. *)
Inductive value :=
| VStr (s : str)
| VOther.

(** The character data of the Unicode database that the source reaches
    through [str] methods, [re] and [unicodedata]. *)
Class UnicodeDB := {
  isspace : codepoint -> bool;
  isalnum : codepoint -> bool;
  lower : str -> str;
  nfkc : str -> str;
  space_not_alnum : forall c, isspace c = true -> isalnum c = false
}.

Section Strings.
Context {U : UnicodeDB}.

Fixpoint dropwhile (p : codepoint -> bool) (s : str) : str :=
  match s with
  | [] => []
  | c :: r => if p c then dropwhile p r else s
  end.

Definition lstrip (p : codepoint -> bool) (s : str) : str := dropwhile p s.

Definition rstrip (p : codepoint -> bool) (s : str) : str :=
  rev (dropwhile p (rev s)).

(** [s.strip()] *)
Definition strip (s : str) : str := rstrip isspace (lstrip isspace s).

(** [s.split()]: the maximal runs of non-whitespace characters.
    [cur] is the run being read, reversed. *)
Fixpoint split_aux (cur : str) (s : str) : list str :=
  match s with
  | [] => match cur with [] => [] | _ => [rev cur] end
  | c :: r =>
      if isspace c
      then match cur with
           | [] => split_aux [] r
           | _ => rev cur :: split_aux [] r
           end
      else split_aux (c :: cur) r
  end.

Definition split (s : str) : list str := split_aux [] s.

(** [sep.join(words)] *)
Fixpoint join (sep : str) (words : list str) : str :=
  match words with
  | [] => []
  | [w] => w
  | w :: ws => w ++ sep ++ join sep ws
  end.

(** [s.startswith(prefix)] *)
Fixpoint startswith (s prefix : str) : bool :=
  match prefix, s with
  | [], _ => true
  | _ :: _, [] => false
  | p :: ps, c :: cs => N.eqb p c && startswith cs ps
  end.

(** [needle in hay] on strings. *)
Fixpoint contains (hay needle : str) : bool :=
  startswith hay needle ||
  match hay with
  | [] => false
  | _ :: r => contains r needle
  end.

End Strings.

(** [l[:k]] for a Python int [k]: a negative [k] counts from the end. *)
Definition slice_to {A} (l : list A) (k : Z) : list A :=
  if (k <? 0)%Z
  then firstn (Z.to_nat (Z.of_nat (List.length l) + k)) l
  else firstn (Z.to_nat k) l.

(** [sorted(l, key=key, reverse=True)]: a stable sort, larger keys first,
    equal keys in their original order. *)
Fixpoint insert_desc {A} (key : A -> nat) (x : A) (l : list A) : list A :=
  match l with
  | [] => [x]
  | y :: r => if key y <=? key x then x :: l else y :: insert_desc key x r
  end.

Definition sorted_desc {A} (key : A -> nat) (l : list A) : list A :=
  fold_right (insert_desc key) [] l.

(** The elements [y] with [f x = Some y], in order. *)
Fixpoint omap {A B} (f : A -> option B) (l : list A) : list B :=
  match l with
  | [] => []
  | x :: r => match f x with Some y => y :: omap f r | None => omap f r end
  end.

(** [l[-1]] *)
Definition last_error {A} (l : list A) : option A :=
  nth_error l (List.length l - 1).

(** [not l] *)
Definition is_empty {A} (l : list A) : bool :=
  match l with [] => true | _ => false end.

End Py.

Import Py.

(* ================================================================== *)
(** * Token normalisation ([normalize_token])                         *)
(* ================================================================== *)

Module Normalize.

Section WithDB.
Context {U : UnicodeDB}.

(** The character class [[\W_]] of the two substitutions: [\w] is
    [isalnum] or the underscore, so what is left is "not alphanumeric". *)
Definition nonword (c : codepoint) : bool :=
  negb (isalnum c) || N.eqb c 95.

(** [normalize_token(token)].  [re.sub(r'^[\W_]+', '', s)] removes the
    longest prefix of [s] in the class, [re.sub(r'[\W_]+$', '', s)] its
    longest suffix. *)
Definition normalize_token (token : value) : str :=
  match token with
  | VOther => []
  | VStr token =>
      let normalized := strip (lower (nfkc token)) in
      match normalized with
      | [] => []
      | _ =>
          let normalized := lstrip nonword normalized in
          rstrip nonword normalized
      end
  end.

(** First and last character of a string. *)
Definition first_char (s : str) : option codepoint := hd_error s.
Definition last_char (s : str) : option codepoint := hd_error (rev s).

Lemma nonword_false_alnum c : nonword c = false -> isalnum c = true.
Proof.
  unfold nonword. intros H. apply orb_false_iff in H. destruct H as [H _].
  now apply negb_false_iff in H.
Qed.

Lemma alnum_not_nonword c : isalnum c = true -> c <> 95%N -> nonword c = false.
Proof.
  unfold nonword. intros H Hc. rewrite H. simpl. now apply N.eqb_neq.
Qed.

Lemma dropwhile_head p s c r : dropwhile p s = c :: r -> p c = false.
Proof.
  induction s as [|a s IH]; simpl; [discriminate|].
  destruct (p a) eqn:E; [exact IH|].
  intros H. injection H as -> _. exact E.
Qed.

Lemma dropwhile_keeps_last p t c :
  p c = false -> exists t', dropwhile p (t ++ [c]) = t' ++ [c].
Proof.
  intros Hc. induction t as [|a t IH]; simpl.
  - rewrite Hc. now exists [].
  - destruct (p a); [exact IH|]. now exists (a :: t).
Qed.

Lemma rstrip_last p s c : last_char (rstrip p s) = Some c -> p c = false.
Proof.
  unfold last_char, rstrip. rewrite rev_involutive.
  destruct (dropwhile p (rev s)) as [|a r] eqn:E; simpl; [discriminate|].
  intros H. injection H as ->. now apply dropwhile_head in E.
Qed.

Lemma rstrip_first p c r :
  p c = false -> first_char (rstrip p (c :: r)) = Some c.
Proof.
  intros Hc. unfold first_char, rstrip. simpl rev.
  destruct (dropwhile_keeps_last p (rev r) c Hc) as [t' ->].
  now rewrite rev_app_distr.
Qed.

Lemma lstrip_fixed p s :
  (forall c, first_char s = Some c -> p c = false) -> lstrip p s = s.
Proof.
  destruct s as [|a s]; simpl; [reflexivity|].
  intros H. now rewrite (H a eq_refl).
Qed.

Lemma rstrip_fixed p s :
  (forall c, last_char s = Some c -> p c = false) -> rstrip p s = s.
Proof.
  unfold last_char, rstrip. intros H.
  rewrite <- (rev_involutive s) at 2.
  destruct (rev s) as [|a r]; simpl; [reflexivity|].
  now rewrite (H a eq_refl).
Qed.

(** The two ends of a normalised token are outside [[\W_]]. *)
Lemma normalize_token_ends (s : str) :
  (forall c, first_char (normalize_token (VStr s)) = Some c -> nonword c = false) /\
  (forall c, last_char (normalize_token (VStr s)) = Some c -> nonword c = false).
Proof.
  unfold normalize_token.
  destruct (strip (lower (nfkc s))) as [|a n] eqn:E.
  - split; intros c; discriminate.
  - split; intros c H.
    + destruct (lstrip nonword (a :: n)) as [|b m] eqn:El.
      * discriminate.
      * pose proof (dropwhile_head _ _ _ _ El) as Hb.
        rewrite (rstrip_first _ _ m Hb) in H. now injection H as <-.
    + now apply rstrip_last in H.
Qed.

Lemma not_space_of_not_nonword c : nonword c = false -> isspace c = false.
Proof.
  intros H. apply nonword_false_alnum in H.
  destruct (isspace c) eqn:E; [|reflexivity].
  apply space_not_alnum in E. congruence.
Qed.

(** A normalised token is left alone by [strip] and by both substitutions. *)
Lemma normalize_token_strips_fixed (s : str) :
  let r := normalize_token (VStr s) in
  strip r = r /\ lstrip nonword r = r /\ rstrip nonword r = r.
Proof.
  intros r. destruct (normalize_token_ends s) as [Hf Hl]. fold r in Hf, Hl.
  assert (Hls : lstrip isspace r = r).
  { apply lstrip_fixed. intros c Hc. apply not_space_of_not_nonword; auto. }
  repeat split.
  - unfold strip. rewrite Hls. apply rstrip_fixed.
    intros c Hc. apply not_space_of_not_nonword; auto.
  - now apply lstrip_fixed.
  - now apply rstrip_fixed.
Qed.

(** A normalised token that NFKC and [lower] leave alone is its own
    normal form. *)
Lemma normalize_token_fixed (s : str) :
  lower (nfkc (normalize_token (VStr s))) = normalize_token (VStr s) ->
  normalize_token (VStr (normalize_token (VStr s))) = normalize_token (VStr s).
Proof.
  intros Hst.
  destruct (normalize_token_strips_fixed s) as [Hs [Hls Hrs]].
  set (r := normalize_token (VStr s)) in *.
  unfold normalize_token at 1. rewrite Hst, Hs.
  destruct r as [|a r'] eqn:Er; [reflexivity|].
  rewrite Hls. exact Hrs.
Qed.

End WithDB.

End Normalize.

(* ================================================================== *)
(** * An excerpt of the Unicode database, for evaluation              *)
(* ================================================================== *)

(** The rows of the Unicode character database for Basic Latin
    (U+0000..U+007F), U+030C COMBINING CARON and U+01F0 LATIN SMALL LETTER
    J WITH CARON.  On strings over these code points in which U+030C
    follows no letter other than [J] or [j], the functions below return
    what CPython returns: U+01F0 decomposes to [j] followed by U+030C and
    is their only composite here, and there is no precomposed capital J
    with caron. *)
Module UCD.

(** The code points for which [str.isspace] is true. *)
Definition whitespace : list codepoint :=
  [9; 10; 11; 12; 13; 28; 29; 30; 31; 32; 133; 160; 5760;
   8192; 8193; 8194; 8195; 8196; 8197; 8198; 8199; 8200; 8201; 8202;
   8232; 8233; 8239; 8287; 12288]%N.

Definition isspace (c : codepoint) : bool := existsb (N.eqb c) whitespace.

Definition isalnum (c : codepoint) : bool :=
  ((48 <=? c) && (c <=? 57) || (65 <=? c) && (c <=? 90) ||
   (97 <=? c) && (c <=? 122) || (c =? 496))%N.

Definition lower_cp (c : codepoint) : codepoint :=
  if ((65 <=? c) && (c <=? 90))%N then (c + 32)%N else c.

Definition lower (s : str) : str := List.map lower_cp s.

(** Decomposition: U+01F0 is [j], U+030C. *)
Definition decompose (s : str) : str :=
  flat_map (fun c => if (c =? 496)%N then [106; 780]%N else [c]) s.

(** Composition of a starter with the mark that follows it. *)
Fixpoint compose (s : str) : str :=
  match s with
  | [] => []
  | a :: t =>
      match t with
      | [] => [a]
      | b :: r =>
          if ((a =? 106) && (b =? 780))%N
          then 496%N :: compose r
          else a :: compose t
      end
  end.

Definition nfkc (s : str) : str := compose (decompose s).

Lemma space_not_alnum c : isspace c = true -> isalnum c = false.
Proof.
  unfold isspace. intros H. apply existsb_exists in H.
  destruct H as [x [Hin Hx]]. apply N.eqb_eq in Hx. subst x.
  unfold whitespace in Hin. simpl in Hin.
  repeat (destruct Hin as [<-|Hin]; [reflexivity|]). contradiction.
Qed.

#[export] Instance db : UnicodeDB :=
  {| Py.isspace := isspace;
     Py.isalnum := isalnum;
     Py.lower := lower;
     Py.nfkc := nfkc;
     Py.space_not_alnum := space_not_alnum |}.

End UCD.

(* ================================================================== *)
(** * Properties of token normalisation                               *)
(* ================================================================== *)

Module NormalizeProps.
Import Normalize.

(** C10 (as the code has it).  For every string [s], the normalised token
    [r] neither begins nor ends with a character of [[\W_]] (both ends are
    alphanumeric), and normalising [r] again returns [r] whenever [r] is
    left unchanged by NFKC normalisation followed by lower-casing. *)
Theorem normalize_token_idempotent_on_stable (U : UnicodeDB) (s : str) :
  let r := normalize_token (VStr s) in
  (forall c, first_char r = Some c -> isalnum c = true) /\
  (forall c, last_char r = Some c -> isalnum c = true) /\
  (lower (nfkc r) = r -> normalize_token (VStr r) = r).
Proof.
  intros r. destruct (normalize_token_ends s) as [Hf Hl]. fold r in Hf, Hl.
  split; [|split].
  - intros c Hc. apply nonword_false_alnum. auto.
  - intros c Hc. apply nonword_false_alnum. auto.
  - apply normalize_token_fixed.
Qed.

(** The theorem at the token ["(Hello!)"], whose normal form is ["hello"]. *)
Lemma normalize_token_idempotent_on_stable_witness :
  @normalize_token UCD.db
    (VStr (@normalize_token UCD.db (VStr (lit "(Hello!)")))) =
  @normalize_token UCD.db (VStr (lit "(Hello!)")).
Proof.
  apply (proj2 (proj2 (normalize_token_idempotent_on_stable UCD.db (lit "(Hello!)")))).
  vm_compute. reflexivity.
Defined.

(** C10 as stated fails.  The string [J], U+030C, [a] is in NFKC form and
    lower-cases to [j], U+030C, [a], which is not: a second pass composes
    [j] and the caron into U+01F0. *)
Lemma normalize_token_not_idempotent :
  ~ (forall s : str,
       @normalize_token UCD.db (VStr (@normalize_token UCD.db (VStr s))) =
       @normalize_token UCD.db (VStr s)).
Proof.
  intros H. specialize (H [74; 780; 97]%N). vm_compute in H. discriminate H.
Qed.

(** ** ASCII strings *)

#[local] Existing Instance UCD.db.

Definition is_ascii (c : codepoint) : Prop := (c < 128)%N.

(** An ASCII character that [lower] leaves alone. *)
Definition lowered (c : codepoint) : Prop :=
  (c < 128)%N /\ UCD.lower_cp c = c.

Lemma lower_cp_lowered (c : codepoint) : is_ascii c -> lowered (UCD.lower_cp c).
Proof.
  unfold is_ascii, lowered, UCD.lower_cp. intros Hc.
  destruct (N.leb_spec 65 c), (N.leb_spec c 90); simpl; try (split; [lia|]).
  - destruct (N.leb_spec 65 (c + 32)), (N.leb_spec (c + 32) 90); simpl; lia.
  - destruct (N.leb_spec 65 c), (N.leb_spec c 90); simpl; lia.
  - destruct (N.leb_spec 65 c), (N.leb_spec c 90); simpl; lia.
  - destruct (N.leb_spec 65 c), (N.leb_spec c 90); simpl; lia.
Qed.

Lemma decompose_ascii (s : str) : Forall is_ascii s -> UCD.decompose s = s.
Proof.
  unfold UCD.decompose. induction 1 as [|c s Hc _ IH]; simpl; [reflexivity|].
  unfold is_ascii in Hc. destruct (N.eqb_spec c 496); [lia|].
  simpl. now rewrite IH.
Qed.

Lemma compose_ascii (s : str) : Forall is_ascii s -> UCD.compose s = s.
Proof.
  induction s as [|a t IH]; intros H; [reflexivity|].
  inversion H as [|? ? _ Ht]; subst. specialize (IH Ht).
  destruct t as [|b r]; [reflexivity|].
  inversion Ht as [|? ? Hb _]; subst. unfold is_ascii in Hb.
  change (UCD.compose (a :: b :: r)) with
    (if ((a =? 106) && (b =? 780))%N then 496%N :: UCD.compose r
     else a :: UCD.compose (b :: r)).
  destruct (N.eqb_spec b 780); [lia|]. rewrite andb_false_r, IH. reflexivity.
Qed.

Lemma dropwhile_Forall (P : codepoint -> Prop) (p : codepoint -> bool) (s : str) :
  Forall P s -> Forall P (dropwhile p s).
Proof.
  induction 1 as [|c s Hc Hs IH]; simpl; [constructor|].
  destruct (p c); [exact IH|now constructor].
Qed.

Lemma rstrip_Forall (P : codepoint -> Prop) (p : codepoint -> bool) (s : str) :
  Forall P s -> Forall P (rstrip p s).
Proof.
  intros H. unfold rstrip. apply Forall_rev, dropwhile_Forall, Forall_rev, H.
Qed.

(** On ASCII strings, with the database of [UCD], a normalised token is
    left alone by NFKC and by [lower]. *)
Lemma ascii_token_stable (s : str) :
  Forall is_ascii s ->
  UCD.lower (UCD.nfkc (@normalize_token UCD.db (VStr s))) =
  @normalize_token UCD.db (VStr s).
Proof.
  intros Hs.
  assert (Hr : Forall lowered (@normalize_token UCD.db (VStr s))).
  { unfold normalize_token. simpl lower. simpl nfkc.
    unfold UCD.nfkc. rewrite decompose_ascii, compose_ascii by assumption.
    assert (Hl : Forall lowered (UCD.lower s)).
    { unfold UCD.lower. induction Hs as [|c s Hc _ IH]; simpl; constructor;
        [now apply lower_cp_lowered|exact IH]. }
    assert (Hst : Forall lowered (strip (UCD.lower s))).
    { unfold strip, lstrip. now apply rstrip_Forall, dropwhile_Forall. }
    destruct (strip (UCD.lower s)) as [|a n] eqn:E; [constructor|].
    unfold lstrip. now apply rstrip_Forall, dropwhile_Forall. }
  set (r := @normalize_token UCD.db (VStr s)) in *.
  assert (Ha : Forall is_ascii r).
  { eapply Forall_impl; [|exact Hr]. intros c [Hc _]. exact Hc. }
  unfold UCD.nfkc. rewrite decompose_ascii, compose_ascii by assumption.
  unfold UCD.lower. clear Ha. induction Hr as [|c r' [_ Hc] _ IH]; simpl;
    [reflexivity|]. now rewrite Hc, IH.
Qed.

(** Hence normalisation is idempotent on ASCII strings. *)
Lemma normalize_token_idempotent_ascii (s : str) :
  Forall is_ascii s ->
  @normalize_token UCD.db (VStr (@normalize_token UCD.db (VStr s))) =
  @normalize_token UCD.db (VStr s).
Proof.
  intros Hs. apply (@normalize_token_fixed UCD.db).
  exact (ascii_token_stable s Hs).
Qed.

Example normalize_token_J_caron_a :
  @normalize_token UCD.db (VStr [74; 780; 97]%N) = [106; 780; 97]%N /\
  @normalize_token UCD.db (VStr [106; 780; 97]%N) = [496; 97]%N.
Proof. split; reflexivity. Qed.

End NormalizeProps.

(* ================================================================== *)
(** * MatchFinder: [find_matches_for_segment] and the span searches    *)
(* ================================================================== *)

Module MatchFinder.
Import Normalize.

(** A word of a transcript, [{'word': .., 'start': .., 'end': ..}]; a
    missing or [None] time is [None]. *)
Record Word := {
  word : value;
  w_start : option Q;
  w_end : option Q
}.

(** A transcript sentence: its ['content'] and its ['words']. *)
Record Sentence := {
  content : value;
  words : list Word
}.

(** An entry of [all_words]. *)
Record Entry := {
  e_word : value;
  normalized_word : str;
  e_start : Q;
  e_end : Q
}.

(** A match, as appended to [all_matches]. *)
Record Match := {
  segment : str;
  m_start : Q;
  m_end : Q;
  first_silence : Q;
  second_silence : Q
}.

(** [max(a, b)] of Python: [a] unless [b > a]. *)
Definition py_max (a b : Q) : Q := if Qle_bool b a then a else b.

(** [lo <= x <= hi] *)
Definition between (lo x hi : Q) : bool := Qle_bool lo x && Qle_bool x hi.

Section WithDB.
Context {U : UnicodeDB}.

(** The filter of the first loop: a word is kept when its normal form is
    not empty and both times are present. *)
Definition usable (w : Word) : option Entry :=
  let normalized := normalize_token (word w) in
  match normalized, w_start w, w_end w with
  | _ :: _, Some s, Some e =>
      Some {| e_word := word w; normalized_word := normalized;
              e_start := s; e_end := e |}
  | _, _, _ => None
  end.

Definition flatten_words (sentences : list Sentence) : list Entry :=
  flat_map (fun sentence => omap usable (words sentence)) sentences.

(** The normalised, non-empty tokens of [segment.split()]. *)
Definition segment_tokens (segment : str) : list str :=
  filter (fun w => negb (is_empty w))
         (List.map (fun raw => normalize_token (VStr raw)) (split segment)).

(** The body of the loop over [i]. *)
Definition match_at (segment : str) (segment_words : list str)
    (all_words : list Entry) (min_duration max_duration : Q)
    (silence_word_threshold : Z) (i : nat) : option Match :=
  let word_count := List.length segment_words in
  let window := firstn word_count (skipn i all_words) in
  if strs_eqb segment_words (List.map normalized_word window) then
    match hd_error window, last_error window with
    | Some w0, Some w1 =>
        let start_time := e_start w0 in
        let end_time := e_end w1 in
        let first_silence :=
          match i with
          | S j =>
              match nth_error all_words j with
              | Some p => start_time - e_end p
              | None => start_time
              end
          | O => start_time
          end in
        let second_silence :=
          match nth_error all_words (i + word_count) with
          | Some nx => e_start nx - end_time
          | None => max_duration
          end in
        let first_silence := py_max first_silence 0 in
        let second_silence := py_max second_silence 0 in
        let found :=
          {| segment := segment; m_start := start_time; m_end := end_time;
             first_silence := first_silence;
             second_silence := second_silence |} in
        if (Z.of_nat word_count <? silence_word_threshold)%Z then
          if between min_duration first_silence max_duration &&
             between min_duration second_silence max_duration
          then Some found
          else None
        else Some found
    | _, _ => None
    end
  else None.

Definition find_matches_for_segment (segment : str)
    (sentences : list Sentence) (min_duration max_duration : Q)
    (silence_word_threshold : Z) : list Match :=
  let all_words := flatten_words sentences in
  let segment_words := segment_tokens segment in
  let word_count := List.length segment_words in
  if (word_count =? 0)%nat || is_empty all_words then []
  else
    let total_available := List.length all_words in
    omap (match_at segment segment_words all_words min_duration
            max_duration silence_word_threshold)
         (seq 0 (total_available + 1 - word_count)).

(** The key of [seen_ranges]: floats and strings compare by value. *)
Definition same_key (a b : Q * Q * str) : bool :=
  let '(s1, e1, g1) := a in
  let '(s2, e2, g2) := b in
  Qeq_bool s1 s2 && Qeq_bool e1 e2 && str_eqb g1 g2.

(** The deduplication loop over [found_matches]. *)
Fixpoint add_new (seen : list (Q * Q * str)) (found : list Match)
    : list (Q * Q * str) * list Match :=
  match found with
  | [] => (seen, [])
  | m :: r =>
      let key := (m_start m, m_end m, segment m) in
      if existsb (same_key key) seen then add_new seen r
      else let '(seen', new) := add_new (key :: seen) r in (seen', m :: new)
  end.

(** The pairs [(i, j)] of the two nested loops, in order. *)
Definition spans (total_words : nat) : list (nat * nat) :=
  flat_map (fun i => List.map (fun j => (i, j)) (seq (i + 1) (total_words - i)))
           (seq 0 total_words).

(** The common loop of [find_longest_matches_filtered] ([min_words] given)
    and [find_longest_matches] (no [min_words]). *)
Definition search_spans (min_words : option nat) (input_sentence : str)
    (sentences : list Sentence) (min_silence max_silence : Q)
    (silence_word_threshold : Z) : list Match :=
  let input_words := split input_sentence in
  let total_words := List.length input_words in
  let silence_word_threshold := Z.max silence_word_threshold 1 in
  snd (fold_left
    (fun (acc : list (Q * Q * str) * list Match) (ij : nat * nat) =>
       let '(seen_ranges, matches) := acc in
       let '(i, j) := ij in
       let segment_words := firstn (j - i) (skipn i input_words) in
       let segment := join (lit " ") segment_words in
       let word_count := List.length segment_words in
       let skipped :=
         match min_words with
         | Some mw => (word_count <? mw)%nat && negb (str_eqb segment input_sentence)
         | None => false
         end in
       if skipped then acc
       else
         let segment_min_silence :=
           if (Z.of_nat word_count <? silence_word_threshold)%Z
           then min_silence else 0 in
         let found_matches :=
           find_matches_for_segment segment sentences segment_min_silence
             max_silence silence_word_threshold in
         let '(seen_ranges, new_matches) := add_new seen_ranges found_matches in
         (seen_ranges, matches ++ new_matches))
    (spans total_words) ([], [])).

Definition find_longest_matches_filtered (input_sentence : str)
    (sentences : list Sentence) (min_silence max_silence : Q)
    (silence_word_threshold : Z) (min_words : nat) : list Match :=
  search_spans (Some min_words) input_sentence sentences min_silence
    max_silence silence_word_threshold.

Definition find_longest_matches (input_sentence : str)
    (sentences : list Sentence) (min_silence max_silence : Q)
    (silence_word_threshold : Z) : list Match :=
  search_spans None input_sentence sentences min_silence max_silence
    silence_word_threshold.

End WithDB.

End MatchFinder.

Module MatchExamples.
Import MatchFinder.

Definition w (s : string) (a b : Q) : Word :=
  {| word := VStr (lit s); w_start := Some a; w_end := Some b |}.

(** The transcript of the spec's scenarios A and B. *)
Definition hello_world_today : list Sentence :=
  [ {| content := VStr (lit "hello world today");
       words := [w "hello" 0 0.4; w "world" 0.6 1; w "today" 2.5 3] |} ].

Example scenario_A :
  List.map (fun m => (m_start m, m_end m, first_silence m, second_silence m))
    (@find_matches_for_segment UCD.db (lit "hello world") hello_world_today 0 10 2)
  = [(0, 1, 0, 2.5 - 1)].
Proof. vm_compute. reflexivity. Qed.

Example scenario_B :
  List.map (fun m => (m_start m, m_end m))
    (@find_matches_for_segment UCD.db (lit "hello world today") hello_world_today 0 10 2)
  = [(0, 3)].
Proof. vm_compute. reflexivity. Qed.

End MatchExamples.

(* ================================================================== *)
(** * Properties of the sliding-window matcher                        *)
(* ================================================================== *)

Module MatchFinderProps.
Import Normalize MatchFinder.

Lemma in_omap {A B} (f : A -> option B) (l : list A) (y : B) :
  In y (omap f l) <-> exists x, In x l /\ f x = Some y.
Proof.
  induction l as [|a l IH]; simpl.
  - split; [contradiction|]. now intros [x [[] _]].
  - destruct (f a) as [b|] eqn:E; simpl; rewrite IH; split.
    + intros [<-|[x [Hx Hf]]]; [exists a; auto|exists x; auto].
    + intros [x [[<-|Hx] Hf]]; [left; congruence|right; exists x; auto].
    + intros [x [Hx Hf]]. exists x; auto.
    + intros [x [[<-|Hx] Hf]]; [congruence|exists x; auto].
Qed.

Lemma hd_error_nth_error {A} (l : list A) : hd_error l = nth_error l 0.
Proof. now destruct l. Qed.

Lemma between_iff lo x hi : between lo x hi = true <-> (lo <= x <= hi)%Q.
Proof.
  unfold between. rewrite andb_true_iff, !Qle_bool_iff. reflexivity.
Qed.

Section WithDB.
Context {U : UnicodeDB}.

(** The silence before a window that starts at index [i] of [all_words]
    at time [window_start]. *)
Definition preceding_gap (all_words : list Entry) (i : nat) (window_start : Q) : Q :=
  match i with
  | S j =>
      match nth_error all_words j with
      | Some p => py_max (window_start - e_end p) 0
      | None => py_max window_start 0
      end
  | O => py_max window_start 0
  end.

(** The silence after a window whose successor has index [k] and which
    ends at time [window_end]. *)
Definition following_gap (all_words : list Entry) (k : nat) (window_end max_gap : Q) : Q :=
  match nth_error all_words k with
  | Some nx => py_max (e_start nx - window_end) 0
  | None => py_max max_gap 0
  end.

(** What it means for the window at [i] to be returned as [m]. *)
Definition accepted_window (segment : str) (all_words : list Entry)
    (min_gap max_gap : Q) (thr : Z) (i : nat) (m : Match) : Prop :=
  let span := segment_tokens segment in
  let n := List.length span in
  exists w0 w1,
    (0 < n)%nat /\
    List.map normalized_word (firstn n (skipn i all_words)) = span /\
    nth_error all_words i = Some w0 /\
    nth_error all_words (i + n - 1) = Some w1 /\
    let pre := preceding_gap all_words i (e_start w0) in
    let post := following_gap all_words (i + n) (e_end w1) max_gap in
    ((Z.of_nat n < thr)%Z ->
       (min_gap <= pre <= max_gap)%Q /\ (min_gap <= post <= max_gap)%Q) /\
    m = {| segment := segment; m_start := e_start w0; m_end := e_end w1;
           first_silence := pre; second_silence := post |}.

Lemma window_ends (all_words : list Entry) (span : list str) (i : nat) :
  (0 < List.length span)%nat ->
  List.map normalized_word (firstn (List.length span) (skipn i all_words)) = span ->
  hd_error (firstn (List.length span) (skipn i all_words)) = nth_error all_words i /\
  last_error (firstn (List.length span) (skipn i all_words)) =
    nth_error all_words (i + List.length span - 1).
Proof.
  intros Hn Hw. set (n := List.length span) in *.
  assert (Hlen : List.length (firstn n (skipn i all_words)) = n).
  { rewrite <- (length_map normalized_word), Hw. reflexivity. }
  split.
  - rewrite hd_error_nth_error, nth_error_firstn.
    destruct (Nat.ltb_spec 0 n); [|lia].
    rewrite nth_error_skipn. f_equal. lia.
  - unfold last_error. rewrite Hlen, nth_error_firstn.
    destruct (Nat.ltb_spec (n - 1) n); [|lia].
    rewrite nth_error_skipn. f_equal. lia.
Qed.

Lemma match_at_spec (segment : str) (all_words : list Entry)
    (min_gap max_gap : Q) (thr : Z) (i : nat) (m : Match) :
  (0 < List.length (segment_tokens segment))%nat ->
  match_at segment (segment_tokens segment) all_words min_gap max_gap thr i = Some m
  <-> accepted_window segment all_words min_gap max_gap thr i m.
Proof.
  intros Hn. unfold match_at, accepted_window.
  set (span := segment_tokens segment) in *.
  set (n := List.length span) in *.
  set (window := firstn n (skipn i all_words)).
  destruct (strs_eqb span (List.map normalized_word window)) eqn:Eq.
  - apply strs_eqb_eq in Eq. symmetry in Eq.
    destruct (window_ends all_words span i Hn Eq) as [Hh Hl].
    fold n in Hh, Hl. fold window in Hh, Hl. rewrite Hh, Hl.
    destruct (nth_error all_words i) as [w0|] eqn:E0.
    2:{ split; [discriminate|]. intros (w0 & w1 & _ & _ & H & _). discriminate. }
    destruct (nth_error all_words (i + n - 1)) as [w1|] eqn:E1.
    2:{ split; [discriminate|]. intros (w0' & w1 & _ & _ & _ & H & _). discriminate. }
    assert (Hpre : py_max
              match i with
              | 0%nat => e_start w0
              | S j => match nth_error all_words j with
                       | Some p => e_start w0 - e_end p
                       | None => e_start w0
                       end
              end 0 = preceding_gap all_words i (e_start w0)).
    { unfold preceding_gap. destruct i as [|j]; [reflexivity|].
      now destruct (nth_error all_words j). }
    assert (Hpost : py_max
              match nth_error all_words (i + n) with
              | Some nx => e_start nx - e_end w1
              | None => max_gap
              end 0 = following_gap all_words (i + n) (e_end w1) max_gap).
    { unfold following_gap. now destruct (nth_error all_words (i + n)). }
    cbv zeta. rewrite Hpre, Hpost.
    set (pre := preceding_gap all_words i (e_start w0)).
    set (post := following_gap all_words (i + n) (e_end w1) max_gap).
    destruct (Z.ltb_spec (Z.of_nat n) thr) as [Hlt|Hge].
    + destruct (between min_gap pre max_gap && between min_gap post max_gap) eqn:Eb.
      * apply andb_true_iff in Eb. destruct Eb as [B1 B2].
        apply between_iff in B1. apply between_iff in B2.
        split.
        -- intros H. injection H as <-. exists w0, w1. repeat split; auto; tauto.
        -- intros (w0' & w1' & _ & _ & H0 & H1 & _ & ->).
           injection H0 as <-. injection H1 as <-. reflexivity.
      * split; [discriminate|].
        intros (w0' & w1' & _ & _ & H0 & H1 & Hgap & _).
        injection H0 as <-. injection H1 as <-.
        destruct (Hgap Hlt) as [G1 G2].
        apply between_iff in G1. apply between_iff in G2.
        fold pre in G1. fold post in G2. rewrite G1, G2 in Eb. discriminate.
    + split.
      * intros H. injection H as <-. exists w0, w1. repeat split; auto; lia.
      * intros (w0' & w1' & _ & _ & H0 & H1 & _ & ->).
        injection H0 as <-. injection H1 as <-. reflexivity.
  - split; [discriminate|].
    intros (w0 & w1 & _ & Hw & _). fold window in Hw.
    rewrite Hw in Eq. unfold strs_eqb in Eq.
    destruct (strs_eq_dec span span); congruence.
Qed.

End WithDB.

(** Every match returned is the accepted window of some position. *)
Lemma find_matches_accepted {U : UnicodeDB} (segment : str)
    (sentences : list Sentence) (min_gap max_gap : Q) (thr : Z) (m : Match) :
  In m (find_matches_for_segment segment sentences min_gap max_gap thr) ->
  exists i, accepted_window segment (flatten_words sentences) min_gap max_gap thr i m.
Proof.
  unfold find_matches_for_segment.
  set (all_words := flatten_words sentences).
  set (span := segment_tokens segment).
  destruct (Nat.eqb_spec (List.length span) 0) as [Hz|Hnz]; simpl orb;
    [contradiction|].
  destruct (is_empty all_words); [contradiction|].
  rewrite in_omap. intros [i [_ Hm]]. exists i.
  apply match_at_spec; [fold span; lia|exact Hm].
Qed.

(** C1 (as the code has it).  For every span, transcript, gap bounds and
    threshold, [m] is among the matches returned exactly when some window
    of the usable words has the span's normalised tokens, [m] records that
    window's start, end and gaps, and, when the span has fewer than
    [silence_word_threshold] normalised words, both gaps lie within
    [[min_gap, max_gap]]; a span of at least that many words is returned
    whatever its gaps.  The preceding gap is [max(start - previous end, 0)],
    or [max(start, 0)] for the first word; the following gap is
    [max(next start - end, 0)], or [max(max_gap, 0)] after the last word. *)
Theorem find_matches_for_segment_spec (U : UnicodeDB) (segment : str)
    (sentences : list Sentence) (min_gap max_gap : Q) (thr : Z) (m : Match) :
  In m (find_matches_for_segment segment sentences min_gap max_gap thr) <->
  exists i, accepted_window segment (flatten_words sentences) min_gap max_gap thr i m.
Proof.
  split; [apply find_matches_accepted|].
  unfold find_matches_for_segment.
  set (all_words := flatten_words sentences).
  set (span := segment_tokens segment).
  intros [i Ha].
  assert (Hn : (0 < List.length span)%nat).
  { destruct Ha as (w0 & w1 & Hn & _). exact Hn. }
  destruct (Nat.eqb_spec (List.length span) 0) as [Hz|_]; [lia|]. simpl orb.
  destruct (is_empty all_words) eqn:Ee.
  - destruct Ha as (w0 & w1 & _ & _ & H0 & _).
    destruct all_words; [now destruct i|discriminate].
  - rewrite in_omap. exists i. split; [|now apply match_at_spec].
    destruct Ha as (w0 & w1 & _ & _ & _ & H1 & _). fold span in H1.
    assert (Hlt : (i + List.length span - 1 < List.length all_words)%nat).
    { apply nth_error_Some. congruence. }
    apply in_seq. lia.
Qed.

(** ** The gap rule as the specification words it *)

Section Claimed.
Context {U : UnicodeDB}.

(** "The preceding gap is max(0, windowStart - previousWordEnd), or
    windowStart when there is no predecessor." *)
Definition claimed_preceding_gap (all_words : list Entry) (i : nat) (window_start : Q) : Q :=
  match i with
  | S j =>
      match nth_error all_words j with
      | Some p => py_max (window_start - e_end p) 0
      | None => window_start
      end
  | O => window_start
  end.

(** "The following gap is max(0, nextWordStart - windowEnd), or maxGap
    when there is no successor." *)
Definition claimed_following_gap (all_words : list Entry) (k : nat) (window_end max_gap : Q) : Q :=
  match nth_error all_words k with
  | Some nx => py_max (e_start nx - window_end) 0
  | None => max_gap
  end.

Definition claimed_window (segment : str) (all_words : list Entry)
    (min_gap max_gap : Q) (thr : Z) (i : nat) (m : Match) : Prop :=
  let span := segment_tokens segment in
  let n := List.length span in
  exists w0 w1,
    (0 < n)%nat /\
    List.map normalized_word (firstn n (skipn i all_words)) = span /\
    nth_error all_words i = Some w0 /\
    nth_error all_words (i + n - 1) = Some w1 /\
    let pre := claimed_preceding_gap all_words i (e_start w0) in
    let post := claimed_following_gap all_words (i + n) (e_end w1) max_gap in
    ((Z.of_nat n < thr)%Z ->
       (min_gap <= pre <= max_gap)%Q /\ (min_gap <= post <= max_gap)%Q) /\
    m_start m = e_start w0 /\ m_end m = e_end w1.

End Claimed.

(** A transcript whose only word starts before time 0. *)
Definition early_word : list Sentence :=
  [ {| content := VStr (lit "a");
       words := [ {| word := VStr (lit "a");
                     w_start := Some (-1); w_end := Some 0 |} ] |} ].

Example early_word_is_returned :
  @find_matches_for_segment UCD.db (lit "a") early_word 0 10 2 =
  [ {| segment := lit "a"; m_start := -1; m_end := 0;
       first_silence := 0; second_silence := 10 |} ].
Proof. vm_compute. reflexivity. Qed.

(** C1 as stated fails: the one-word span ["a"] (below the threshold 2) is
    returned for the window that starts at time -1, with a preceding gap
    clamped to 0, while the gap the claim names, the window start -1, is
    outside [[0, 10]]. *)
Lemma claimed_gap_rule_fails :
  ~ (forall m,
       In m (@find_matches_for_segment UCD.db (lit "a") early_word 0 10 2) <->
       exists i, @claimed_window UCD.db (lit "a")
                   (@flatten_words UCD.db early_word) 0 10 2 i m).
Proof.
  intros H.
  specialize (H {| segment := lit "a"; m_start := -1; m_end := 0;
                   first_silence := 0; second_silence := 10 |}).
  rewrite early_word_is_returned in H.
  destruct H as [H _]. destruct (H (or_introl eq_refl)) as [i Hc].
  destruct Hc as (w0 & w1 & _ & _ & H0 & _ & Hgap & _).
  vm_compute in H0.
  destruct i as [|i]; [|destruct i; discriminate H0].
  injection H0 as <-.
  assert (Hlt : (Z.of_nat (List.length (@segment_tokens UCD.db (lit "a"))) < 2)%Z)
    by (vm_compute; reflexivity).
  destruct (Hgap Hlt) as [[Hle _] _].
  vm_compute in Hle. apply Hle. reflexivity.
Qed.

(** On transcripts that start at or after time 0, with a non-negative
    [max_gap], the claimed gaps are the computed ones. *)
Lemma claimed_gaps_agree {U : UnicodeDB} (all_words : list Entry) (i : nat)
    (w0 w1 : Entry) (max_gap : Q) (k : nat) :
  (0 <= e_start w0)%Q -> (0 <= max_gap)%Q ->
  nth_error all_words i = Some w0 ->
  claimed_preceding_gap all_words i (e_start w0) =
    preceding_gap all_words i (e_start w0) /\
  claimed_following_gap all_words k (e_end w1) max_gap =
    following_gap all_words k (e_end w1) max_gap.
Proof.
  intros Hs Hm Hi. split.
  - unfold claimed_preceding_gap, preceding_gap.
    destruct i as [|j].
    + unfold py_max. apply Qle_bool_iff in Hs. now rewrite Hs.
    + destruct (nth_error all_words j) eqn:E; [reflexivity|].
      apply nth_error_None in E.
      assert (S j < List.length all_words)%nat by (apply nth_error_Some; congruence).
      lia.
  - unfold claimed_following_gap, following_gap.
    destruct (nth_error all_words k); [reflexivity|].
    unfold py_max. apply Qle_bool_iff in Hm. now rewrite Hm.
Qed.

End MatchFinderProps.

(* ================================================================== *)
(** * SegmentAggregator: search, grouping, ordering and filtering     *)
(* ================================================================== *)

Module Aggregator.
Import Normalize MatchFinder.

(** An entry of [all_file_matches]. *)
Record FileMatches := {
  fm_file : str;
  fm_matches : list Match
}.

(** An element of a segment group, [{'file': .., 'match': ..}]. *)
Record Item := {
  it_file : str;
  it_match : Match
}.

(** [segment_groups]: a dict, in insertion order. *)
Definition Groups := list (str * list Item).

Fixpoint group_add (groups : Groups) (segment : str) (it : Item) : Groups :=
  match groups with
  | [] => [(segment, [it])]
  | (k, v) :: r =>
      if str_eqb k segment then (k, v ++ [it]) :: r
      else (k, v) :: group_add r segment it
  end.

Fixpoint group_get (groups : Groups) (segment : str) : list Item :=
  match groups with
  | [] => []
  | (k, v) :: r => if str_eqb k segment then v else group_get r segment
  end.

Definition group_all (all_file_matches : list FileMatches) : Groups :=
  fold_left
    (fun groups entry =>
       fold_left
         (fun groups m =>
            group_add groups (segment m)
              {| it_file := fm_file entry; it_match := m |})
         (fm_matches entry) groups)
    all_file_matches [].

Section WithDB.
Context {U : UnicodeDB}.

(** [len(s.split())] *)
Definition word_count (s : str) : nat := List.length (split s).

(** [' '.join(s.lower().split())] *)
Definition normalized (s : str) : str := join (lit " ") (split (lower s)).

(** The validation of a loaded transcript: some sentence has content or
    words. *)
Definition has_valid_content (sentences : list Sentence) : bool :=
  existsb
    (fun s =>
       match content s with
       | VStr c => negb (is_empty (strip c))
       | VOther => false
       end || negb (is_empty (words s)))
    sentences.

Section Search.
(** [load_transcript_sentences]: [None] when no transcript is available. *)
Variable load_transcript_sentences : str -> option (list Sentence).
Variables (input_sentence : str) (min_silence max_silence : Q)
          (silence_word_threshold : Z)
          (include_partial_matches all_partial_matches : bool).

(** The body of the loop over [filenames]; [silence_word_threshold] has
    been raised to at least 1 by the caller. *)
Definition search_file (filename : str) : option FileMatches :=
  match load_transcript_sentences filename with
  | None => None
  | Some sentences =>
      if is_empty sentences then None
      else if negb (has_valid_content sentences) then None
      else
        let matches :=
          if negb include_partial_matches then
            find_matches_for_segment input_sentence sentences
              (if (Z.of_nat (word_count input_sentence) <? silence_word_threshold)%Z
               then min_silence else 0)
              max_silence silence_word_threshold
          else if negb all_partial_matches then
            find_longest_matches_filtered input_sentence sentences
              min_silence max_silence silence_word_threshold 3
          else
            find_longest_matches input_sentence sentences
              min_silence max_silence silence_word_threshold in
        if is_empty matches then None
        else Some {| fm_file := filename; fm_matches := matches |}
  end.

End Search.

(** [longer] is longer than [seg] in words and contains its normal form. *)
Definition dominates (seg longer : str) : bool :=
  (List.length (split (normalized seg)) <? List.length (split (normalized longer)))%nat
  && contains (normalized longer) (normalized seg).

(** The test [is_substring] of the two short-segment loops. *)
Definition is_substring (sorted_segments : list str) (seg : str) : bool :=
  existsb (fun other_seg => negb (str_eqb seg other_seg) && dominates seg other_seg)
          sorted_segments.

Definition keep_short (sorted_segments : list str) (seg : str) : bool :=
  (3 <=? List.length (split (normalized seg)))%nat
  || negb (is_substring sorted_segments seg).

(** The test of the first loop of the branch [full_match_exists]: at least
    as long as the input, or the input itself. *)
Definition is_prioritized (input_normalized seg : str) : bool :=
  let seg_normalized := normalized seg in
  let seg_word_count := List.length (split seg_normalized) in
  (List.length (split input_normalized) <=? seg_word_count)%nat
  || str_eqb seg_normalized input_normalized.

(** The first loop of the branch [full_match_exists]. *)
Fixpoint prioritize (input_normalized : str) (segs prioritized other : list str)
    : list str * list str :=
  match segs with
  | [] => (prioritized, other)
  | seg :: r =>
      if is_prioritized input_normalized seg
      then prioritize input_normalized r (prioritized ++ [seg]) other
      else if existsb (dominates seg) prioritized
      then prioritize input_normalized r prioritized other
      else prioritize input_normalized r prioritized (other ++ [seg])
  end.

(** Lines 2261-2399: the segments to process, [None] for the early
    [return] of the full-match-only mode. *)
Definition filter_segments (input_sentence : str)
    (include_partial_matches all_partial_matches : bool)
    (sorted_segments : list str) : option (list str) :=
  let input_normalized := normalized input_sentence in
  if negb include_partial_matches then
    let filtered_segments :=
      filter (fun seg => str_eqb (normalized seg) input_normalized) sorted_segments in
    if is_empty filtered_segments then None else Some filtered_segments
  else
    let full_match_exists :=
      existsb (fun seg => str_eqb (normalized seg) input_normalized) sorted_segments in
    if full_match_exists then
      let '(prioritized_segments, other_segments) :=
        prioritize input_normalized sorted_segments [] [] in
      let sorted_segments := prioritized_segments ++ other_segments in
      if negb all_partial_matches then
        Some (prioritized_segments ++ filter (keep_short sorted_segments) other_segments)
      else Some sorted_segments
    else if negb all_partial_matches then
      Some (filter (keep_short sorted_segments) sorted_segments)
    else Some sorted_segments.

(** Lines 2184-2399 as a whole: the groups and the ordered segments that
    the generator goes on to process; [None] when it returns before. *)
Definition select_segments
    (load_transcript_sentences : str -> option (list Sentence))
    (input_sentence : str) (filenames : list str)
    (min_silence max_silence : Q) (silence_word_threshold : Z)
    (include_partial_matches all_partial_matches : bool)
    : option (Groups * list str) :=
  let silence_word_threshold := Z.max silence_word_threshold 1 in
  let all_file_matches :=
    omap (search_file load_transcript_sentences input_sentence min_silence
            max_silence silence_word_threshold include_partial_matches
            all_partial_matches)
         filenames in
  if is_empty all_file_matches then None
  else
    let segment_groups := group_all all_file_matches in
    let sorted_segments := sorted_desc word_count (List.map fst segment_groups) in
    match filter_segments input_sentence include_partial_matches
            all_partial_matches sorted_segments with
    | None => None
    | Some sorted_segments => Some (segment_groups, sorted_segments)
    end.

End WithDB.

End Aggregator.

(* ================================================================== *)
(** * Properties of the partial-match filter                          *)
(* ================================================================== *)

Module AggregatorProps.
Import Normalize MatchFinder Aggregator MatchFinderProps.

Section WithDB.
Context {U : UnicodeDB}.

Lemma prioritize_spec (input_normalized : str) (segs : list str) :
  forall prioritized other prioritized' other',
  prioritize input_normalized segs prioritized other = (prioritized', other') ->
  prioritized' = prioritized ++ filter (is_prioritized input_normalized) segs /\
  exists rest,
    other' = other ++ rest /\
    forall seg, In seg rest ->
      is_prioritized input_normalized seg = false /\
      exists before after,
        segs = before ++ seg :: after /\
        forall longer,
          In longer (prioritized ++ filter (is_prioritized input_normalized) before) ->
          dominates seg longer = false.
Proof.
  induction segs as [|seg r IH]; simpl; intros P O P' O' H.
  - injection H as <- <-. rewrite !app_nil_r. split; [reflexivity|].
    exists []. rewrite app_nil_r. split; [reflexivity|]. intros ? [].
  - destruct (is_prioritized input_normalized seg) eqn:Ep.
    + destruct (IH _ _ _ _ H) as [HP (rest & HO & Hrest)].
      split; [rewrite HP, <- app_assoc; reflexivity|].
      exists rest. split; [exact HO|].
      intros x Hx. destruct (Hrest x Hx) as [Hnp (b & a & Hr & Hdom)].
      split; [exact Hnp|].
      exists (seg :: b), a. split; [rewrite Hr; reflexivity|].
      intros l Hl. apply Hdom. simpl in Hl. rewrite Ep in Hl.
      rewrite <- app_assoc. exact Hl.
    + destruct (existsb (dominates seg) P) eqn:Ed.
      * destruct (IH _ _ _ _ H) as [HP (rest & HO & Hrest)].
        split; [exact HP|]. exists rest. split; [exact HO|].
        intros x Hx. destruct (Hrest x Hx) as [Hnp (b & a & Hr & Hdom)].
        split; [exact Hnp|].
        exists (seg :: b), a. split; [rewrite Hr; reflexivity|].
        intros l Hl. apply Hdom. simpl in Hl. rewrite Ep in Hl. exact Hl.
      * destruct (IH _ _ _ _ H) as [HP (rest & HO & Hrest)].
        split; [exact HP|]. exists (seg :: rest).
        split; [rewrite HO, <- app_assoc; reflexivity|].
        intros x [<-|Hx].
        -- split; [exact Ep|]. exists [], r. split; [reflexivity|].
           intros l Hl. simpl in Hl. rewrite app_nil_r in Hl.
           destruct (dominates seg l) eqn:El; [|reflexivity].
           assert (existsb (dominates seg) P = true)
             by (apply existsb_exists; exists l; auto).
           congruence.
        -- destruct (Hrest x Hx) as [Hnp (b & a & Hr & Hdom)].
           split; [exact Hnp|].
           exists (seg :: b), a. split; [rewrite Hr; reflexivity|].
           intros l Hl. apply Hdom. simpl in Hl. rewrite Ep in Hl. exact Hl.
Qed.

Lemma keep_short_spec (sorted_segments : list str) (seg : str) :
  keep_short sorted_segments seg = true <->
  (3 <= List.length (split (normalized seg)))%nat \/
  forall other, In other sorted_segments -> other <> seg -> dominates seg other = false.
Proof.
  unfold keep_short, is_substring. rewrite orb_true_iff, Nat.leb_le, negb_true_iff.
  split; (intros [H|H]; [left; exact H|right]).
  - intros other Hin Hne.
    destruct (dominates seg other) eqn:Ed; [|reflexivity].
    assert (existsb (fun o => negb (str_eqb seg o) && dominates seg o)
              sorted_segments = true).
    { apply existsb_exists. exists other. split; [exact Hin|].
      rewrite Ed, andb_true_r. apply negb_true_iff.
      destruct (str_eqb seg other) eqn:E; [|reflexivity].
      apply str_eqb_eq in E. congruence. }
    congruence.
  - destruct (existsb _ sorted_segments) eqn:E; [|reflexivity].
    apply existsb_exists in E. destruct E as [o [Hin Ho]].
    apply andb_true_iff in Ho. destruct Ho as [Hne Hd].
    rewrite H in Hd; [discriminate|exact Hin|].
    intros ->. rewrite str_eqb_refl in Hne. discriminate.
Qed.

(** Every match of [find_matches_for_segment] carries the segment it was
    asked for. *)
Lemma find_matches_segment (seg : str) (sentences : list Sentence)
    (lo hi : Q) (thr : Z) (m : Match) :
  In m (find_matches_for_segment seg sentences lo hi thr) -> segment m = seg.
Proof.
  intros H. apply find_matches_accepted in H.
  destruct H as [i (w0 & w1 & _ & _ & _ & _ & _ & ->)]. reflexivity.
Qed.

Lemma add_new_incl (seen : list (Q * Q * str)) (found : list Match) :
  forall m, In m (snd (add_new seen found)) -> In m found.
Proof.
  revert seen. induction found as [|a r IH]; simpl; intros seen m H.
  - exact H.
  - destruct (existsb _ seen).
    + right. eapply IH. exact H.
    + destruct (add_new _ r) as [seen' new] eqn:E. simpl in H.
      destruct H as [<-|H]; [now left|right].
      apply (IH ((m_start a, m_end a, segment a) :: seen)). rewrite E. exact H.
Qed.

(** The spans of [find_longest_matches_filtered] that reach the matcher:
    [min_words] words or more, or the input sentence itself. *)
Lemma search_spans_floor (min_words : nat) (input_sentence : str)
    (sentences : list Sentence) (lo hi : Q) (thr : Z) (m : Match) :
  In m (search_spans (Some min_words) input_sentence sentences lo hi thr) ->
  exists i j,
    let segment_words := firstn (j - i) (skipn i (split input_sentence)) in
    segment m = join (lit " ") segment_words /\
    ((min_words <= List.length segment_words)%nat \/ segment m = input_sentence).
Proof.
  unfold search_spans.
  set (P := fun m : Match => exists i j,
    let segment_words := firstn (j - i) (skipn i (split input_sentence)) in
    segment m = join (lit " ") segment_words /\
    ((min_words <= List.length segment_words)%nat \/ segment m = input_sentence)).
  enough (Hinv : forall l acc,
    (forall x, In x (snd acc) -> P x) ->
    forall x, In x (snd (fold_left
      (fun (acc : list (Q * Q * str) * list Match) (ij : nat * nat) =>
         let '(seen_ranges, matches) := acc in
         let '(i, j) := ij in
         let segment_words := firstn (j - i) (skipn i (split input_sentence)) in
         let segment := join (lit " ") segment_words in
         let word_count := List.length segment_words in
         let skipped :=
           match Some min_words with
           | Some mw => (word_count <? mw)%nat && negb (str_eqb segment input_sentence)
           | None => false
           end in
         if skipped then acc
         else
           let segment_min_silence :=
             if (Z.of_nat word_count <? Z.max thr 1)%Z then lo else 0 in
           let found_matches :=
             find_matches_for_segment segment sentences segment_min_silence
               hi (Z.max thr 1) in
           let '(seen_ranges, new_matches) := add_new seen_ranges found_matches in
           (seen_ranges, matches ++ new_matches))
      l acc)) -> P x).
  { intros H. eapply Hinv; [|exact H]. simpl. intros ? []. }
  induction l as [|[i j] l IH]; intros [seen matches] Hacc x; simpl.
  - apply Hacc.
  - apply IH. clear IH x.
    set (segment_words := firstn (j - i) (skipn i (split input_sentence))).
    destruct ((List.length segment_words <? min_words)%nat &&
              negb (str_eqb (join (lit " ") segment_words) input_sentence)) eqn:Es.
    + exact Hacc.
    + destruct (add_new seen _) as [seen' new] eqn:En. simpl.
      intros x Hx. apply in_app_or in Hx. destruct Hx as [Hx|Hx].
      * apply Hacc. exact Hx.
      * assert (Hf : In x (snd (add_new seen
          (find_matches_for_segment (join (lit " ") segment_words) sentences
             (if (Z.of_nat (List.length segment_words) <? Z.max thr 1)%Z then lo else 0)
             hi (Z.max thr 1))))) by (rewrite En; exact Hx).
        apply add_new_incl in Hf. apply find_matches_segment in Hf.
        exists i, j. fold segment_words. cbv zeta. split; [exact Hf|].
        apply andb_false_iff in Es. destruct Es as [Es|Es].
        -- left. apply Nat.ltb_ge in Es. exact Es.
        -- right. apply negb_false_iff, str_eqb_eq in Es. congruence.
Qed.

End WithDB.

(** In partial-match mode without "all partials" the filter always returns
    a list [kept], whatever the list of segments it is given, and:
    - the spans searched by [find_longest_matches_filtered] have at least
      3 words or are the input sentence itself;
    - when a full match exists, every span at least as long as the phrase
      (or equal to it) is kept, and a shorter span is kept only if no span
      of that kind before it contains it and, when it has fewer than 3
      words, no other longer kept span contains it;
    - when no full match exists, a span is kept exactly when it has 3 or
      more words (contained in a longer kept span or not) or no other
      longer span contains it. *)
Lemma filter_segments_cases (U : UnicodeDB) (input_sentence : str)
    (sorted_segments : list str) :
  exists kept,
    filter_segments input_sentence true false sorted_segments = Some kept /\
    (forall sentences lo hi thr m,
       In m (find_longest_matches_filtered input_sentence sentences lo hi thr 3) ->
       exists i j,
         let segment_words := firstn (j - i) (skipn i (split input_sentence)) in
         segment m = join (lit " ") segment_words /\
         ((3 <= List.length segment_words)%nat \/ segment m = input_sentence)) /\
    let input_normalized := normalized input_sentence in
    let full_match_exists :=
      existsb (fun seg => str_eqb (normalized seg) input_normalized) sorted_segments in
    (full_match_exists = true ->
       (forall seg, In seg sorted_segments ->
          is_prioritized input_normalized seg = true -> In seg kept) /\
       (forall seg, In seg kept ->
          In seg sorted_segments /\
          (is_prioritized input_normalized seg = true \/
           (exists before after,
              sorted_segments = before ++ seg :: after /\
              forall longer, In longer before ->
                is_prioritized input_normalized longer = true ->
                dominates seg longer = false) /\
           ((3 <= List.length (split (normalized seg)))%nat \/
            forall other, In other kept -> other <> seg ->
              dominates seg other = false)))) /\
    (full_match_exists = false ->
       forall seg, In seg kept <->
         In seg sorted_segments /\
         ((3 <= List.length (split (normalized seg)))%nat \/
          forall other, In other sorted_segments -> other <> seg ->
            dominates seg other = false)).
Proof.
  unfold filter_segments. simpl negb. cbv iota.
  set (input_normalized := normalized input_sentence).
  destruct (existsb (fun seg => str_eqb (normalized seg) input_normalized)
              sorted_segments) eqn:Efull.
  - destruct (prioritize input_normalized sorted_segments [] []) as [P O] eqn:Ep.
    destruct (prioritize_spec _ _ _ _ _ _ Ep) as [HP (rest & HO & Hrest)].
    simpl in HP, HO. subst P O.
    eexists. split; [reflexivity|]. split; [|split].
    + intros. eapply search_spans_floor. eassumption.
    + intros _. split.
      * intros seg Hin Hp. apply in_or_app. left. apply filter_In. auto.
      * intros seg Hin. apply in_app_or in Hin. destruct Hin as [Hin|Hin].
        -- apply filter_In in Hin. destruct Hin as [Hin Hp]. split; auto.
        -- apply filter_In in Hin. destruct Hin as [Hin Hk].
           destruct (Hrest seg Hin) as [Hnp (b & a & Hs & Hdom)].
           split; [rewrite Hs; apply in_or_app; right; now left|].
           right. split.
           ++ exists b, a. split; [exact Hs|].
              intros l Hl Hlp. apply Hdom. simpl. apply filter_In. auto.
           ++ apply keep_short_spec in Hk. destruct Hk as [Hk|Hk]; [now left|].
              right. intros other Ho Hne. apply Hk; [|exact Hne].
              apply in_app_or in Ho. apply in_or_app.
              destruct Ho as [Ho|Ho]; [now left|right].
              apply filter_In in Ho. tauto.
    + discriminate.
  - eexists. split; [reflexivity|]. split; [|split].
    + intros. eapply search_spans_floor. eassumption.
    + discriminate.
    + intros _ seg. rewrite filter_In, keep_short_spec. reflexivity.
Qed.

(** ** The substring rule as the specification words it *)

(** "A shorter span is retained only if it is not a contiguous substring
    of any retained longer span." *)
Definition claimed_domination_rule {U : UnicodeDB} (kept : list str) : Prop :=
  forall seg longer, In seg kept -> In longer kept -> dominates seg longer = false.

(** A transcript that says "a b c d x". *)
Definition abcdx : list Sentence :=
  [ {| content := VStr (lit "a b c d x");
       words := [MatchExamples.w "a" 0 1; MatchExamples.w "b" 1 2;
                 MatchExamples.w "c" 2 3; MatchExamples.w "d" 3 4;
                 MatchExamples.w "x" 4 5] |} ].

Example abcde_in_abcdx :
  option_map snd
    (@select_segments UCD.db (fun _ => Some abcdx) (lit "a b c d e")
       [lit "v.mp4"] 0 10 2 true false)
  = Some [lit "a b c d"; lit "a b c"; lit "b c d"].
Proof. vm_compute. reflexivity. Qed.

(** C3 as stated fails.  The phrase "a b c d e" has no full match in
    "a b c d x"; its spans "a b c d", "a b c" and "b c d" are all kept,
    although the first contains the other two. *)
Lemma claimed_domination_rule_fails :
  ~ (forall groups kept,
       @select_segments UCD.db (fun _ => Some abcdx) (lit "a b c d e")
         [lit "v.mp4"] 0 10 2 true false = Some (groups, kept) ->
       existsb (fun seg => str_eqb (@normalized UCD.db seg)
                             (@normalized UCD.db (lit "a b c d e"))) kept = false ->
       @claimed_domination_rule UCD.db kept).
Proof.
  intros H.
  destruct (@select_segments UCD.db (fun _ => Some abcdx) (lit "a b c d e")
              [lit "v.mp4"] 0 10 2 true false) as [[groups kept]|] eqn:E.
  - pose proof abcde_in_abcdx as Hk. rewrite E in Hk. simpl in Hk.
    injection Hk as Hk. subst kept.
    specialize (H groups _ eq_refl (eq_refl : _ = false)).
    specialize (H (lit "a b c") (lit "a b c d")).
    assert (Hd : @dominates UCD.db (lit "a b c") (lit "a b c d") = true)
      by (vm_compute; reflexivity).
    rewrite H in Hd; [discriminate| |].
    + right. left. reflexivity.
    + left. reflexivity.
  - pose proof abcde_in_abcdx as Hk. rewrite E in Hk. discriminate.
Qed.

End AggregatorProps.

(* ================================================================== *)
(** * ClipCache: the cache check at the start of a search             *)
(* ================================================================== *)

Module ClipCache.

(** [a <= b] on strings, code point by code point. *)
Fixpoint str_leb (a b : str) : bool :=
  match a, b with
  | [], _ => true
  | _ :: _, [] => false
  | x :: a', y :: b' => if N.eqb x y then str_leb a' b' else N.ltb x y
  end.

Fixpoint insert_str (x : str) (l : list str) : list str :=
  match l with
  | [] => [x]
  | y :: r => if str_leb x y then x :: l else y :: insert_str x r
  end.

(** [sorted(names)] *)
Definition sorted_strs (l : list str) : list str := fold_right insert_str [] l.

(** [s.endswith(suffix)] *)
Definition endswith (s suffix : str) : bool := startswith (rev s) (rev suffix).

(** What the check reads from the file system. *)
Record Files := {
  (** ['source_files'] of the metadata file, when it exists and parses *)
  stored_source_files : option (list str);
  (** [os.path.isdir(clip_output_dir)] *)
  isdir : bool;
  (** [os.listdir(clip_output_dir)]; [None] for an [OSError] *)
  listdir : option (list str);
  (** [os.path.isfile] of a name in the clip directory *)
  isfile : str -> bool
}.

Inductive Action :=
| Rmtree
| Makedirs.

Record CacheState := {
  skip_export : bool;
  cached_clip_files : list str;
  actions : list Action
}.

Section WithDB.
Context {U : UnicodeDB}.

(** The sorted names of the directory that end in [.mp4]. *)
Definition listed_clips (fs : Files) : list str :=
  match listdir fs with
  | Some names =>
      sorted_strs (filter (fun name => endswith (lower name) (lit ".mp4")) names)
  | None => []
  end.

(** Lines 2136-2182, for [export_clips = True]. *)
Definition check_cache (fs : Files) (filenames : list str)
    (max_results_per_segment : Z) : CacheState :=
  let current_source_files := sorted_strs filenames in
  let st :=
    match stored_source_files fs with
    | Some stored =>
        if strs_eqb stored current_source_files then
          if isdir fs then
            let cached_clip_files := listed_clips fs in
            if negb (is_empty cached_clip_files) then
              let verified_clip_files := filter (isfile fs) cached_clip_files in
              if negb (List.length verified_clip_files =? List.length cached_clip_files)%nat
              then
                if is_empty verified_clip_files
                then {| skip_export := false;
                        cached_clip_files := verified_clip_files;
                        actions := [Rmtree] |}
                else {| skip_export := true;
                        cached_clip_files := verified_clip_files;
                        actions := [] |}
              else {| skip_export := true;
                      cached_clip_files := cached_clip_files;
                      actions := [] |}
            else {| skip_export := true; cached_clip_files := [];
                    actions := [] |}
          else {| skip_export := false; cached_clip_files := [];
                  actions := [] |}
        else
          {| skip_export := false; cached_clip_files := [];
             actions := (if isdir fs then [Rmtree] else []) ++ [Makedirs] |}
    | None =>
        {| skip_export := false; cached_clip_files := [];
           actions := (if isdir fs then [Rmtree] else []) ++ [Makedirs] |}
    end in
  if skip_export st then
    let required_count :=
      Z.min (Z.of_nat (List.length (cached_clip_files st))) max_results_per_segment in
    if (required_count =? 0)%Z then
      {| skip_export := false; cached_clip_files := [];
         actions := actions st ++ [Rmtree; Makedirs] |}
    else
      {| skip_export := true;
         cached_clip_files := slice_to (cached_clip_files st) max_results_per_segment;
         actions := actions st |}
  else st.

End WithDB.

End ClipCache.

Module ClipCacheProps.
Import ClipCache.

Lemma filter_all {A} (f : A -> bool) (l : list A) :
  List.length (filter f l) = List.length l -> filter f l = l.
Proof.
  induction l as [|a l IH]; simpl; [reflexivity|].
  destruct (f a); simpl; intros H.
  - f_equal. apply IH. lia.
  - pose proof (filter_length_le f l). lia.
Qed.

Lemma is_empty_true {A} (l : list A) : is_empty l = true <-> l = [].
Proof. destruct l; simpl; split; congruence. Qed.

Lemma is_empty_false {A} (l : list A) : is_empty l = false <-> l <> [].
Proof. destruct l; simpl; split; congruence. Qed.

Section WithDB.
Context {U : UnicodeDB}.

(** The listed clip files that are present. *)
Definition verified_clips (fs : Files) : list str :=
  filter (isfile fs) (listed_clips fs).

(** The stored metadata names the source files of the request. *)
Definition metadata_matches (fs : Files) (filenames : list str) : Prop :=
  stored_source_files fs = Some (sorted_strs filenames).

(** The state before the cap of lines 2174-2182. *)
Lemma check_cache_cases (fs : Files) (filenames : list str) (max : Z) :
  (0 <= max)%Z ->
  let c := check_cache fs filenames max in
  (metadata_matches fs filenames /\ isdir fs = true /\
   verified_clips fs <> [] /\ max <> 0%Z /\
   skip_export c = true /\
   cached_clip_files c = slice_to (verified_clips fs) max /\
   actions c = [])
  \/
  (~ (metadata_matches fs filenames /\ isdir fs = true /\
      verified_clips fs <> [] /\ max <> 0%Z) /\
   skip_export c = false /\ cached_clip_files c = [] /\
   (isdir fs = true ->
    verified_clips fs = [] \/ ~ metadata_matches fs filenames ->
    In Rmtree (actions c))).
Proof.
  intros Hmax c. subst c. unfold check_cache, metadata_matches, verified_clips.
  destruct (stored_source_files fs) as [stored|] eqn:Es.
  2:{ right. simpl. repeat split; try reflexivity.
      - intros (H & _). discriminate.
      - intros -> _. simpl. now left. }
  destruct (strs_eqb stored (sorted_strs filenames)) eqn:Em.
  2:{ right. simpl. repeat split; try reflexivity.
      - intros (H & _). injection H as ->.
        unfold strs_eqb in Em. destruct (strs_eq_dec _ _); congruence.
      - intros -> _. simpl. now left. }
  apply strs_eqb_eq in Em. subst stored.
  destruct (isdir fs) eqn:Ed.
  2:{ right. simpl. repeat split; try reflexivity.
      - intros (_ & H & _). discriminate.
      - discriminate. }
  set (L := listed_clips fs). set (V := filter (isfile fs) L).
  destruct (is_empty L) eqn:EL; simpl negb; cbv iota.
  - apply is_empty_true in EL. assert (HV : V = []) by (unfold V; now rewrite EL).
    right. simpl. rewrite Z.min_l by exact Hmax. simpl.
    repeat split; try reflexivity.
    + intros (_ & _ & H & _). auto.
    + intros _ _. simpl. now left.
  - destruct (Nat.eqb_spec (List.length V) (List.length L)) as [Hl|Hl]; simpl negb; cbv iota.
    + assert (HVL : V = L) by (apply filter_all; exact Hl).
      assert (HVne : V <> []) by (rewrite HVL; now apply is_empty_false).
      simpl skip_export. cbv iota. simpl cached_clip_files. simpl actions.
      rewrite <- HVL.
      destruct (Z.eqb_spec (Z.min (Z.of_nat (List.length V)) max) 0) as [Hz|Hz].
      * right. assert (max = 0%Z).
        { destruct V; [congruence|]. simpl List.length in Hz. lia. }
        repeat split; try reflexivity.
        -- intros (_ & _ & _ & H'). auto.
        -- intros _ _. simpl. now left.
      * left. repeat split; auto.
        intros ->. rewrite Z.min_r in Hz by lia. auto.
    + destruct (is_empty V) eqn:EV.
      * apply is_empty_true in EV. right. simpl.
        repeat split; try reflexivity; try exact EV.
        -- intros (_ & _ & H & _). auto.
        -- intros _ _. now left.
      * apply is_empty_false in EV.
        simpl skip_export. cbv iota. simpl cached_clip_files. simpl actions.
        destruct (Z.eqb_spec (Z.min (Z.of_nat (List.length V)) max) 0) as [Hz|Hz].
        -- right. assert (max = 0%Z).
           { destruct V; [congruence|]. simpl List.length in Hz. lia. }
           repeat split; try reflexivity.
           ++ intros (_ & _ & _ & H'). auto.
           ++ intros _ [H'|H']; [congruence|]. exfalso. apply H'. reflexivity.
        -- left. repeat split; auto.
           intros ->. rewrite Z.min_r in Hz by lia. auto.
Qed.



End WithDB.


End ClipCacheProps.

Module ClipCacheExamples.
Import ClipCache ClipCacheProps.




(** The same directory with neither clip present: the directory is removed
    and not created again. *)
Definition all_missing : Files :=
  {| stored_source_files := Some [lit "v.mp4"];
     isdir := true;
     listdir := Some [lit "metadata.json"; lit "c_00001.mp4"; lit "c_00000.mp4"];
     isfile := fun _ => false |}.

Example all_missing_is_removed :
  @check_cache UCD.db all_missing [lit "v.mp4"] 25 =
  {| skip_export := false; cached_clip_files := []; actions := [Rmtree] |}.
Proof. vm_compute. reflexivity. Qed.



End ClipCacheExamples.

(* ================================================================== *)
(** * EncoderCapability and [render_single_clip]                      *)
(* ================================================================== *)

Module Render.
Import MatchFinder.

(** The process-wide encoder state: [_GPU_ENCODER_CACHE] ([None] before
    detection, otherwise the pair, whose encoder may be [None]),
    [_GPU_DISABLED], and the permits left in [GPU_ENCODING_SEMAPHORE]
    ([None] before start-up). *)
Record GpuState := {
  gpu_encoder_cache : option (option (str * list str));
  gpu_disabled : bool;
  gpu_permits : option nat
}.

Definition get_gpu_encoder (g : GpuState) : option (str * list str) :=
  match gpu_encoder_cache g with
  | Some c => c
  | None => None
  end.

Definition disable_gpu_encoder (g : GpuState) : GpuState :=
  {| gpu_encoder_cache := Some None;
     gpu_disabled := true;
     gpu_permits := gpu_permits g |}.

(** [detect_gpu_encoder]; [probe] is what the encoder tests would find. *)
Definition detect_gpu_encoder (probe : option (str * list str)) (g : GpuState)
    : GpuState * option (str * list str) :=
  if gpu_disabled g then (g, None)
  else
    match gpu_encoder_cache g with
    | Some c => (g, c)
    | None =>
        ({| gpu_encoder_cache := Some probe;
            gpu_disabled := gpu_disabled g;
            gpu_permits := gpu_permits g |}, probe)
    end.

(** The operations on the encoder state. *)
Inductive GpuOp :=
| OpDetect (probe : option (str * list str))
| OpDisable.

Definition gpu_apply (g : GpuState) (op : GpuOp) : GpuState :=
  match op with
  | OpDetect probe => fst (detect_gpu_encoder probe g)
  | OpDisable => disable_gpu_encoder g
  end.

(** What [subprocess.run] gives back: an exit code and the decoded
    standard error, or [TimeoutExpired]. *)
Inductive ProcResult :=
| Exited (returncode : Z) (stderr : str)
| TimedOut.

(** The video encoder arguments of a command line. *)
Inductive VideoCodec :=
| GpuCodec (encoder : str) (args : list str)
| MinimalNvenc
| Libx264Ultrafast.

Record Command := {
  codec : VideoCodec;
  cmd_ss : Q;
  cmd_input : str;
  cmd_t : Q;
  cmd_fps : Q;
  cmd_output : str
}.

(** What a task sees of its surroundings: the source file, its duration
    and frame rate, the result of its [k]-th [subprocess.run], and whether
    the output file exists at the end. *)
Record ClipEnv := {
  source_exists : bool;
  video_duration : option Q;
  video_fps : option Q;
  proc_result : nat -> ProcResult;
  output_exists : bool
}.

Inductive Error :=
| FileNotFound
| NoDuration
| InvalidRange
| FfmpegFailed (returncode : Z)
| Timeout
| OutputMissing.

(** [(True, output_path, None)] or [(False, None, str(e))]. *)
Inductive RenderResult :=
| Rendered (output_path : str)
| Failed (e : Error).

Record Rendering := {
  result : RenderResult;
  commands : list Command;
  gpu_after : GpuState
}.

(** [min(a, b)] of Python: [a] unless [b < a]. *)
Definition py_min (a b : Q) : Q := if Qle_bool a b then a else b.

Definition DEFAULT_CLIP_START_PADDING : Q := 0.45.
Definition DEFAULT_CLIP_END_PADDING : Q := 0.45.

(** The clip window, [None] for the [ValueError] of the final validation. *)
Definition clip_window (match_start match_end video_duration : Q) : option (Q * Q) :=
  let clip_start := py_max (match_start - DEFAULT_CLIP_START_PADDING) 0 in
  let clip_end := match_end + DEFAULT_CLIP_END_PADDING in
  let clip_start := py_min clip_start (video_duration - 0.1) in
  let clip_end := py_min clip_end video_duration in
  let clip_end :=
    if Qle_bool clip_end clip_start then
      let clip_duration := py_max (match_end - match_start) 0 in
      let min_extension := DEFAULT_CLIP_START_PADDING + DEFAULT_CLIP_END_PADDING in
      py_min (clip_start + py_max (clip_duration + min_extension) 0.1) video_duration
    else clip_end in
  if Qle_bool clip_end clip_start then None else Some (clip_start, clip_end).

Section WithDB.
Context {U : UnicodeDB}.

(** The diagnostic substrings of line 2528. *)
Definition gpu_error_markers : list str :=
  [lit "nvenc"; lit "No capable devices"; lit "incompatible client key";
   lit "OpenEncodeSessionEx failed"; lit "No device"; lit "failed to initialize";
   lit "Error while opening encoder"; lit "Could not open encoder";
   lit "encoder initialization"; lit "Invalid parameter"; lit "invalid parameter"].

(** The test "is it a GPU-specific error" of line 2528. *)
Definition gpu_failure_signature (current_gpu_encoder : option (str * list str))
    (returncode : Z) (stderr : str) : bool :=
  match current_gpu_encoder with
  | Some (name, _) =>
      negb (is_empty name) &&
      ((returncode =? 187)%Z || (returncode =? 244)%Z ||
       existsb (fun err => contains (lower stderr) (lower err)) gpu_error_markers)
  | None => false
  end.

(** The test of line 2535 that guards the retry with minimal parameters. *)
Definition retries_minimal (current_gpu_encoder : option (str * list str))
    (returncode : Z) : bool :=
  match current_gpu_encoder with
  | Some (name, _) => (returncode =? 244)%Z && contains (lower name) (lit "nvenc")
  | None => false
  end.

(** Lines 2595-2598. *)
Definition finish (env : ClipEnv) (output_path : str) (cmds : list Command)
    (g : GpuState) : Rendering :=
  {| result := if output_exists env then Rendered output_path else Failed OutputMissing;
     commands := cmds; gpu_after := g |}.

Definition fail (e : Error) (cmds : list Command) (g : GpuState) : Rendering :=
  {| result := Failed e; commands := cmds; gpu_after := g |}.

(** Lines 2567-2591: disable the GPU, run the CPU command as the [k]-th
    process of the task. *)
Definition cpu_fallback (env : ClipEnv) (output_path : str) (cpu : Command)
    (k : nat) (cmds : list Command) (g : GpuState) : Rendering :=
  let g := disable_gpu_encoder g in
  match proc_result env k with
  | Exited rc _ =>
      if (rc =? 0)%Z then finish env output_path (cmds ++ [cpu]) g
      else fail (FfmpegFailed rc) (cmds ++ [cpu]) g
  | TimedOut => fail Timeout (cmds ++ [cpu]) g
  end.

(** Lines 2494-2598: the first run and what follows a non-zero exit. *)
Definition run_encode (env : ClipEnv) (g : GpuState)
    (current_gpu_encoder : option (str * list str))
    (first minimal cpu : Command) (output_path : str) : Rendering :=
  match proc_result env 0 with
  | TimedOut => fail Timeout [first] g
  | Exited rc stderr =>
      if (rc =? 0)%Z then finish env output_path [first] g
      else if gpu_failure_signature current_gpu_encoder rc stderr then
        if retries_minimal current_gpu_encoder rc then
          match proc_result env 1 with
          | Exited rc_minimal _ =>
              if (rc_minimal =? 0)%Z
              then {| result := Rendered output_path;
                      commands := [first; minimal]; gpu_after := g |}
              else cpu_fallback env output_path cpu 2 [first; minimal] g
          | TimedOut => fail Timeout [first; minimal] g
          end
        else cpu_fallback env output_path cpu 1 [first] g
      else fail (FfmpegFailed rc) [first] g
  end.

(** [render_single_clip]: the validation, the choice of the encoder (a
    permit is taken without blocking and given back before the process is
    started, so the count of permits is the same afterwards), and the
    encode. *)
Definition render_single_clip (env : ClipEnv) (g : GpuState)
    (filename : str) (m : Match) (output_path : str) : Rendering :=
  if negb (source_exists env) then fail FileNotFound [] g
  else
    match video_duration env with
    | None => fail NoDuration [] g
    | Some duration =>
        match clip_window (m_start m) (m_end m) duration with
        | None => fail InvalidRange [] g
        | Some (clip_start, clip_end) =>
            let fps := match video_fps env with Some f => f | None => 25 end in
            let current_gpu_encoder := get_gpu_encoder g in
            let use_gpu :=
              match current_gpu_encoder, gpu_permits g with
              | Some (name, _), Some permits =>
                  negb (is_empty name) && (0 <? permits)%nat
              | _, _ => false
              end in
            let command c :=
              {| codec := c; cmd_ss := clip_start; cmd_input := filename;
                 cmd_t := clip_end - clip_start; cmd_fps := fps;
                 cmd_output := output_path |} in
            let first :=
              match current_gpu_encoder with
              | Some (name, args) =>
                  if use_gpu then command (GpuCodec name args)
                  else command Libx264Ultrafast
              | None => command Libx264Ultrafast
              end in
            run_encode env g current_gpu_encoder first (command MinimalNvenc)
              (command Libx264Ultrafast) output_path
        end
    end.

End WithDB.

(** How many commands of a task use the minimal NVENC parameters. *)
Definition minimal_retries (r : Rendering) : nat :=
  List.length
    (filter (fun c => match codec c with MinimalNvenc => true | _ => false end)
            (commands r)).

End Render.

Module RenderProps.
Import MatchFinder Render.

(** Once disabled, the encoder stays disabled whatever is called later. *)
Lemma disable_is_final (g : GpuState) (ops : list GpuOp) :
  gpu_disabled (fold_left gpu_apply ops (disable_gpu_encoder g)) = true /\
  get_gpu_encoder (fold_left gpu_apply ops (disable_gpu_encoder g)) = None.
Proof.
  assert (Hinv : forall ops s,
            gpu_disabled s = true /\ gpu_encoder_cache s = Some None ->
            gpu_disabled (fold_left gpu_apply ops s) = true /\
            gpu_encoder_cache (fold_left gpu_apply ops s) = Some None).
  { clear. induction ops as [|op ops IH]; intros s [Hd Hc]; simpl; [auto|].
    apply IH. destruct op as [probe|]; simpl.
    - unfold detect_gpu_encoder. rewrite Hd. simpl. auto.
    - auto. }
  destruct (Hinv ops (disable_gpu_encoder g)) as [Hd Hc]; [simpl; auto|].
  split; [exact Hd|]. unfold get_gpu_encoder. now rewrite Hc.
Qed.

(** C7 (as the code has it).  After a first encode that exits with a
    non-zero code [rc]:
    - if the failure does not carry the GPU signature (no encoder is
      configured, or neither the code is 187 or 244 nor a marker occurs in
      the error output), the task fails with that code, nothing else is
      run and the encoder state is unchanged;
    - if it does and [rc] is 244 on an NVENC encoder, exactly one command
      with the minimal parameters is run next; when that one exits with 0
      the task succeeds and the encoder state is unchanged, and when it
      exits with another code the GPU is disabled and the CPU command is
      run once;
    - if it does and [rc] is not 244 or the encoder is not NVENC, no
      minimal command is run: the GPU is disabled and the CPU command is
      run once;
    - a disabled GPU stays disabled under every later operation. *)
Theorem run_encode_failure_spec (U : UnicodeDB) (env : ClipEnv) (g : GpuState)
    (current : option (str * list str)) (first minimal cpu : Command)
    (output_path : str) (rc : Z) (stderr : str) :
  proc_result env 0 = Exited rc stderr ->
  rc <> 0%Z ->
  let r := run_encode env g current first minimal cpu output_path in
  (gpu_failure_signature current rc stderr = false ->
     result r = Failed (FfmpegFailed rc) /\ commands r = [first] /\ gpu_after r = g) /\
  (gpu_failure_signature current rc stderr = true ->
   retries_minimal current rc = true ->
     (forall e, proc_result env 1 = Exited 0 e ->
        result r = Rendered output_path /\ commands r = [first; minimal] /\
        gpu_after r = g) /\
     (forall rc1 e, proc_result env 1 = Exited rc1 e -> rc1 <> 0%Z ->
        commands r = [first; minimal; cpu] /\
        gpu_after r = disable_gpu_encoder g)) /\
  (gpu_failure_signature current rc stderr = true ->
   retries_minimal current rc = false ->
     commands r = [first; cpu] /\ gpu_after r = disable_gpu_encoder g) /\
  (forall ops,
     get_gpu_encoder (fold_left gpu_apply ops (disable_gpu_encoder g)) = None).
Proof.
  intros H0 Hrc r. subst r. unfold run_encode. rewrite H0.
  destruct (Z.eqb_spec rc 0) as [|_]; [contradiction|].
  assert (Hcpu : forall k cmds,
            commands (cpu_fallback env output_path cpu k cmds g) = cmds ++ [cpu] /\
            gpu_after (cpu_fallback env output_path cpu k cmds g) =
              disable_gpu_encoder g).
  { intros k cmds. unfold cpu_fallback.
    destruct (proc_result env k) as [rc2 e2|]; [destruct (rc2 =? 0)%Z|];
      simpl; auto. }
  split; [|split; [|split]].
  - intros ->. simpl. auto.
  - intros -> ->. split.
    + intros e ->. simpl. auto.
    + intros rc1 e -> Hrc1.
      destruct (Z.eqb_spec rc1 0) as [|_]; [contradiction|].
      apply (Hcpu 2%nat [first; minimal]).
  - intros -> ->. apply (Hcpu 1%nat [first]).
  - intros ops. apply disable_is_final.
Qed.

(** ** Examples *)

(** A running server with a verified NVENC encoder and two permits. *)
Definition nvenc_ready : GpuState :=
  {| gpu_encoder_cache := Some (Some (lit "h264_nvenc", [lit "-preset"; lit "p4"]));
     gpu_disabled := false;
     gpu_permits := Some 2%nat |}.

(** A 20 second source whose encodes exit with the given codes in turn. *)
Definition env_exits (codes : list Z) : ClipEnv :=
  {| source_exists := true;
     video_duration := Some 20;
     video_fps := Some 25;
     proc_result := fun k => Exited (nth k codes 0%Z) [];
     output_exists := true |}.

Definition a_match : Match :=
  {| segment := lit "hello"; m_start := 1; m_end := 2;
     first_silence := 0; second_silence := 0 |}.

Definition render (codes : list Z) : Rendering :=
  @render_single_clip UCD.db (env_exits codes) nvenc_ready (lit "v.mp4") a_match
    (lit "out.mp4").

Example exit_244_then_minimal_fails :
  List.map codec (commands (render [244; 1; 0]%Z)) =
    [GpuCodec (lit "h264_nvenc") [lit "-preset"; lit "p4"]; MinimalNvenc;
     Libx264Ultrafast] /\
  gpu_after (render [244; 1; 0]%Z) = disable_gpu_encoder nvenc_ready /\
  result (render [244; 1; 0]%Z) = Rendered (lit "out.mp4").
Proof. vm_compute. repeat split. Qed.

Example exit_187_goes_to_cpu :
  List.map codec (commands (render [187; 0]%Z)) =
    [GpuCodec (lit "h264_nvenc") [lit "-preset"; lit "p4"]; Libx264Ultrafast] /\
  gpu_after (render [187; 0]%Z) = disable_gpu_encoder nvenc_ready.
Proof. vm_compute. repeat split. Qed.

(** The theorem at a first exit with 244 on NVENC whose minimal retry
    exits with 1. *)
Lemma run_encode_failure_spec_witness :
  let current := Some (lit "h264_nvenc", [lit "-preset"; lit "p4"]) in
  let c k := {| codec := k; cmd_ss := 0; cmd_input := lit "v.mp4"; cmd_t := 1;
                cmd_fps := 25; cmd_output := lit "out.mp4" |} in
  let r := @run_encode UCD.db (env_exits [244; 1; 0]%Z) nvenc_ready current
             (c (GpuCodec (lit "h264_nvenc") [lit "-preset"; lit "p4"]))
             (c MinimalNvenc) (c Libx264Ultrafast) (lit "out.mp4") in
  commands r =
    [c (GpuCodec (lit "h264_nvenc") [lit "-preset"; lit "p4"]);
     c MinimalNvenc; c Libx264Ultrafast] /\
  gpu_after r = disable_gpu_encoder nvenc_ready.
Proof.
  intros current c r.
  refine (proj2 (proj1 (proj2 (run_encode_failure_spec UCD.db
            (env_exits [244; 1; 0]%Z) nvenc_ready current
            (c (GpuCodec (lit "h264_nvenc") [lit "-preset"; lit "p4"]))
            (c MinimalNvenc) (c Libx264Ultrafast) (lit "out.mp4") 244 []
            eq_refl _)) eq_refl eq_refl) 1%Z [] eq_refl _); discriminate.
Defined.

(** "A non-zero exit of a GPU-backed encode whose signature matches
    (exit codes 187/244 or the listed substrings) triggers exactly one
    retry with a minimized GPU parameter set." *)
Definition claimed_retry_rule {U : UnicodeDB} (env : ClipEnv) (g : GpuState)
    (filename : str) (m : Match) (output_path : str) : Prop :=
  forall rc stderr,
    proc_result env 0 = Exited rc stderr -> rc <> 0%Z ->
    gpu_failure_signature (get_gpu_encoder g) rc stderr = true ->
    minimal_retries (render_single_clip env g filename m output_path) = 1%nat.

(** C7 as stated fails: after an exit with 187 on NVENC no command with
    minimal parameters is run; the task goes to the CPU at once. *)
Lemma claimed_retry_rule_fails :
  ~ @claimed_retry_rule UCD.db (env_exits [187; 0]%Z) nvenc_ready (lit "v.mp4")
      a_match (lit "out.mp4").
Proof.
  intros H. specialize (H 187%Z [] eq_refl).
  assert (Hn : minimal_retries
                 (@render_single_clip UCD.db (env_exits [187; 0]%Z) nvenc_ready
                    (lit "v.mp4") a_match (lit "out.mp4")) = 0%nat)
    by (vm_compute; reflexivity).
  rewrite Hn in H. discriminate H.
  - discriminate.
  - vm_compute. reflexivity.
Qed.

End RenderProps.

(* ================================================================== *)
(** * The GPU permit under concurrent tasks                           *)
(* ================================================================== *)

(** The steps of [render_single_clip] (lines 2451-2500, and the same lines
    3300-3339 of [render_single_clip_phrase]) that touch the semaphore or
    run the encoder, taken by the worker threads of the pool in any
    interleaving. *)
Module GpuPermit.

(** Where a task stands. *)
Inductive Pc :=
| AtAcquire                  (* before [acquire(blocking=False)] *)
| Building (use_gpu : bool)  (* building the command; the permit is held when [use_gpu] *)
| Ready (use_gpu : bool)     (* after the [finally]: the permit is released *)
| Encoding (use_gpu : bool)  (* inside [subprocess.run] *)
| Done.

Record System := {
  encoder_configured : bool;
  permits : nat;
  tasks : list Pc
}.

(** One step of a task, with the permits before and after. *)
Definition task_step (configured : bool) (permits : nat) (pc : Pc) : nat * Pc :=
  match pc with
  | AtAcquire =>
      if configured && (0 <? permits)%nat
      then ((permits - 1)%nat, Building true)
      else (permits, Building false)
  | Building use_gpu =>
      ((if use_gpu then permits + 1 else permits)%nat, Ready use_gpu)
  | Ready use_gpu => (permits, Encoding use_gpu)
  | Encoding _ => (permits, Done)
  | Done => (permits, Done)
  end.

Fixpoint set_nth {A} (l : list A) (i : nat) (x : A) : list A :=
  match l, i with
  | [], _ => []
  | _ :: r, O => x :: r
  | y :: r, S j => y :: set_nth r j x
  end.

(** Task [i] takes its next step. *)
Definition step (s : System) (i : nat) : System :=
  match nth_error (tasks s) i with
  | Some pc =>
      let '(p, pc') := task_step (encoder_configured s) (permits s) pc in
      {| encoder_configured := encoder_configured s;
         permits := p;
         tasks := set_nth (tasks s) i pc' |}
  | None => s
  end.

(** The system after the tasks have stepped in the order [schedule]. *)
Definition run (schedule : list nat) (s : System) : System :=
  fold_left step schedule s.

(** [n] submitted tasks, [max_gpu_streams] permits. *)
Definition start (max_gpu_streams n : nat) : System :=
  {| encoder_configured := true;
     permits := max_gpu_streams;
     tasks := repeat AtAcquire n |}.

Definition is_gpu_encode (pc : Pc) : bool :=
  match pc with Encoding true => true | _ => false end.

Definition holds_permit (pc : Pc) : bool :=
  match pc with Building true => true | _ => false end.

(** The encodes that run at this moment with GPU encoder arguments. *)
Definition gpu_encodes (s : System) : nat :=
  List.length (filter is_gpu_encode (tasks s)).

Definition permits_held (s : System) : nat :=
  List.length (filter holds_permit (tasks s)).

Definition MAX_GPU_STREAMS : nat := 2.

(** C8 fails on the code.  With two permits and three tasks, the schedule
    in which each task in turn takes the permit, builds its command, gives
    the permit back in the [finally] and only then starts its encode leads
    to three GPU encodes running at the same time. *)
Theorem three_gpu_encodes_with_two_permits :
  gpu_encodes (run [0; 0; 0; 1; 1; 1; 2; 2; 2]%nat (start MAX_GPU_STREAMS 3)) = 3%nat /\
  permits (run [0; 0; 0; 1; 1; 1; 2; 2; 2]%nat (start MAX_GPU_STREAMS 3)) = MAX_GPU_STREAMS.
Proof. split; reflexivity. Qed.

Lemma set_nth_count {A} (f : A -> bool) (l : list A) (i : nat) (x y : A) :
  nth_error l i = Some x ->
  (List.length (filter f (set_nth l i y)) + (if f x then 1 else 0) =
   List.length (filter f l) + (if f y then 1 else 0))%nat.
Proof.
  revert i. induction l as [|a l IH]; intros [|i] H; simpl in *; try discriminate.
  - injection H as ->. destruct (f x), (f y); simpl; lia.
  - specialize (IH i H). destruct (f a); simpl; lia.
Qed.

(** What the semaphore does bound: the tasks that hold a permit, which
    they do only while the command is built. *)
Lemma permits_conserved (schedule : list nat) (s : System) :
  (permits (run schedule s) + permits_held (run schedule s) =
   permits s + permits_held s)%nat.
Proof.
  revert s. induction schedule as [|i sch IH]; intros s; simpl; [reflexivity|].
  unfold run in IH. rewrite IH. clear IH.
  unfold step. destruct (nth_error (tasks s) i) as [pc|] eqn:E; [|reflexivity].
  unfold permits_held.
  destruct (task_step (encoder_configured s) (permits s) pc) as [p pc'] eqn:Et.
  simpl. pose proof (set_nth_count holds_permit (tasks s) i pc pc' E) as Hc.
  destruct pc as [|[]|[]|[]|]; simpl in Et.
  - destruct (encoder_configured s && (0 <? permits s)%nat) eqn:Ea;
      injection Et as <- <-; simpl in Hc.
    + apply andb_true_iff in Ea. destruct Ea as [_ Ea].
      apply Nat.ltb_lt in Ea. lia.
    + lia.
  - injection Et as <- <-. simpl in Hc. lia.
  - injection Et as <- <-. simpl in Hc. lia.
  - injection Et as <- <-. simpl in Hc. lia.
  - injection Et as <- <-. simpl in Hc. lia.
  - injection Et as <- <-. simpl in Hc. lia.
  - injection Et as <- <-. simpl in Hc. lia.
  - injection Et as <- <-. simpl in Hc. lia.
Qed.

(** A task never waits for a permit: whatever the count, the step at
    [acquire] moves on, to the CPU arguments when no permit is left. *)
Lemma acquire_never_blocks (configured : bool) (permits : nat) :
  exists p use_gpu,
    task_step configured permits AtAcquire = (p, Building use_gpu) /\
    (permits = 0%nat -> use_gpu = false /\ p = 0%nat).
Proof.
  simpl. destruct (configured && (0 <? permits)%nat) eqn:E.
  - exists (permits - 1)%nat, true. split; [reflexivity|].
    intros ->. rewrite andb_false_r in E. discriminate.
  - exists permits, false. split; [reflexivity|]. intros ->. auto.
Qed.

End GpuPermit.

(* ================================================================== *)
(** * The generator [find_and_export_longest_matches_incremental]      *)
(* ================================================================== *)

(** The generator as the server calls it: [export_clips=True], so that
    [clip_output_dir] is set.  What the generator does not decide is given
    by a [World]: the skip and cancel signals that reach the registry
    before each look at it, the order in which the futures of a batch
    complete, and what each future returns. *)
Module Generator.
Import MatchFinder Aggregator ClipCache.

(** The control signals of the HTTP layer. *)
Inductive Signal :=
| Skip (phrase : str)
| Cancel.

(** What the registry holds for this search: whether its id is in
    [CANCELLED_SEARCHES], and its set in [SKIP_SEGMENTS]. *)
Record Registry := {
  cancelled : bool;
  skipped : list str
}.

Definition deliver (r : Registry) (s : Signal) : Registry :=
  match s with
  | Skip phrase => {| cancelled := cancelled r; skipped := phrase :: skipped r |}
  | Cancel => {| cancelled := true; skipped := skipped r |}
  end.

Definition is_skipped (r : Registry) (segment : str) : bool :=
  existsb (str_eqb segment) (skipped r).

(** What [future.result()] does: it returns [(True, path, None)], returns
    [(False, None, error)], or raises (the future was cancelled). *)
Inductive Outcome :=
| Succeeded
| Failed
| Raised.

Record World := {
  (** [search_id] is given *)
  has_search_id : bool;
  (** the signals that arrive before the [k]-th look at the registry *)
  arrivals : nat -> list Signal;
  (** when the future of clip [clip_idx] of segment [segment_idx] is done *)
  finish_time : nat -> nat -> nat;
  outcome : nat -> nat -> Outcome
}.

(** A task, [(clip_idx, item, clip_filename, output_path)]; the file name
    is determined by the number [global_clip_counter + clip_idx]. *)
Record Task := {
  clip_idx : nat;
  item : Item;
  clip_number : nat
}.

(** An element of ['files']. *)
Record ClipEntry := {
  ce_clip_number : nat;
  ce_item : Item
}.

Inductive Event :=
| Progress (segment_index : nat) (segment_phrase : str) (clip_index : option nat)
| SegmentResult (phrase : str) (files : list ClipEntry) (word_count : nat)
| SegmentSkipped (phrase : str) (word_count : nat).

(** What the generator does, in order. *)
Inductive Step :=
| Yield (e : Event)
| Look (r : Registry)        (* a look at the registry, and what it held *)
| Submit (tasks : list Task) (* [executor.submit] of a batch *)
| CancelPending              (* [f.cancel()] on the futures not done *)
| RemoveDir                  (* [shutil.rmtree(clip_output_dir)] *)
| WriteMetadata.

(** How the generator ends. *)
Inductive Exit :=
| Returned
| RaisedGeneratorExit   (* [raise GeneratorExit("Search cancelled by user")] *)
| RaisedUnboundLocal    (* a name of the sequential path read before it is bound *)
| Unmodelled.           (* the sequential rendering, outside this model *)

Record Ctl := {
  clock : nat;
  registry : Registry
}.

Record Run := {
  cache : CacheState;
  trace : list Step;
  exit : Exit
}.

(** The futures of a batch in the order in which they are done. *)
Fixpoint insert_by (key : Task -> nat) (x : Task) (l : list Task) : list Task :=
  match l with
  | [] => [x]
  | y :: r => if (key x <=? key y)%nat then x :: l else y :: insert_by key x r
  end.

Definition as_completed (key : Task -> nat) (tasks : list Task) : list Task :=
  fold_right (insert_by key) [] tasks.

Section WithWorld.
Context {U : UnicodeDB}.
Variable w : World.

Definition look (c : Ctl) : Ctl :=
  {| clock := S (clock c);
     registry := fold_left deliver (arrivals w (clock c)) (registry c) |}.

(** The state of the loop over the completed futures of a segment. *)
Record Harvest := {
  h_ctl : Ctl;
  segment_skipped : bool;
  completed_count : nat;
  segment_results : list ClipEntry;
  (** [final_path], [relative_path], [filename], [clip_start] and
      [clip_end] are bound: some future has succeeded *)
  had_success : bool
}.

(** Lines 2664-2751: one completed future. *)
Definition harvest_one (segment_idx : nat) (segment : str) (task : Task)
    (h : Harvest) : list Step * Harvest :=
  let '(looks, c, should_cancel, skipped_now) :=
    if has_search_id w then
      let c1 := look (h_ctl h) in
      if cancelled (registry c1)
      then ([Look (registry c1)], c1, true, segment_skipped h)
      else
        let c2 := look c1 in
        if is_skipped (registry c2) segment
        then ([Look (registry c1); Look (registry c2)], c2, true, true)
        else ([Look (registry c1); Look (registry c2)], c2, false, segment_skipped h)
    else ([], h_ctl h, false, segment_skipped h) in
  let cancels := if should_cancel then [CancelPending] else [] in
  if skipped_now && should_cancel then
    (looks ++ cancels,
     {| h_ctl := c; segment_skipped := skipped_now;
        completed_count := completed_count h;
        segment_results := segment_results h;
        had_success := had_success h |})
  else
    match outcome w segment_idx (clip_idx task) with
    | Raised =>
        (looks ++ cancels,
         {| h_ctl := c; segment_skipped := skipped_now;
            completed_count := S (completed_count h);
            segment_results := segment_results h;
            had_success := had_success h |})
    | Succeeded =>
        (looks ++ cancels ++
           [Yield (Progress segment_idx segment (Some (S (completed_count h))))],
         {| h_ctl := c; segment_skipped := skipped_now;
            completed_count := S (completed_count h);
            segment_results :=
              segment_results h ++
              [{| ce_clip_number := clip_number task; ce_item := item task |}];
            had_success := true |})
    | Failed =>
        (looks ++ cancels ++
           [Yield (Progress segment_idx segment (Some (S (completed_count h))))],
         {| h_ctl := c; segment_skipped := skipped_now;
            completed_count := S (completed_count h);
            segment_results := segment_results h;
            had_success := had_success h |})
    end.

Fixpoint harvest (segment_idx : nat) (segment : str) (done : list Task)
    (h : Harvest) : list Step * Harvest :=
  match done with
  | [] => ([], h)
  | task :: rest =>
      let '(steps, h1) := harvest_one segment_idx segment task h in
      let '(steps', h2) := harvest segment_idx segment rest h1 in
      (steps ++ steps', h2)
  end.

(** The state between two segments. *)
Record Loop := {
  l_ctl : Ctl;
  global_clip_counter : nat;
  l_had_success : bool
}.

(** Lines 2758-2985 for a skipped segment: the first pass of the loop over
    the clips looks at the registry and leaves, and the lines after the
    loop read the names bound by an earlier success. *)
Definition sequential_skipped (segment : str) (segment_matches : list Item)
    (l : Loop) : list Step * (Exit + Loop) :=
  let after_loop (looks : list Step) (c : Ctl) :=
    if l_had_success l
    then (looks,
          inr {| l_ctl := c;
                 global_clip_counter := S (global_clip_counter l);
                 l_had_success := true |})
    else (looks, inl RaisedUnboundLocal) in
  match segment_matches with
  | [] => after_loop [] (l_ctl l)
  | _ :: _ =>
      let c1 := look (l_ctl l) in
      if cancelled (registry c1)
      then ([Look (registry c1)], inl RaisedGeneratorExit)
      else
        let c2 := look c1 in
        if is_skipped (registry c2) segment
        then after_loop [Look (registry c1); Look (registry c2)] c2
        else ([Look (registry c1); Look (registry c2)], inl Unmodelled)
  end.

(** Lines 2603-3004: one segment. *)
Definition process_segment (segment_groups : Groups) (total_segments : nat)
    (max_results_per_segment : Z) (segment_idx : nat) (segment : str)
    (l : Loop) : list Step * (Exit + Loop) :=
  let segment_matches :=
    slice_to (group_get segment_groups segment) max_results_per_segment in
  let announce := [Yield (Progress segment_idx segment None)] in
  (* the looks before the batch *)
  let '(looks, c, stop, skipped_before) :=
    if has_search_id w then
      let c1 := look (l_ctl l) in
      if cancelled (registry c1)
      then ([Look (registry c1)], c1, true, false)
      else
        let c2 := look c1 in
        ([Look (registry c1); Look (registry c2)], c2, false,
         is_skipped (registry c2) segment)
    else ([], l_ctl l, false, false) in
  if stop then (announce ++ looks, inl RaisedGeneratorExit)
  else
    (* the batch *)
    let '(batch, h) :=
      if negb skipped_before then
        let clip_tasks :=
          List.map
            (fun '(i, it) =>
               {| clip_idx := i; item := it;
                  clip_number := (global_clip_counter l + i)%nat |})
            (combine (seq 0 (List.length segment_matches)) segment_matches) in
        let '(steps, h) :=
          harvest segment_idx segment
            (as_completed (fun t => finish_time w segment_idx (clip_idx t)) clip_tasks)
            {| h_ctl := c; segment_skipped := false; completed_count := 0;
               segment_results := []; had_success := l_had_success l |} in
        (Submit clip_tasks :: steps, h)
      else
        ([], {| h_ctl := c; segment_skipped := true; completed_count := 0;
                segment_results := []; had_success := l_had_success l |}) in
    let l1 :=
      {| l_ctl := h_ctl h;
         global_clip_counter :=
           if negb skipped_before
           then (global_clip_counter l + List.length segment_matches)%nat
           else global_clip_counter l;
         l_had_success := had_success h |} in
    if segment_skipped h then
      match sequential_skipped segment segment_matches l1 with
      | (steps, inl e) => (announce ++ looks ++ batch ++ steps, inl e)
      | (steps, inr l2) =>
          (announce ++ looks ++ batch ++ steps ++
             [Yield (SegmentSkipped segment (word_count segment))],
           inr l2)
      end
    else
      (announce ++ looks ++ batch ++
         [Yield (SegmentResult segment (segment_results h)
                   (word_count segment))],
       inr l1).

(** The loop over [enumerate(sorted_segments, 1)]. *)
Fixpoint process_segments (segment_groups : Groups) (total_segments : nat)
    (max_results_per_segment : Z) (segments : list (nat * str)) (l : Loop)
    : list Step * (Exit + Loop) :=
  match segments with
  | [] => ([], inr l)
  | (segment_idx, segment) :: rest =>
      match process_segment segment_groups total_segments
              max_results_per_segment segment_idx segment l with
      | (steps, inl e) => (steps, inl e)
      | (steps, inr l1) =>
          let '(steps', r) :=
            process_segments segment_groups total_segments
              max_results_per_segment rest l1 in
          (steps ++ steps', r)
      end
  end.

Definition fresh : Loop :=
  {| l_ctl := {| clock := 0;
                 registry := {| cancelled := false; skipped := [] |} |};
     global_clip_counter := 0;
     l_had_success := false |}.

(** Lines 3006-3015: what is done once all segments are processed. *)
Definition finalize (cache : CacheState) (l : Loop) : list Step :=
  if (global_clip_counter l =? 0)%nat && negb (skip_export cache) then [RemoveDir]
  else if negb (skip_export cache) then [WriteMetadata]
  else [].

(** The generator: the cache check, the search and the filters, then the
    segments one after the other. *)
Definition find_and_export_longest_matches_incremental
    (load_transcript_sentences : str -> option (list Sentence)) (fs : Files)
    (input_sentence : str) (filenames : list str)
    (min_silence max_silence : Q) (silence_word_threshold : Z)
    (include_partial_matches all_partial_matches : bool)
    (max_results_per_segment : Z) : Run :=
  let cache := check_cache fs filenames max_results_per_segment in
  match select_segments load_transcript_sentences input_sentence filenames
          min_silence max_silence silence_word_threshold
          include_partial_matches all_partial_matches with
  | None => {| cache := cache; trace := []; exit := Returned |}
  | Some (segment_groups, sorted_segments) =>
      let total := List.length sorted_segments in
      match process_segments segment_groups total max_results_per_segment
              (combine (seq 1 total) sorted_segments) fresh with
      | (steps, inl e) => {| cache := cache; trace := steps; exit := e |}
      | (steps, inr l) =>
          {| cache := cache; trace := steps ++ finalize cache l; exit := Returned |}
      end
  end.

End WithWorld.

(** The segment events of a trace. *)
Definition segment_events (t : list Step) : list Event :=
  omap (fun s =>
          match s with
          | Yield (SegmentResult p f n) => Some (SegmentResult p f n)
          | Yield (SegmentSkipped p n) => Some (SegmentSkipped p n)
          | _ => None
          end) t.

(** The tasks handed to the pool. *)
Definition submitted (t : list Step) : list Task :=
  flat_map (fun s => match s with Submit tasks => tasks | _ => [] end) t.

End Generator.

(* ================================================================== *)
(** * Properties of the generator                                     *)
(* ================================================================== *)

Module GeneratorProps.
Import MatchFinder Aggregator ClipCache Generator MatchFinderProps AggregatorProps.

Lemma omap_app {A B} (f : A -> option B) (l l' : list A) :
  omap f (l ++ l') = omap f l ++ omap f l'.
Proof.
  induction l as [|a l IH]; simpl; [reflexivity|].
  destruct (f a); simpl; now rewrite IH.
Qed.

Lemma segment_events_app (a b : list Step) :
  segment_events (a ++ b) = segment_events a ++ segment_events b.
Proof. apply omap_app. Qed.

Lemma submitted_app (a b : list Step) :
  submitted (a ++ b) = submitted a ++ submitted b.
Proof. apply flat_map_app. Qed.

Lemma insert_by_in (key : Task -> nat) (x y : Task) (l : list Task) :
  In y (insert_by key x l) <-> y = x \/ In y l.
Proof.
  induction l as [|a l IH]; simpl.
  - split; [intros [H|[]]; auto|intros [H|[]]; auto].
  - destruct (key x <=? key a)%nat; simpl.
    + split; [intros [H|H]; auto|intros [H|H]; auto].
    + rewrite IH. tauto.
Qed.

Lemma insert_by_length (key : Task -> nat) (x : Task) (l : list Task) :
  List.length (insert_by key x l) = S (List.length l).
Proof.
  induction l as [|a l IH]; simpl; [reflexivity|].
  destruct (key x <=? key a)%nat; simpl; [reflexivity|now rewrite IH].
Qed.

Lemma as_completed_in (key : Task -> nat) (l : list Task) (t : Task) :
  In t (as_completed key l) <-> In t l.
Proof.
  induction l as [|a l IH]; simpl; [tauto|].
  rewrite insert_by_in, IH. split; intros [H|H]; auto.
Qed.

Lemma as_completed_length (key : Task -> nat) (l : list Task) :
  List.length (as_completed key l) = List.length l.
Proof.
  induction l as [|a l IH]; simpl; [reflexivity|].
  now rewrite insert_by_length, IH.
Qed.

Definition entry_of (t : Task) : ClipEntry :=
  {| ce_clip_number := clip_number t; ce_item := item t |}.

Section WithWorld.
Context {U : UnicodeDB}.
Variable w : World.

Lemma harvest_one_spec (segment_idx : nat) (segment : str) (task : Task)
    (h : Harvest) :
  segment_events (fst (harvest_one w segment_idx segment task h)) = [] /\
  submitted (fst (harvest_one w segment_idx segment task h)) = [] /\
  (segment_results (snd (harvest_one w segment_idx segment task h)) =
     segment_results h \/
   segment_results (snd (harvest_one w segment_idx segment task h)) =
     segment_results h ++ [entry_of task]).
Proof.
  unfold harvest_one, entry_of.
  destruct (has_search_id w);
    [destruct (cancelled (registry (look w (h_ctl h))));
       [|destruct (is_skipped (registry (look w (look w (h_ctl h)))) segment)]|];
    destruct (segment_skipped h); simpl;
    destruct (outcome w segment_idx (clip_idx task)); simpl; auto.
Qed.

Lemma harvest_spec (segment_idx : nat) (segment : str) (done : list Task) :
  forall h,
  segment_events (fst (harvest w segment_idx segment done h)) = [] /\
  submitted (fst (harvest w segment_idx segment done h)) = [] /\
  exists extra,
    segment_results (snd (harvest w segment_idx segment done h)) =
      segment_results h ++ extra /\
    (List.length extra <= List.length done)%nat /\
    forall e, In e extra -> exists t, In t done /\ e = entry_of t.
Proof.
  induction done as [|task rest IH]; intros h; simpl.
  - repeat split; auto. exists []. rewrite app_nil_r. repeat split; auto.
    intros e [].
  - destruct (harvest_one_spec segment_idx segment task h) as (He & Hs & Hr).
    destruct (harvest_one w segment_idx segment task h) as [steps h1].
    simpl in He, Hs, Hr.
    destruct (IH h1) as (He' & Hs' & extra & Hx & Hlen & Hin).
    destruct (harvest w segment_idx segment rest h1) as [steps' h2].
    simpl in *. rewrite segment_events_app, submitted_app, He, He', Hs, Hs'.
    repeat split; auto.
    destruct Hr as [Hr|Hr]; rewrite Hr in Hx.
    + exists extra. repeat split; auto.
      intros e Hi. destruct (Hin e Hi) as (t & Ht & ->). exists t. auto.
    + exists (entry_of task :: extra). rewrite Hx, <- app_assoc. simpl.
      repeat split; auto; [lia|].
      intros e [<-|Hi]; [exists task; auto|].
      destruct (Hin e Hi) as (t & Ht & ->). exists t. auto.
Qed.

(** The tasks of a batch carry the capped matches of the segment. *)
Definition clip_tasks_of (base : nat) (segment_matches : list Item) : list Task :=
  List.map
    (fun '(i, it) =>
       {| clip_idx := i; item := it; clip_number := (base + i)%nat |})
    (combine (seq 0 (List.length segment_matches)) segment_matches).

Lemma clip_tasks_items (base : nat) (segment_matches : list Item) (t : Task) :
  In t (clip_tasks_of base segment_matches) -> In (item t) segment_matches.
Proof.
  unfold clip_tasks_of. intros H. apply in_map_iff in H.
  destruct H as [[i it] [<- Hin]]. simpl. eapply in_combine_r. exact Hin.
Qed.

Lemma clip_tasks_length (base : nat) (segment_matches : list Item) :
  List.length (clip_tasks_of base segment_matches) = List.length segment_matches.
Proof.
  unfold clip_tasks_of. rewrite length_map, length_combine, length_seq.
  apply Nat.min_id.
Qed.

(** What a segment contributes: at most one segment event, for this
    segment, whose files are capped matches of the segment; and at most
    one batch, all the capped matches of the segment. *)
Definition segment_contribution (segment_groups : Groups) (max : Z)
    (segment : str) (steps : list Step) : Prop :=
  let segment_matches := slice_to (group_get segment_groups segment) max in
  (segment_events steps = [] \/
   segment_events steps = [SegmentSkipped segment (word_count segment)] \/
   exists files,
     segment_events steps = [SegmentResult segment files (word_count segment)] /\
     (List.length files <= List.length segment_matches)%nat /\
     forall f, In f files -> In (ce_item f) segment_matches) /\
  (submitted steps = [] \/
   exists base, submitted steps = clip_tasks_of base segment_matches).

Lemma process_segment_spec (segment_groups : Groups) (total : nat) (max : Z)
    (segment_idx : nat) (segment : str) (l : Loop) :
  segment_contribution segment_groups max segment
    (fst (process_segment w segment_groups total max segment_idx segment l)).
Proof.
  unfold process_segment, segment_contribution.
  set (sm := slice_to (group_get segment_groups segment) max).
  fold (clip_tasks_of (global_clip_counter l) sm).
  set (tasks := clip_tasks_of (global_clip_counter l) sm).
  set (key := fun t : Task => finish_time w segment_idx (clip_idx t)).
  assert (Hbatch : forall c,
    let hb := harvest w segment_idx segment (as_completed key tasks)
                {| h_ctl := c; segment_skipped := false; completed_count := 0;
                   segment_results := []; had_success := l_had_success l |} in
    segment_events (fst hb) = [] /\ submitted (fst hb) = [] /\
    (List.length (segment_results (snd hb)) <= List.length sm)%nat /\
    forall f, In f (segment_results (snd hb)) -> In (ce_item f) sm).
  { intros c hb. subst hb.
    destruct (harvest_spec segment_idx segment (as_completed key tasks)
                {| h_ctl := c; segment_skipped := false; completed_count := 0;
                   segment_results := []; had_success := l_had_success l |})
      as (He & Hs & extra & Hx & Hlen & Hin).
    simpl in Hx. rewrite Hx. repeat split; auto.
    - rewrite as_completed_length in Hlen. unfold tasks in Hlen.
      rewrite clip_tasks_length in Hlen. exact Hlen.
    - intros f Hf. destruct (Hin f Hf) as (t & Ht & ->).
      apply as_completed_in in Ht. simpl. eapply clip_tasks_items. exact Ht. }
  assert (Hseq : forall l1,
    segment_events (fst (sequential_skipped w segment sm l1)) = [] /\
    submitted (fst (sequential_skipped w segment sm l1)) = []).
  { intros l1. unfold sequential_skipped.
    destruct sm; [destruct (l_had_success l1); simpl; auto|].
    destruct (cancelled (registry (look w (l_ctl l1)))); [simpl; auto|].
    destruct (is_skipped _ segment); [|simpl; auto].
    destruct (l_had_success l1); simpl; auto. }
  unfold segment_events, submitted in *.
  destruct (has_search_id w).
  - destruct (cancelled (registry (look w (l_ctl l)))); [simpl; auto|].
    destruct (is_skipped (registry (look w (look w (l_ctl l)))) segment);
      cbv beta iota zeta; simpl negb; cbv iota.
    + simpl segment_skipped. cbv iota.
      match goal with |- context [sequential_skipped w segment sm ?l1] =>
        destruct (Hseq l1) as [He Hs];
        destruct (sequential_skipped w segment sm l1) as [steps [e|l2]]
      end; simpl in He, Hs; simpl;
        rewrite ?omap_app, ?flat_map_app, ?He, ?Hs; simpl; auto.
    + destruct (Hbatch (look w (look w (l_ctl l)))) as (He & Hs & Hlen & Hin).
      destruct (harvest w segment_idx segment (as_completed key tasks) _)
        as [steps h]. simpl in He, Hs, Hlen, Hin.
      destruct (segment_skipped h).
      * match goal with |- context [sequential_skipped w segment sm ?l1] =>
          destruct (Hseq l1) as [He' Hs'];
          destruct (sequential_skipped w segment sm l1) as [steps' [e|l2]]
        end; simpl in He', Hs'; simpl;
          rewrite ?omap_app, ?flat_map_app, ?He, ?Hs, ?He', ?Hs'; simpl;
          rewrite ?app_nil_r; (split; [auto|]); right;
          exists (global_clip_counter l); reflexivity.
      * simpl. rewrite ?omap_app, ?flat_map_app, ?He, ?Hs. simpl.
        rewrite ?app_nil_r. split.
        -- right. right. exists (segment_results h). auto.
        -- right. exists (global_clip_counter l). reflexivity.
  - cbv beta iota zeta. simpl negb. cbv iota.
    destruct (Hbatch (l_ctl l)) as (He & Hs & Hlen & Hin).
    destruct (harvest w segment_idx segment (as_completed key tasks) _)
      as [steps h]. simpl in He, Hs, Hlen, Hin.
    destruct (segment_skipped h).
    + match goal with |- context [sequential_skipped w segment sm ?l1] =>
        destruct (Hseq l1) as [He' Hs'];
        destruct (sequential_skipped w segment sm l1) as [steps' [e|l2]]
      end; simpl in He', Hs'; simpl;
        rewrite ?omap_app, ?flat_map_app, ?He, ?Hs, ?He', ?Hs'; simpl;
        rewrite ?app_nil_r; (split; [auto|]); right;
        exists (global_clip_counter l); reflexivity.
    + simpl. rewrite ?omap_app, ?flat_map_app, ?He, ?Hs. simpl.
      rewrite ?app_nil_r. split.
      * right. right. exists (segment_results h). auto.
      * right. exists (global_clip_counter l). reflexivity.
Qed.

(** ** The registry only grows *)

Lemma deliver_keeps_skipped (signals : list Signal) (segment : str) :
  forall r, is_skipped r segment = true ->
            is_skipped (fold_left deliver signals r) segment = true.
Proof.
  induction signals as [|sig rest IH]; intros r H; simpl; [exact H|].
  apply IH. destruct sig as [phrase|]; unfold is_skipped in *; simpl; [|exact H].
  rewrite H. apply orb_true_r.
Qed.

Lemma look_keeps_skipped (c : Ctl) (segment : str) :
  is_skipped (registry c) segment = true ->
  is_skipped (registry (look w c)) segment = true.
Proof. intros H. unfold look. simpl. now apply deliver_keeps_skipped. Qed.

(** A segment marked skipped in the loop is skipped in the registry. *)
Definition skip_seen (segment : str) (h : Harvest) : Prop :=
  segment_skipped h = true -> is_skipped (registry (h_ctl h)) segment = true.

Lemma harvest_one_skip_seen (segment_idx : nat) (segment : str) (task : Task)
    (h : Harvest) :
  skip_seen segment h ->
  skip_seen segment (snd (harvest_one w segment_idx segment task h)).
Proof.
  unfold skip_seen, harvest_one. intros Hh.
  pose proof (look_keeps_skipped (h_ctl h) segment) as H1.
  pose proof (look_keeps_skipped (look w (h_ctl h)) segment) as H2.
  remember (look w (h_ctl h)) as c1 eqn:E1.
  remember (look w c1) as c2 eqn:E2.
  destruct (has_search_id w).
  - destruct (cancelled (registry c1)).
    + destruct (segment_skipped h); simpl;
        destruct (outcome w segment_idx (clip_idx task)); simpl;
        intros H; try discriminate; auto.
    + destruct (is_skipped (registry c2) segment) eqn:Ek.
      * simpl. intros _. exact Ek.
      * destruct (segment_skipped h); simpl;
          destruct (outcome w segment_idx (clip_idx task)); simpl;
          intros H; try discriminate;
          discriminate (H2 (H1 (Hh eq_refl))).
  - destruct (segment_skipped h); simpl;
      destruct (outcome w segment_idx (clip_idx task)); simpl;
      intros H; try discriminate; auto.
Qed.

Lemma harvest_skip_seen (segment_idx : nat) (segment : str) (done : list Task) :
  forall h, skip_seen segment h ->
            skip_seen segment (snd (harvest w segment_idx segment done h)).
Proof.
  induction done as [|task rest IH]; intros h Hh; simpl; [exact Hh|].
  pose proof (harvest_one_skip_seen segment_idx segment task h Hh) as H1.
  destruct (harvest_one w segment_idx segment task h) as [steps h1].
  specialize (IH h1 H1).
  destruct (harvest w segment_idx segment rest h1) as [steps' h2]. exact IH.
Qed.

Lemma sequential_skipped_modelled (segment : str) (segment_matches : list Item)
    (l : Loop) :
  is_skipped (registry (l_ctl l)) segment = true ->
  snd (sequential_skipped w segment segment_matches l) <> inl Unmodelled.
Proof.
  intros Hk. unfold sequential_skipped.
  destruct segment_matches.
  - destruct (l_had_success l); simpl; discriminate.
  - destruct (cancelled (registry (look w (l_ctl l)))); [simpl; discriminate|].
    rewrite (look_keeps_skipped _ _ (look_keeps_skipped _ _ Hk)).
    destruct (l_had_success l); simpl; discriminate.
Qed.

(** The sequential rendering, which the model leaves out, is never
    reached. *)
Lemma process_segment_modelled (segment_groups : Groups) (total : nat) (max : Z)
    (segment_idx : nat) (segment : str) (l : Loop) :
  snd (process_segment w segment_groups total max segment_idx segment l)
  <> inl Unmodelled.
Proof.
  unfold process_segment.
  set (sm := slice_to (group_get segment_groups segment) max).
  destruct (has_search_id w).
  - destruct (cancelled (registry (look w (l_ctl l)))); [simpl; discriminate|].
    destruct (is_skipped (registry (look w (look w (l_ctl l)))) segment) eqn:Ek;
      cbv beta iota zeta; simpl negb; cbv iota.
    + simpl segment_skipped. cbv iota.
      match goal with |- context [sequential_skipped w segment sm ?l1] =>
        pose proof (sequential_skipped_modelled segment sm l1 Ek) as Hm;
        destruct (sequential_skipped w segment sm l1) as [steps [e|l2]]
      end; simpl in *; [exact Hm|discriminate].
    + match goal with |- context [harvest w segment_idx segment ?d ?h0] =>
        assert (Hs : skip_seen segment (snd (harvest w segment_idx segment d h0)))
          by (apply harvest_skip_seen; unfold skip_seen; simpl; discriminate);
        destruct (harvest w segment_idx segment d h0) as [steps h]
      end. simpl in Hs.
      destruct (segment_skipped h) eqn:Es; [|simpl; discriminate].
      match goal with |- context [sequential_skipped w segment sm ?l1] =>
        pose proof (sequential_skipped_modelled segment sm l1 (Hs Es)) as Hm;
        destruct (sequential_skipped w segment sm l1) as [steps' [e|l2]]
      end; simpl in *; [exact Hm|discriminate].
  - cbv beta iota zeta. simpl negb. cbv iota.
    match goal with |- context [harvest w segment_idx segment ?d ?h0] =>
      assert (Hs : skip_seen segment (snd (harvest w segment_idx segment d h0)))
        by (apply harvest_skip_seen; unfold skip_seen; simpl; discriminate);
      destruct (harvest w segment_idx segment d h0) as [steps h]
    end. simpl in Hs.
    destruct (segment_skipped h) eqn:Es; [|simpl; discriminate].
    match goal with |- context [sequential_skipped w segment sm ?l1] =>
      pose proof (sequential_skipped_modelled segment sm l1 (Hs Es)) as Hm;
      destruct (sequential_skipped w segment sm l1) as [steps' [e|l2]]
    end; simpl in *; [exact Hm|discriminate].
Qed.

Lemma process_segments_modelled (segment_groups : Groups) (total : nat) (max : Z)
    (segments : list (nat * str)) :
  forall l,
  snd (process_segments w segment_groups total max segments l) <> inl Unmodelled.
Proof.
  induction segments as [|[idx seg] rest IH]; intros l; simpl; [discriminate|].
  pose proof (process_segment_modelled segment_groups total max idx seg l) as H.
  destruct (process_segment w segment_groups total max idx seg l)
    as [steps [e|l1]]; simpl in *; [exact H|].
  specialize (IH l1).
  destruct (process_segments w segment_groups total max rest l1) as [steps' r].
  exact IH.
Qed.

(** A segment event of [segment] whose files are capped matches of it. *)
Definition event_of (segment_groups : Groups) (max : Z) (segment : str)
    (ev : Event) : Prop :=
  let segment_matches := slice_to (group_get segment_groups segment) max in
  ev = SegmentSkipped segment (word_count segment) \/
  exists files,
    ev = SegmentResult segment files (word_count segment) /\
    (List.length files <= List.length segment_matches)%nat /\
    forall f, In f files -> In (ce_item f) segment_matches.

Lemma process_segments_spec (segment_groups : Groups) (total : nat) (max : Z)
    (segments : list (nat * str)) :
  forall l,
  (forall ev,
     In ev (segment_events
              (fst (process_segments w segment_groups total max segments l))) ->
     exists segment, In segment (List.map snd segments) /\
                     event_of segment_groups max segment ev) /\
  (forall t,
     In t (submitted
             (fst (process_segments w segment_groups total max segments l))) ->
     exists segment, In segment (List.map snd segments) /\
       In (item t) (slice_to (group_get segment_groups segment) max)).
Proof.
  induction segments as [|[idx seg] rest IH]; intros l; simpl.
  - split; intros ? [].
  - pose proof (process_segment_spec segment_groups total max idx seg l) as Hc.
    destruct (process_segment w segment_groups total max idx seg l)
      as [steps [e|l1]]; simpl in Hc; destruct Hc as [Hev Hsub].
    + simpl. split.
      * intros ev Hin. exists seg. split; [now left|].
        destruct Hev as [Hev|[Hev|(files & Hev & Hlen & Hf)]];
          rewrite Hev in Hin; simpl in Hin; try contradiction;
          destruct Hin as [<-|[]]; [now left|right; exists files; auto].
      * intros t Hin. exists seg. split; [now left|].
        destruct Hsub as [Hsub|[base Hsub]]; rewrite Hsub in Hin;
          [contradiction|]. eapply clip_tasks_items. exact Hin.
    + destruct (IH l1) as [IHev IHsub].
      destruct (process_segments w segment_groups total max rest l1)
        as [steps' r]. simpl in *. split.
      * intros ev Hin. rewrite segment_events_app in Hin.
        apply in_app_or in Hin. destruct Hin as [Hin|Hin].
        -- exists seg. split; [now left|].
           destruct Hev as [Hev|[Hev|(files & Hev & Hlen & Hf)]];
             rewrite Hev in Hin; simpl in Hin; try contradiction;
             destruct Hin as [<-|[]]; [now left|right; exists files; auto].
        -- destruct (IHev ev Hin) as (s' & Hs' & He'). exists s'. auto.
      * intros t Hin. rewrite submitted_app in Hin.
        apply in_app_or in Hin. destruct Hin as [Hin|Hin].
        -- exists seg. split; [now left|].
           destruct Hsub as [Hsub|[base Hsub]]; rewrite Hsub in Hin;
             [contradiction|]. eapply clip_tasks_items. exact Hin.
        -- destruct (IHsub t Hin) as (s' & Hs' & He'). exists s'. auto.
Qed.

End WithWorld.

Lemma slice_to_length {A} (l : list A) (max : Z) :
  (0 <= max)%Z -> (Z.of_nat (List.length (slice_to l max)) <= max)%Z.
Proof.
  intros H. unfold slice_to. destruct (Z.ltb_spec max 0); [lia|].
  pose proof (firstn_le_length (Z.to_nat max) l). lia.
Qed.

Lemma firstn_incl {A} (n : nat) (l : list A) (x : A) :
  In x (firstn n l) -> In x l.
Proof.
  revert l. induction n as [|n IH]; intros [|a l]; simpl; try tauto.
  intros [H|H]; [now left|right; now apply IH].
Qed.

Lemma slice_to_incl {A} (l : list A) (max : Z) (x : A) :
  In x (slice_to l max) -> In x l.
Proof.
  unfold slice_to. destruct (max <? 0)%Z; apply firstn_incl.
Qed.

Lemma snd_combine_incl {A B} (a : list A) (b : list B) (y : B) :
  In y (List.map snd (combine a b)) -> In y b.
Proof.
  intros H. apply in_map_iff in H. destruct H as [[x y'] [<- H]].
  eapply in_combine_r. exact H.
Qed.

Lemma finalize_quiet (c : CacheState) (l : Loop) :
  segment_events (finalize c l) = [] /\ submitted (finalize c l) = [].
Proof.
  unfold finalize.
  destruct ((global_clip_counter l =? 0)%nat && negb (skip_export c));
    [|destruct (negb (skip_export c))]; auto.
Qed.

(** The segment events and the batches of a run come from the selected
    segments and their capped groups. *)
Lemma run_spec {U : UnicodeDB} (w : World)
    (load : str -> option (list Sentence)) (fs : Files) (input : str)
    (filenames : list str) (lo hi : Q) (thr : Z) (partial all : bool) (max : Z) :
  let r := find_and_export_longest_matches_incremental w load fs input
             filenames lo hi thr partial all max in
  match select_segments load input filenames lo hi thr partial all with
  | None => trace r = [] /\ exit r = Returned
  | Some (groups, segments) =>
      (forall ev, In ev (segment_events (trace r)) ->
         exists segment, In segment segments /\ event_of groups max segment ev) /\
      (forall t, In t (submitted (trace r)) ->
         exists segment, In segment segments /\
           In (item t) (slice_to (group_get groups segment) max))
  end.
Proof.
  unfold find_and_export_longest_matches_incremental.
  destruct (select_segments load input filenames lo hi thr partial all)
    as [[groups segments]|]; [|simpl; auto].
  destruct (process_segments_spec w groups (List.length segments) max
              (combine (seq 1 (List.length segments)) segments) fresh)
    as [Hev Hsub].
  destruct (process_segments w groups (List.length segments) max
              (combine (seq 1 (List.length segments)) segments) fresh)
    as [steps [e|l]]; simpl in *.
  - split.
    + intros ev Hin. destruct (Hev ev Hin) as (s & Hs & He).
      exists s. split; [eapply snd_combine_incl; exact Hs|exact He].
    + intros t Hin. destruct (Hsub t Hin) as (s & Hs & He).
      exists s. split; [eapply snd_combine_incl; exact Hs|exact He].
  - destruct (finalize_quiet (check_cache fs filenames max) l) as [Fe Fs].
    rewrite segment_events_app, submitted_app, Fe, Fs, !app_nil_r. split.
    + intros ev Hin. destruct (Hev ev Hin) as (s & Hs & He).
      exists s. split; [eapply snd_combine_incl; exact Hs|exact He].
    + intros t Hin. destruct (Hsub t Hin) as (s & Hs & He).
      exists s. split; [eapply snd_combine_incl; exact Hs|exact He].
Qed.

(** Every run of the generator ends within the model. *)
Lemma run_modelled {U : UnicodeDB} (w : World)
    (load : str -> option (list Sentence)) (fs : Files) (input : str)
    (filenames : list str) (lo hi : Q) (thr : Z) (partial all : bool) (max : Z) :
  exit (find_and_export_longest_matches_incremental w load fs input
          filenames lo hi thr partial all max) <> Unmodelled.
Proof.
  unfold find_and_export_longest_matches_incremental.
  destruct (select_segments load input filenames lo hi thr partial all)
    as [[groups segments]|]; [|simpl; discriminate].
  pose proof (process_segments_modelled w groups (List.length segments) max
                (combine (seq 1 (List.length segments)) segments) fresh) as H.
  destruct (process_segments w groups (List.length segments) max
              (combine (seq 1 (List.length segments)) segments) fresh)
    as [steps [e|l]]; simpl in *; [|discriminate].
  intros ->. now apply H.
Qed.

(** For a non-negative maximum no segment event carries more files than
    the maximum. *)
Lemma cap_holds_nonneg {U : UnicodeDB} (w : World)
    (load : str -> option (list Sentence)) (fs : Files) (input : str)
    (filenames : list str) (lo hi : Q) (thr : Z) (partial all : bool) (max : Z) :
  (0 <= max)%Z ->
  forall phrase files n,
    In (SegmentResult phrase files n)
       (segment_events
          (trace (find_and_export_longest_matches_incremental w load fs input
                    filenames lo hi thr partial all max))) ->
    (Z.of_nat (List.length files) <= max)%Z.
Proof.
  intros Hmax phrase files n Hin.
  pose proof (run_spec w load fs input filenames lo hi thr partial all max) as H.
  cbv zeta in H.
  destruct (select_segments load input filenames lo hi thr partial all)
    as [[groups segments]|].
  - destruct H as [Hev _]. destruct (Hev _ Hin) as (s & _ & He).
    destruct He as [He|(files' & He & Hlen & _)]; [discriminate|].
    injection He as _ <- _.
    pose proof (slice_to_length (group_get groups s) max Hmax). lia.
  - destruct H as [Ht _]. rewrite Ht in Hin. contradiction.
Qed.

(** ** Where the groups come from *)

(** The item was made from a match of an entry of [all_file_matches]. *)
Definition from_matches (all_file_matches : list FileMatches) (it : Item) : Prop :=
  exists entry,
    In entry all_file_matches /\ it_file it = fm_file entry /\
    In (it_match it) (fm_matches entry).

(** Every group is non-empty and holds items of its own segment. *)
Definition groups_ok (P : Item -> Prop) (groups : Groups) : Prop :=
  forall k v, In (k, v) groups ->
    (exists it, In it v) /\
    forall it, In it v -> segment (it_match it) = k /\ P it.

Lemma group_add_ok (P : Item -> Prop) (groups : Groups) (seg : str) (it : Item) :
  groups_ok P groups -> segment (it_match it) = seg -> P it ->
  groups_ok P (group_add groups seg it).
Proof.
  intros Hok Hseg HP. induction groups as [|[k v] r IH]; simpl.
  - intros k' v' [H|[]]. injection H as <- <-. split; [exists it; now left|].
    intros it' [<-|[]]. auto.
  - assert (Hr : groups_ok P r).
    { intros k' v' Hin. apply Hok. now right. }
    destruct (str_eqb k seg) eqn:E.
    + apply str_eqb_eq in E. subst k.
      intros k' v' [H|H].
      * injection H as <- <-. split; [exists it; apply in_or_app; right; now left|].
        intros it' Hin. apply in_app_or in Hin. destruct Hin as [Hin|[<-|[]]]; [|auto].
        apply (Hok seg v); [now left|exact Hin].
      * apply Hok. now right.
    + intros k' v' [H|H].
      * apply Hok. left. exact H.
      * apply (IH Hr). exact H.
Qed.

Lemma group_all_ok (all_file_matches : list FileMatches) :
  groups_ok (from_matches all_file_matches) (group_all all_file_matches).
Proof.
  unfold group_all.
  set (P := from_matches all_file_matches).
  assert (Hinner : forall entry, In entry all_file_matches ->
            forall ms groups,
              (forall m, In m ms -> In m (fm_matches entry)) ->
              groups_ok P groups ->
              groups_ok P
                (fold_left
                   (fun groups m =>
                      group_add groups (segment m)
                        {| it_file := fm_file entry; it_match := m |})
                   ms groups)).
  { intros entry He. induction ms as [|m ms IH]; intros groups Hms Hok; simpl.
    - exact Hok.
    - apply IH; [intros m' Hm'; apply Hms; now right|].
      apply group_add_ok; [exact Hok|reflexivity|].
      exists entry. simpl. repeat split; auto. apply Hms. now left. }
  assert (Houter : forall entries groups,
            (forall e, In e entries -> In e all_file_matches) ->
            groups_ok P groups ->
            groups_ok P
              (fold_left
                 (fun groups entry =>
                    fold_left
                      (fun groups m =>
                         group_add groups (segment m)
                           {| it_file := fm_file entry; it_match := m |})
                      (fm_matches entry) groups)
                 entries groups)).
  { induction entries as [|e es IH]; intros groups Hes Hok; simpl.
    - exact Hok.
    - apply IH; [intros e' He'; apply Hes; now right|].
      apply Hinner; auto. apply Hes. now left. }
  apply Houter; [auto|]. intros k v [].
Qed.

Lemma group_get_in (groups : Groups) (seg : str) (it : Item) :
  In it (group_get groups seg) -> exists v, In (seg, v) groups /\ In it v.
Proof.
  induction groups as [|[k v] r IH]; simpl; [contradiction|].
  destruct (str_eqb k seg) eqn:E.
  - apply str_eqb_eq in E. subst k. intros H. exists v. auto.
  - intros H. destruct (IH H) as (v' & Hv & Hi). exists v'. auto.
Qed.

Lemma insert_desc_in {A} (key : A -> nat) (x y : A) (l : list A) :
  In y (insert_desc key x l) <-> y = x \/ In y l.
Proof.
  induction l as [|a l IH]; simpl.
  - split; [intros [H|[]]; auto|intros [H|[]]; auto].
  - destruct (key a <=? key x)%nat; simpl.
    + split; [intros [H|H]; auto|intros [H|H]; auto].
    + rewrite IH. tauto.
Qed.

Lemma sorted_desc_in {A} (key : A -> nat) (l : list A) (x : A) :
  In x (sorted_desc key l) <-> In x l.
Proof.
  induction l as [|a l IH]; simpl; [tauto|].
  rewrite insert_desc_in, IH. split; intros [H|H]; auto.
Qed.

Section FullOnly.
Context {U : UnicodeDB}.
Variable load : str -> option (list Sentence).
Variables (input : str) (lo hi : Q) (thr : Z) (all : bool).

(** The lower bound handed to the matcher in full-match-only mode. *)
Definition full_min_silence : Q :=
  if (Z.of_nat (word_count input) <? Z.max thr 1)%Z then lo else 0.

Lemma search_file_full (filename : str) (entry : FileMatches) :
  search_file load input lo hi (Z.max thr 1) false all filename = Some entry ->
  exists sentences,
    load filename = Some sentences /\ fm_file entry = filename /\
    fm_matches entry =
      find_matches_for_segment input sentences full_min_silence hi (Z.max thr 1).
Proof.
  unfold search_file, full_min_silence. simpl negb. cbv iota.
  destruct (load filename) as [sentences|]; [|discriminate].
  destruct (is_empty sentences); [discriminate|].
  destruct (negb (has_valid_content sentences)); [discriminate|].
  destruct (is_empty _); [discriminate|].
  intros H. injection H as <-. exists sentences. auto.
Qed.

Lemma select_full_only (filenames : list str) (groups : Groups)
    (segments : list str) :
  select_segments load input filenames lo hi thr false all = Some (groups, segments) ->
  (forall seg, In seg segments -> seg = input) /\
  (forall seg it, In it (group_get groups seg) ->
     exists sentences,
       In (it_file it) filenames /\ load (it_file it) = Some sentences /\
       In (it_match it)
          (find_matches_for_segment input sentences full_min_silence hi (Z.max thr 1))).
Proof.
  unfold select_segments.
  set (afm := omap (search_file load input lo hi (Z.max thr 1) false all) filenames).
  destruct (is_empty afm); [discriminate|].
  pose proof (group_all_ok afm) as Hok.
  assert (Hitem : forall it, from_matches afm it ->
            exists sentences,
              In (it_file it) filenames /\ load (it_file it) = Some sentences /\
              In (it_match it)
                 (find_matches_for_segment input sentences full_min_silence hi
                    (Z.max thr 1))).
  { intros it (entry & He & Hf & Hm). unfold afm in He.
    apply in_omap in He. destruct He as (filename & Hin & Hs).
    apply search_file_full in Hs. destruct Hs as (sentences & Hl & Hn & Hms).
    exists sentences. rewrite Hf, Hn. repeat split; auto.
    rewrite <- Hms. exact Hm. }
  destruct (filter_segments input false all _) as [kept|] eqn:Ef; [|discriminate].
  intros H. injection H as <- <-. split.
  - intros seg Hin. unfold filter_segments in Ef. simpl negb in Ef. cbv iota in Ef.
    destruct (is_empty _) in Ef; [discriminate|]. injection Ef as <-.
    apply filter_In in Hin. destruct Hin as [Hin _].
    apply sorted_desc_in in Hin. apply in_map_iff in Hin.
    destruct Hin as [[k v] [<- Hkv]]. simpl.
    destruct (Hok k v Hkv) as [[it Hit] Hall].
    destruct (Hall it Hit) as [Hseg HP].
    destruct (Hitem it HP) as (sentences & _ & _ & Hm).
    apply find_matches_segment in Hm. congruence.
  - intros seg it Hin. apply group_get_in in Hin.
    destruct Hin as (v & Hv & Hi). destruct (Hok seg v Hv) as [_ Hall].
    destruct (Hall it Hi) as [_ HP]. exact (Hitem it HP).
Qed.

Lemma select_none_without_matches (filenames : list str) :
  (forall filename sentences,
     In filename filenames -> load filename = Some sentences ->
     find_matches_for_segment input sentences full_min_silence hi (Z.max thr 1) = []) ->
  select_segments load input filenames lo hi thr false all = None.
Proof.
  intros Hnone. unfold select_segments.
  assert (Hafm : omap (search_file load input lo hi (Z.max thr 1) false all)
                   filenames = []).
  { induction filenames as [|f fs IH]; simpl; [reflexivity|].
    assert (Hf : search_file load input lo hi (Z.max thr 1) false all f = None).
    { unfold search_file. simpl negb. cbv iota.
      destruct (load f) as [sentences|] eqn:El; [|reflexivity].
      destruct (is_empty sentences); [reflexivity|].
      destruct (negb (has_valid_content sentences)); [reflexivity|].
      fold full_min_silence. rewrite (Hnone f sentences); [reflexivity| |exact El].
      now left. }
    rewrite Hf. apply IH. intros f' s' Hin. apply Hnone. now right. }
  rewrite Hafm. reflexivity.
Qed.

End FullOnly.

(** C2.  In full-match-only mode every segment event of a search carries
    the phrase itself, and every clip in it comes from a match of the
    phrase in a searched file: a window of that file's transcript whose
    normalised tokens are the normalised tokens of the phrase (accepted by
    the gap rule).  If no searched file has such a match, the generator
    yields nothing and returns normally. *)
Theorem full_match_only_spec (U : UnicodeDB) (w : World)
    (load : str -> option (list Sentence)) (fs : Files) (input : str)
    (filenames : list str) (lo hi : Q) (thr : Z) (all : bool) (max : Z) :
  let r := find_and_export_longest_matches_incremental w load fs input
             filenames lo hi thr false all max in
  (forall ev, In ev (segment_events (trace r)) ->
     exists files n,
       (ev = SegmentResult input files n \/
        ev = SegmentSkipped input n /\ files = []) /\
       forall f, In f files ->
         exists sentences i,
           In (it_file (ce_item f)) filenames /\
           load (it_file (ce_item f)) = Some sentences /\
           accepted_window input (flatten_words sentences)
             (full_min_silence input lo thr) hi (Z.max thr 1) i
             (it_match (ce_item f))) /\
  ((forall filename sentences,
      In filename filenames -> load filename = Some sentences ->
      find_matches_for_segment input sentences (full_min_silence input lo thr)
        hi (Z.max thr 1) = []) ->
   trace r = [] /\ exit r = Returned).
Proof.
  intros r.
  pose proof (run_spec w load fs input filenames lo hi thr false all max) as H.
  cbv zeta in H. fold r in H. split.
  - destruct (select_segments load input filenames lo hi thr false all)
      as [[groups segments]|] eqn:Es.
    + destruct (select_full_only load input lo hi thr all filenames groups
                  segments Es) as [Hseg Hit].
      destruct H as [Hev _]. intros ev Hin.
      destruct (Hev ev Hin) as (s & Hs & He). apply Hseg in Hs. subst s.
      destruct He as [->|(files & -> & _ & Hf)].
      * exists [], (word_count input). split; [right; auto|]. intros f [].
      * exists files, (word_count input). split; [now left|].
        intros f Hfin. specialize (Hf f Hfin). apply slice_to_incl in Hf.
        destruct (Hit input (ce_item f) Hf) as (sentences & Hfile & Hl & Hm).
        apply find_matches_accepted in Hm. destruct Hm as [i Hi].
        exists sentences, i. auto.
    + destruct H as [Ht _]. rewrite Ht. intros ev [].
  - intros Hnone.
    rewrite (select_none_without_matches load input lo hi thr all filenames Hnone) in H.
    exact H.
Qed.

End GeneratorProps.

(* ================================================================== *)
(** * Runs of the generator                                           *)
(* ================================================================== *)

Module GeneratorExamples.
Import MatchFinder Aggregator ClipCache Generator GeneratorProps.

(** Every future succeeds, in the order of submission. *)
Definition world (signals : nat -> list Signal) : World :=
  {| has_search_id := true;
     arrivals := signals;
     finish_time := fun _ i => i;
     outcome := fun _ _ => Succeeded |}.

Definition no_signal : nat -> list Signal := fun _ => [].

(** [cancel] arrives before the [k]-th look at the registry. *)
Definition cancel_before (k : nat) : nat -> list Signal :=
  fun n => if (n =? k)%nat then [Cancel] else [].

(** One video, with the transcript "hello world today". *)
Definition one_video : str -> option (list Sentence) :=
  fun _ => Some MatchExamples.hello_world_today.

(** No clip directory yet. *)
Definition cold : Files :=
  {| stored_source_files := None; isdir := false; listdir := None;
     isfile := fun _ => false |}.

(** The clip directory as a first search of [v.mp4] leaves it: the
    metadata of that search and its one clip. *)
Definition warm : Files :=
  {| stored_source_files := Some [lit "v.mp4"];
     isdir := true;
     listdir := Some [lit "c_00000.mp4"; lit "metadata.json"];
     isfile := fun _ => true |}.

Definition search (w : World) (fs : Files) (phrase : string) (max : Z) : Run :=
  @find_and_export_longest_matches_incremental UCD.db w one_video fs
    (lit phrase) [lit "v.mp4"] 0 10 2 false false max.

(** The theorem of the full-match-only mode at a phrase that no file says. *)
Lemma full_match_only_spec_witness :
  trace (search (world no_signal) cold "goodbye" 25) = [] /\
  exit (search (world no_signal) cold "goodbye" 25) = Returned.
Proof.
  apply (proj2 (full_match_only_spec UCD.db (world no_signal) one_video cold
                  (lit "goodbye") [lit "v.mp4"] 0 10 2 false 25)).
  intros filename sentences _ H. injection H as <-. vm_compute. reflexivity.
Defined.

(** ** A repeated search *)

Lemma submitted_ignores_cache {U : UnicodeDB} (w : World)
    (load : str -> option (list Sentence)) (fs fs' : Files) (input : str)
    (filenames : list str) (lo hi : Q) (thr : Z) (partial all : bool) (max : Z) :
  submitted (trace (find_and_export_longest_matches_incremental w load fs input
                      filenames lo hi thr partial all max)) =
  submitted (trace (find_and_export_longest_matches_incremental w load fs' input
                      filenames lo hi thr partial all max)).
Proof.
  unfold find_and_export_longest_matches_incremental.
  destruct (select_segments load input filenames lo hi thr partial all)
    as [[groups segments]|]; [|reflexivity].
  destruct (process_segments w groups (List.length segments) max _ fresh)
    as [steps [e|l]]; simpl; [reflexivity|].
  rewrite !submitted_app.
  destruct (finalize_quiet (check_cache fs filenames max) l) as [_ ->].
  destruct (finalize_quiet (check_cache fs' filenames max) l) as [_ ->].
  reflexivity.
Qed.

(** C4 fails on the code.  The second of two identical searches finds the
    cache valid ([skip_export] is true and the clip of the first search is
    listed), and still hands the same task to the pool as a search with no
    cache; rendering that task starts an encode. *)
Theorem warm_cache_still_renders :
  skip_export (cache (search (world no_signal) warm "hello world" 25)) = true /\
  cached_clip_files (cache (search (world no_signal) warm "hello world" 25)) =
    [lit "c_00000.mp4"] /\
  submitted (trace (search (world no_signal) warm "hello world" 25)) =
    submitted (trace (search (world no_signal) cold "hello world" 25)) /\
  List.map clip_number
    (submitted (trace (search (world no_signal) warm "hello world" 25))) = [0%nat] /\
  List.map
    (fun t =>
       List.length
         (Render.commands
            (@Render.render_single_clip UCD.db (RenderProps.env_exits [0%Z])
               RenderProps.nvenc_ready (it_file (item t)) (it_match (item t))
               (lit "c_00000.mp4"))))
    (submitted (trace (search (world no_signal) warm "hello world" 25)))
  = [1%nat].
Proof.
  split; [vm_compute; reflexivity|].
  split; [vm_compute; reflexivity|].
  split; [apply submitted_ignores_cache|].
  split; vm_compute; reflexivity.
Qed.

(** ** A negative maximum *)

(** A transcript that says "a x a x a". *)
Definition axaxa : str -> option (list Sentence) :=
  fun _ =>
    Some [ {| content := VStr (lit "a x a x a");
              words := [MatchExamples.w "a" 0 1; MatchExamples.w "x" 1 2;
                        MatchExamples.w "a" 2 3; MatchExamples.w "x" 3 4;
                        MatchExamples.w "a" 4 5] |} ].

Definition files_per_event (t : list Step) : list nat :=
  omap (fun ev => match ev with
                  | SegmentResult _ files _ => Some (List.length files)
                  | _ => None
                  end)
       (segment_events t).

(** C6 fails on the code for a negative maximum.  With
    [max_results_per_segment = -1] the slice [[:-1]] drops the last of the
    three matches of "a" and the segment event carries two clips. *)
Theorem negative_cap_is_exceeded :
  files_per_event
    (trace (@find_and_export_longest_matches_incremental UCD.db (world no_signal)
              axaxa cold (lit "a") [lit "v.mp4"] 0 10 2 false false (-1)))
  = [2%nat].
Proof. vm_compute. reflexivity. Qed.

(** ** A cancellation while a batch is rendered *)

(** The steps that follow the first look at the registry that finds the
    search cancelled. *)
Fixpoint after_cancel (t : list Step) : list Step :=
  match t with
  | [] => []
  | Look r :: rest => if cancelled r then rest else after_cancel rest
  | _ :: rest => after_cancel rest
  end.

(** C9 fails on the code.  The search is cancelled while the one clip of
    its one segment is rendered: the third look at the registry, after the
    future is done, finds it cancelled; the pending futures are cancelled,
    and the generator goes on to yield the progress event, the segment
    event with the clip, and returns normally after writing the metadata. *)
Theorem cancel_mid_batch_still_emits :
  let r := search (world (cancel_before 2)) cold "hello world" 25 in
  List.map (fun s => match s with Look r => cancelled r | _ => false end) (trace r) =
    [false; false; false; false; true; false; false; false; false] /\
  after_cancel (trace r) =
    [CancelPending;
     Yield (Progress 1 (lit "hello world") (Some 1%nat));
     Yield (SegmentResult (lit "hello world")
              [ {| ce_clip_number := 0;
                   ce_item :=
                     {| it_file := lit "v.mp4";
                        it_match :=
                          {| segment := lit "hello world"; m_start := 0;
                             m_end := 1; first_silence := 0;
                             second_silence := 2.5 - 1 |} |} |} ] 2);
     WriteMetadata] /\
  exit r = Returned.
Proof. vm_compute. repeat split. Qed.

(** What the checkpoint before a batch does: a search found cancelled
    there stops with no batch and no segment event. *)
Example cancel_before_batch_stops :
  let r := search (world (cancel_before 0)) cold "hello world" 25 in
  trace r =
    [Yield (Progress 1 (lit "hello world") None);
     Look {| cancelled := true; skipped := [] |}] /\
  exit r = RaisedGeneratorExit.
Proof. vm_compute. repeat split. Qed.

End GeneratorExamples.

(* ================================================================== *)
(** * The partial-match filter on the segments of a search            *)
(* ================================================================== *)

(** The segments that reach the filter in a search are spans of the
    phrase, longest first.  On such a list the branch for a full match
    keeps the phrase and nothing else: every shorter span is a substring
    of the phrase. *)
Module PartialFilterProps.
Import Normalize MatchFinder Aggregator MatchFinderProps AggregatorProps GeneratorProps.

(** ** The order of [sorted_segments] *)

(** No element has a smaller key than one that follows it. *)
Fixpoint longest_first {A} (key : A -> nat) (l : list A) : Prop :=
  match l with
  | [] => True
  | x :: r => (forall y, In y r -> (key y <= key x)%nat) /\ longest_first key r
  end.

Lemma insert_desc_longest_first {A} (key : A -> nat) (x : A) (l : list A) :
  longest_first key l -> longest_first key (insert_desc key x l).
Proof.
  induction l as [|a l IH]; simpl.
  - intros _. split; [intros y []|exact I].
  - intros [Ha Hl]. destruct (Nat.leb_spec (key a) (key x)); simpl.
    + split; [|split; assumption].
      intros y [<-|Hy]; [assumption|]. specialize (Ha y Hy). lia.
    + split; [|apply IH; exact Hl].
      intros y Hy. apply insert_desc_in in Hy. destruct Hy as [->|Hy]; [lia|auto].
Qed.

Lemma sorted_desc_longest_first {A} (key : A -> nat) (l : list A) :
  longest_first key (sorted_desc key l).
Proof.
  induction l as [|a l IH]; simpl; [exact I|].
  now apply insert_desc_longest_first.
Qed.

Lemma longest_first_after {A} (key : A -> nat) (before : list A) (x : A)
    (after : list A) :
  longest_first key (before ++ x :: after) ->
  forall y, In y after -> (key y <= key x)%nat.
Proof.
  induction before as [|b before IH]; simpl.
  - intros [H _]. exact H.
  - intros [_ H]. exact (IH H).
Qed.

(** ** Substrings *)

Lemma startswith_app (b c : str) : startswith (b ++ c) b = true.
Proof.
  induction b as [|x b IH]; simpl.
  - destruct c; reflexivity.
  - now rewrite N.eqb_refl.
Qed.

Lemma contains_unfold (hay needle : str) :
  contains hay needle =
  startswith hay needle ||
  match hay with [] => false | _ :: r => contains r needle end.
Proof. destruct hay; reflexivity. Qed.

Lemma contains_app (a b c : str) : contains (a ++ b ++ c) b = true.
Proof.
  induction a as [|x a IH].
  - simpl app. rewrite contains_unfold, startswith_app. reflexivity.
  - change (contains ((x :: a) ++ b ++ c) b)
      with (startswith ((x :: a) ++ b ++ c) b || contains (a ++ b ++ c) b).
    rewrite IH. apply orb_true_r.
Qed.

Lemma join_cons (sep w : str) (ws : list str) :
  ws <> [] -> join sep (w :: ws) = w ++ sep ++ join sep ws.
Proof. destruct ws; [congruence|reflexivity]. Qed.

Lemma join_prefix (sep : str) (mid post : list str) :
  exists c, join sep (mid ++ post) = join sep mid ++ c.
Proof.
  induction mid as [|w mid IH].
  - exists (join sep post). reflexivity.
  - destruct IH as [c Hc]. destruct mid as [|w2 mid'].
    + simpl app. destruct post as [|p post'].
      * exists []. simpl. now rewrite app_nil_r.
      * exists (sep ++ join sep (p :: post')). reflexivity.
    + exists c.
      change ((w :: w2 :: mid') ++ post) with (w :: (w2 :: mid') ++ post).
      rewrite join_cons by (simpl; discriminate).
      rewrite Hc. rewrite (join_cons sep w (w2 :: mid')) by discriminate.
      now rewrite <- !app_assoc.
Qed.

Lemma join_infix (sep : str) (pre mid post : list str) :
  exists a c, join sep (pre ++ mid ++ post) = a ++ join sep mid ++ c.
Proof.
  induction pre as [|x pre IH]; simpl app.
  - destruct (join_prefix sep mid post) as [c Hc]. exists [], c. exact Hc.
  - destruct IH as (a & c & H).
    destruct (pre ++ mid ++ post) as [|y rest] eqn:E.
    + apply app_eq_nil in E. destruct E as [_ E].
      apply app_eq_nil in E. destruct E as [-> _].
      exists x, []. simpl. now rewrite app_nil_r.
    + exists (x ++ sep ++ a), c. rewrite join_cons by discriminate.
      rewrite H. now rewrite <- !app_assoc.
Qed.

(** The text of a span of words is a substring of the text of the words. *)
Lemma contains_join_span (sep : str) (l : list str) (i k : nat) :
  contains (join sep l) (join sep (firstn k (skipn i l))) = true.
Proof.
  assert (Hl : l = firstn i l ++ firstn k (skipn i l) ++ skipn k (skipn i l))
    by (now rewrite !firstn_skipn).
  destruct (join_infix sep (firstn i l) (firstn k (skipn i l))
              (skipn k (skipn i l))) as (a & c & H).
  rewrite <- Hl in H. rewrite H. apply contains_app.
Qed.

Lemma span_incl {A} (l : list A) (i k : nat) (x : A) :
  In x (firstn k (skipn i l)) -> In x l.
Proof.
  intros H. apply firstn_incl in H.
  rewrite <- (firstn_skipn i l). apply in_or_app. now right.
Qed.

(** A span as long as the list is the list. *)
Lemma span_full {A} (l : list A) (i k : nat) :
  (List.length l <= List.length (firstn k (skipn i l)))%nat ->
  firstn k (skipn i l) = l.
Proof.
  rewrite length_firstn, length_skipn. intros H.
  destruct l as [|a l].
  - destruct i; destruct k; reflexivity.
  - simpl List.length in H. destruct i as [|i]; [|lia].
    simpl skipn. apply firstn_all2. simpl. lia.
Qed.

(** ** Words *)

Section Words.
Context {U : UnicodeDB}.

Definition no_space (w : str) : Prop := Forall (fun c => isspace c = false) w.

(** What [split] returns: a non-empty run without whitespace. *)
Definition is_word (w : str) : Prop := w <> [] /\ no_space w.

Lemma rev_word (cur : str) : cur <> [] -> no_space cur -> is_word (rev cur).
Proof.
  intros Hne Hns. split.
  - intros H. apply Hne. rewrite <- (rev_involutive cur), H. reflexivity.
  - apply Forall_rev. exact Hns.
Qed.

Lemma split_aux_words (s : str) :
  forall cur, no_space cur -> Forall is_word (split_aux cur s).
Proof.
  induction s as [|c r IH]; intros cur Hcur.
  - destruct cur as [|a cur']; [constructor|].
    constructor; [|constructor]. apply rev_word; [discriminate|exact Hcur].
  - simpl. destruct (isspace c) eqn:Ec.
    + destruct cur as [|a cur'].
      * apply IH. constructor.
      * constructor; [|apply IH; constructor].
        apply rev_word; [discriminate|exact Hcur].
    + apply IH. constructor; assumption.
Qed.

Lemma split_words (s : str) : Forall is_word (split s).
Proof. apply split_aux_words. constructor. Qed.

Lemma split_aux_word (w : str) :
  no_space w ->
  forall cur rest, split_aux cur (w ++ rest) = split_aux (rev w ++ cur) rest.
Proof.
  unfold no_space. induction 1 as [|c w Hc Hw IH]; intros cur rest; simpl;
    [reflexivity|].
  rewrite Hc, IH. now rewrite <- app_assoc.
Qed.

Lemma split_aux_end (cur : str) : cur <> [] -> split_aux cur [] = [rev cur].
Proof. destruct cur; [congruence|reflexivity]. Qed.

(** ** Where a space is whitespace *)

Hypothesis space_is_space : isspace 32%N = true.

Lemma split_aux_space (cur rest : str) :
  cur <> [] -> split_aux cur (32%N :: rest) = rev cur :: split_aux [] rest.
Proof.
  intros H. simpl. rewrite space_is_space. destruct cur; [congruence|reflexivity].
Qed.

(** Splitting the words joined by a space gives the words back. *)
Lemma split_join (ws : list str) :
  Forall is_word ws -> split (join (lit " ") ws) = ws.
Proof.
  change (lit " ") with [32%N]. unfold split.
  induction 1 as [|w ws [Hne Hw] Hws IH]; [reflexivity|].
  assert (Hrev : rev w <> []).
  { intros H. apply Hne. rewrite <- (rev_involutive w), H. reflexivity. }
  destruct ws as [|w2 ws'].
  - simpl join. rewrite <- (app_nil_r w) at 1.
    rewrite (split_aux_word w Hw), app_nil_r.
    rewrite (split_aux_end _ Hrev), rev_involutive. reflexivity.
  - rewrite join_cons by discriminate.
    rewrite (split_aux_word w Hw), app_nil_r.
    change ([32%N] ++ join [32%N] (w2 :: ws'))
      with (32%N :: join [32%N] (w2 :: ws')).
    rewrite (split_aux_space _ _ Hrev), rev_involutive, IH. reflexivity.
Qed.

(** ** Where lower-casing acts word by word *)

Hypothesis lower_wordwise : forall s, split (lower s) = List.map lower (split s).

Lemma normalized_words (s : str) :
  normalized s = join (lit " ") (List.map lower (split s)).
Proof. unfold normalized. now rewrite lower_wordwise. Qed.

Lemma split_normalized (s : str) : split (normalized s) = List.map lower (split s).
Proof.
  unfold normalized. rewrite split_join by apply split_words.
  apply lower_wordwise.
Qed.

(** The words counted by the filter are the words counted by the sort. *)
Lemma words_normalized (s : str) :
  List.length (split (normalized s)) = word_count s.
Proof. rewrite split_normalized, length_map. reflexivity. Qed.

Lemma span_words (input_sentence : str) (i k : nat) :
  Forall is_word (firstn k (skipn i (split input_sentence))).
Proof.
  apply Forall_forall. intros w Hw. apply span_incl in Hw.
  pose proof (split_words input_sentence) as H. rewrite Forall_forall in H.
  now apply H.
Qed.

Lemma normalized_span (input_sentence : str) (i k : nat) :
  normalized (join (lit " ") (firstn k (skipn i (split input_sentence)))) =
  join (lit " ")
    (firstn k (skipn i (List.map lower (split input_sentence)))).
Proof.
  rewrite normalized_words, split_join by apply span_words.
  now rewrite skipn_map, firstn_map.
Qed.

(** The normal form of a span of the phrase is a substring of the normal
    form of the phrase. *)
Lemma span_in_phrase (input_sentence : str) (i k : nat) :
  contains (normalized input_sentence)
    (normalized (join (lit " ") (firstn k (skipn i (split input_sentence))))) = true.
Proof.
  rewrite normalized_span, (normalized_words input_sentence).
  apply contains_join_span.
Qed.

(** A span with as many words as the phrase has the normal form of the
    phrase. *)
Lemma span_is_phrase (input_sentence : str) (i k : nat) :
  let seg := join (lit " ") (firstn k (skipn i (split input_sentence))) in
  (List.length (split (normalized input_sentence)) <=
   List.length (split (normalized seg)))%nat ->
  normalized seg = normalized input_sentence.
Proof.
  intros seg. unfold seg.
  rewrite !words_normalized. unfold word_count at 2.
  rewrite split_join by apply span_words.
  intros H. apply span_full in H.
  rewrite normalized_span, (normalized_words input_sentence).
  rewrite skipn_map, firstn_map, H. reflexivity.
Qed.

(** The segments of a list are spans of the phrase. *)
Definition spans_of (input_sentence : str) (segments : list str) : Prop :=
  forall seg, In seg segments ->
    exists i j,
      let segment_words := firstn (j - i) (skipn i (split input_sentence)) in
      seg = join (lit " ") segment_words /\
      ((3 <= List.length segment_words)%nat \/ seg = input_sentence).

(** With a full match among spans sorted longest first, what the filter
    keeps has the normal form of the phrase. *)
Lemma full_match_keeps_phrase (input_sentence : str)
    (sorted_segments kept : list str) :
  spans_of input_sentence sorted_segments ->
  longest_first word_count sorted_segments ->
  filter_segments input_sentence true false sorted_segments = Some kept ->
  existsb (fun seg => str_eqb (normalized seg) (normalized input_sentence))
    sorted_segments = true ->
  forall seg, In seg kept -> normalized seg = normalized input_sentence.
Proof.
  intros Hspans Hsorted Hf Hfull seg Hseg.
  destruct (filter_segments_cases U input_sentence sorted_segments)
    as (kept' & Hf' & _ & Hcase & _).
  rewrite Hf in Hf'. injection Hf' as <-.
  destruct (Hcase Hfull) as [_ Hkept].
  destruct (Hkept seg Hseg) as [Hin Hwhy].
  destruct (Hspans seg Hin) as (i & j & Hspan & _). cbv zeta in Hspan.
  assert (Hprio : is_prioritized (normalized input_sentence) seg = true ->
                  normalized seg = normalized input_sentence).
  { unfold is_prioritized. intros H. apply orb_true_iff in H.
    destruct H as [H|H]; [|now apply str_eqb_eq in H].
    apply Nat.leb_le in H. rewrite Hspan in *.
    now apply span_is_phrase. }
  destruct Hwhy as [Hp|[(before & after & Hsplit & Hdom) _]]; [now apply Hprio|].
  destruct (is_prioritized (normalized input_sentence) seg) eqn:Ep;
    [now apply Hprio|].
  exfalso.
  apply existsb_exists in Hfull. destruct Hfull as (F & HF & HFn).
  apply str_eqb_eq in HFn.
  unfold is_prioritized in Ep. apply orb_false_iff in Ep.
  destruct Ep as [Ewords _]. apply Nat.leb_gt in Ewords.
  assert (HFp : is_prioritized (normalized input_sentence) F = true).
  { unfold is_prioritized. rewrite HFn, str_eqb_refl. apply orb_true_r. }
  assert (HFdom : dominates seg F = true).
  { unfold dominates. rewrite HFn. apply andb_true_iff. split.
    - now apply Nat.ltb_lt.
    - rewrite Hspan. apply span_in_phrase. }
  rewrite Hsplit in HF. apply in_app_or in HF.
  destruct HF as [HF|[HF|HF]].
  - rewrite (Hdom F HF HFp) in HFdom. discriminate.
  - subst F. rewrite HFn in Ewords. lia.
  - rewrite Hsplit in Hsorted.
    pose proof (longest_first_after _ _ _ _ Hsorted F HF) as Hle.
    rewrite <- !words_normalized, HFn in Hle. lia.
Qed.

End Words.

(** ** The segments of a search *)

Section Search.
Context {U : UnicodeDB}.
Variable load : str -> option (list Sentence).
Variables (input_sentence : str) (min_silence max_silence : Q)
          (silence_word_threshold : Z).

Lemma search_file_partial (filename : str) (entry : FileMatches) :
  search_file load input_sentence min_silence max_silence silence_word_threshold
    true false filename = Some entry ->
  exists sentences,
    fm_matches entry =
      find_longest_matches_filtered input_sentence sentences min_silence
        max_silence silence_word_threshold 3.
Proof.
  unfold search_file. simpl negb. cbv iota.
  destruct (load filename) as [sentences|]; [|discriminate].
  destruct (is_empty sentences); [discriminate|].
  destruct (negb (has_valid_content sentences)); [discriminate|].
  destruct (is_empty _); [discriminate|].
  intros H. injection H as <-. exists sentences. reflexivity.
Qed.

End Search.

(** What a search in partial-match mode without "all partials" hands to
    the filter, and what it returns. *)
Lemma select_partial (U : UnicodeDB) (load : str -> option (list Sentence))
    (input_sentence : str) (filenames : list str) (min_silence max_silence : Q)
    (silence_word_threshold : Z) (groups : Groups) (kept : list str) :
  select_segments load input_sentence filenames min_silence max_silence
    silence_word_threshold true false = Some (groups, kept) ->
  let sorted_segments := sorted_desc word_count (List.map fst groups) in
  filter_segments input_sentence true false sorted_segments = Some kept /\
  spans_of input_sentence sorted_segments.
Proof.
  unfold select_segments.
  set (afm := omap _ filenames).
  destruct (is_empty afm); [discriminate|].
  pose proof (group_all_ok afm) as Hok.
  destruct (filter_segments input_sentence true false _) as [kept'|] eqn:Ef;
    [|discriminate].
  intros H. injection H as <- <-. cbv zeta. split; [exact Ef|].
  intros seg Hin. apply sorted_desc_in in Hin. apply in_map_iff in Hin.
  destruct Hin as [[k v] [<- Hkv]]. simpl.
  destruct (Hok k v Hkv) as [[it Hit] Hall].
  destruct (Hall it Hit) as [Hseg (entry & He & _ & Hm)].
  unfold afm in He. apply in_omap in He. destruct He as (filename & _ & Hs).
  apply search_file_partial in Hs. destruct Hs as (sentences & Hms).
  rewrite Hms in Hm. apply search_spans_floor in Hm.
  rewrite Hseg in Hm. exact Hm.
Qed.

(** C3 (as the code has it).  In a search in partial-match mode without
    "all partials", the filter is applied to spans of the phrase (of at
    least 3 words, or the phrase itself), longest first, and:
    - when a full match exists, every span whose word count is at least
      that of the phrase is kept; a shorter span is kept only if no longer
      kept span contains it, and only if it has at least 3 words or is the
      phrase; in fact every span kept is the phrase up to case and spacing,
      each shorter span being a substring of it (where a space is whitespace
      and lower-casing acts word by word, as in Python);
    - when no full match exists, a span is kept exactly when it has 3 or
      more words (contained in a longer kept span or not) or no other
      longer span contains it. *)
Theorem partial_filter_spec (U : UnicodeDB)
    (load : str -> option (list Sentence)) (input_sentence : str)
    (filenames : list str) (min_silence max_silence : Q)
    (silence_word_threshold : Z) (groups : Groups) (kept : list str) :
  select_segments load input_sentence filenames min_silence max_silence
    silence_word_threshold true false = Some (groups, kept) ->
  let sorted_segments := sorted_desc word_count (List.map fst groups) in
  let input_normalized := normalized input_sentence in
  let full_match_exists :=
    existsb (fun seg => str_eqb (normalized seg) input_normalized) sorted_segments in
  filter_segments input_sentence true false sorted_segments = Some kept /\
  (forall seg, In seg sorted_segments ->
     exists i j,
       let segment_words := firstn (j - i) (skipn i (split input_sentence)) in
       seg = join (lit " ") segment_words /\
       ((3 <= List.length segment_words)%nat \/ seg = input_sentence)) /\
  (full_match_exists = true ->
   isspace 32%N = true ->
   (forall s, split (lower s) = List.map lower (split s)) ->
   (forall seg, In seg sorted_segments ->
      (List.length (split input_normalized) <=
       List.length (split (normalized seg)))%nat ->
      In seg kept) /\
   (forall seg, In seg kept ->
      In seg sorted_segments /\
      ((List.length (split (normalized seg)) <
        List.length (split input_normalized))%nat ->
       (forall longer, In longer kept -> dominates seg longer = false) /\
       ((3 <= List.length (split (normalized seg)))%nat \/
        normalized seg = input_normalized))) /\
   (forall seg, In seg kept -> normalized seg = input_normalized)) /\
  (full_match_exists = false ->
   forall seg, In seg kept <->
     In seg sorted_segments /\
     ((3 <= List.length (split (normalized seg)))%nat \/
      forall other, In other sorted_segments -> other <> seg ->
        dominates seg other = false)).
Proof.
  intros Hsearch sorted_segments input_normalized full_match_exists.
  destruct (select_partial U load input_sentence filenames min_silence
              max_silence silence_word_threshold groups kept Hsearch)
    as [Hf Hspans].
  fold sorted_segments in Hf, Hspans.
  destruct (filter_segments_cases U input_sentence sorted_segments)
    as (kept' & Hf' & _ & Hfull & Hnone).
  rewrite Hf in Hf'. injection Hf' as <-.
  split; [exact Hf|]. split; [exact Hspans|]. split.
  - intros Hex Hspace Hlower. destruct (Hfull Hex) as [Hlong Hkept].
    assert (Hphrase : forall seg, In seg kept -> normalized seg = input_normalized).
    { apply (full_match_keeps_phrase Hspace Hlower input_sentence sorted_segments);
        auto.
      apply sorted_desc_longest_first. }
    split; [|split; [|exact Hphrase]].
    + intros seg Hin Hle. apply Hlong; [exact Hin|].
      unfold is_prioritized. apply orb_true_iff. left. now apply Nat.leb_le.
    + intros seg Hin. split; [apply (Hkept seg Hin)|].
      intros Hshort. rewrite (Hphrase seg Hin) in Hshort. lia.
  - exact Hnone.
Qed.

(** ** The theorem on the excerpt of the database *)

Lemma ucd_isspace_lower (c : codepoint) :
  UCD.isspace (UCD.lower_cp c) = UCD.isspace c.
Proof.
  unfold UCD.lower_cp.
  destruct ((65 <=? c)%N && (c <=? 90)%N) eqn:E; [|reflexivity].
  apply andb_true_iff in E. destruct E as [E1 E2].
  apply N.leb_le in E1. apply N.leb_le in E2.
  unfold UCD.isspace, UCD.whitespace. simpl existsb.
  repeat match goal with
         | |- context [N.eqb ?a ?b] =>
             replace (N.eqb a b) with false by (symmetry; apply N.eqb_neq; lia)
         end.
  reflexivity.
Qed.

Lemma ucd_split_aux_lower (s : str) :
  forall cur,
  @split_aux UCD.db (List.map UCD.lower_cp cur) (List.map UCD.lower_cp s) =
  List.map (List.map UCD.lower_cp) (@split_aux UCD.db cur s).
Proof.
  induction s as [|c r IH]; intros cur.
  - destruct cur as [|a cur']; [reflexivity|].
    simpl. now rewrite map_app, map_rev.
  - simpl map at 2. simpl split_aux.
    change (@isspace UCD.db (UCD.lower_cp c)) with (UCD.isspace (UCD.lower_cp c)).
    change (@isspace UCD.db c) with (UCD.isspace c).
    rewrite ucd_isspace_lower.
    destruct (UCD.isspace c).
    + destruct cur as [|a cur'].
      * apply (IH []).
      * simpl. rewrite map_app, map_rev. f_equal. apply (IH []).
    + apply (IH (c :: cur)).
Qed.

(** On the excerpt, lower-casing acts word by word. *)
Lemma ucd_lower_wordwise (s : str) :
  @split UCD.db (@lower UCD.db s) = List.map (@lower UCD.db) (@split UCD.db s).
Proof. apply (ucd_split_aux_lower s []). Qed.

(** The phrase "a b c d" is said in "a b c d x": its spans "a b c" and
    "b c d" are found as well (the groups are in the order of the search),
    and only the phrase is kept. *)
Example abcd_in_abcdx :
  option_map (fun r => (List.map fst (fst r), snd r))
    (@select_segments UCD.db (fun _ => Some abcdx) (lit "a b c d")
       [lit "v.mp4"] 0 10 2 true false)
  = Some ([lit "a b c"; lit "a b c d"; lit "b c d"], [lit "a b c d"]).
Proof. vm_compute. reflexivity. Qed.

(** The theorem at the search for "a b c d" in "a b c d x". *)
Lemma partial_filter_spec_witness :
  exists groups,
    @select_segments UCD.db (fun _ => Some abcdx) (lit "a b c d")
      [lit "v.mp4"] 0 10 2 true false = Some (groups, [lit "a b c d"]) /\
    forall seg, In seg [lit "a b c d"] ->
      @normalized UCD.db seg = @normalized UCD.db (lit "a b c d").
Proof.
  pose proof abcd_in_abcdx as Hex.
  destruct (@select_segments UCD.db (fun _ => Some abcdx) (lit "a b c d")
              [lit "v.mp4"] 0 10 2 true false) as [[groups kept]|] eqn:E;
    [|discriminate].
  simpl in Hex. injection Hex as Hkeys Hkept. subst kept.
  exists groups. split; [reflexivity|].
  apply (partial_filter_spec UCD.db (fun _ => Some abcdx) (lit "a b c d")
           [lit "v.mp4"] 0 10 2 groups [lit "a b c d"] E).
  - rewrite Hkeys. vm_compute. reflexivity.
  - reflexivity.
  - exact ucd_lower_wordwise.
Defined.

End PartialFilterProps.

(* ================================================================== *)
(** * Further properties of the matcher                               *)
(* ================================================================== *)

Module MatcherInvariants.
Import Normalize MatchFinder MatchFinderProps.

(** The key of [seen_ranges] of a match. *)
Definition key_of (m : Match) : Q * Q * str := (m_start m, m_end m, segment m).

(** What a window is, apart from the text of the phrase. *)
Definition timing (m : Match) : Q * Q * Q * Q :=
  (m_start m, m_end m, first_silence m, second_silence m).

(** No match has the key of a match before it. *)
Definition distinct_keys (l : list Match) : Prop :=
  ForallOrdPairs (fun a b => same_key (key_of b) (key_of a) = false) l.

Lemma py_max_nonneg (x : Q) : (0 <= py_max x 0)%Q.
Proof.
  unfold py_max. destruct (Qle_bool 0 x) eqn:E.
  - now apply Qle_bool_iff.
  - apply Qle_refl.
Qed.

Lemma map_omap_ext {A B C} (g : B -> C) (f f' : A -> option B) (l : list A) :
  (forall x, option_map g (f x) = option_map g (f' x)) ->
  List.map g (omap f l) = List.map g (omap f' l).
Proof.
  intros H. induction l as [|a l IH]; simpl; [reflexivity|].
  specialize (H a). destruct (f a), (f' a); simpl in *; try discriminate.
  - injection H as ->. now rewrite IH.
  - exact IH.
Qed.

Lemma omap_length {A B} (f : A -> option B) (l : list A) :
  (List.length (omap f l) <= List.length l)%nat.
Proof.
  induction l as [|a l IH]; simpl; [lia|]. destruct (f a); simpl; lia.
Qed.

Lemma ForallOrdPairs_app {A} (R : A -> A -> Prop) (l1 l2 : list A) :
  ForallOrdPairs R l1 -> ForallOrdPairs R l2 ->
  (forall a b, In a l1 -> In b l2 -> R a b) ->
  ForallOrdPairs R (l1 ++ l2).
Proof.
  intros H1 H2 Hx. induction H1 as [|a l Ha Hl IH]; simpl; [exact H2|].
  constructor.
  - apply Forall_app. split; [exact Ha|].
    apply Forall_forall. intros b Hb. apply Hx; [now left|exact Hb].
  - apply IH. intros a' b Ha' Hb. apply Hx; [now right|exact Hb].
Qed.

Lemma fold_left_invariant {A B} (P : A -> Prop) (f : A -> B -> A) (l : list B) :
  (forall a b, P a -> P (f a b)) -> forall a, P a -> P (fold_left f l a).
Proof.
  intros Hf. induction l as [|b l IH]; intros a Ha; simpl; [exact Ha|].
  apply IH, Hf, Ha.
Qed.

(** What the deduplication loop keeps: the keys seen so far stay, every new
    match has its key recorded, none of them was seen before, and no two of
    them share a key. *)
Lemma add_new_spec (found : list Match) :
  forall seen seen' new,
  add_new seen found = (seen', new) ->
  (forall k, In k seen -> In k seen') /\
  (forall m, In m new -> In (key_of m) seen') /\
  (forall m, In m new -> existsb (same_key (key_of m)) seen = false) /\
  distinct_keys new.
Proof.
  induction found as [|m r IH]; simpl; intros seen seen' new H.
  - injection H as <- <-. repeat split; auto; try (intros ? []). constructor.
  - fold (key_of m) in H.
    destruct (existsb (same_key (key_of m)) seen) eqn:E.
    + exact (IH _ _ _ H).
    + destruct (add_new (key_of m :: seen) r) as [s' n'] eqn:En.
      injection H as <- <-.
      destruct (IH _ _ _ En) as (Hk & Hrec & Hnew & Hd).
      repeat split.
      * intros k Hin. apply Hk. now right.
      * intros m' [<-|Hin]; [apply Hk; now left|now apply Hrec].
      * intros m' [<-|Hin]; [exact E|].
        specialize (Hnew m' Hin). simpl in Hnew.
        apply orb_false_iff in Hnew. tauto.
      * constructor; [|exact Hd].
        apply Forall_forall. intros m' Hin.
        specialize (Hnew m' Hin). simpl in Hnew.
        apply orb_false_iff in Hnew. tauto.
Qed.

(** X1.  Both gaps recorded in a match returned by
    [find_matches_for_segment] are non-negative, whatever the times of the
    transcript and the bounds asked for, and there is at most one match per
    usable word of the transcript. *)
Theorem find_matches_gaps_nonneg (U : UnicodeDB) (segment : str)
    (sentences : list Sentence) (lo hi : Q) (thr : Z) :
  Forall (fun m => (0 <= first_silence m)%Q /\ (0 <= second_silence m)%Q)
         (find_matches_for_segment segment sentences lo hi thr) /\
  (List.length (find_matches_for_segment segment sentences lo hi thr) <=
   List.length (flatten_words sentences))%nat.
Proof.
  split.
  - apply Forall_forall. intros m Hin. apply find_matches_accepted in Hin.
    destruct Hin as [i (w0 & w1 & _ & _ & _ & _ & _ & ->)]. simpl.
    unfold preceding_gap, following_gap. split.
    + destruct i as [|j]; [apply py_max_nonneg|].
      destruct (nth_error _ j); apply py_max_nonneg.
    + destruct (nth_error _ _); apply py_max_nonneg.
  - unfold find_matches_for_segment.
    destruct (Nat.eqb_spec (List.length (segment_tokens segment)) 0) as [Hz|Hnz];
      simpl orb; [simpl; lia|].
    destruct (is_empty (flatten_words sentences)); [simpl; lia|].
    etransitivity; [apply omap_length|]. rewrite length_seq. lia.
Qed.

(** X2.  The matcher looks at a phrase through its normalised tokens only:
    two phrases with the same tokens (they differ in case, in punctuation
    around the words or in spacing) are found in the same windows, with the
    same times and gaps. *)
Theorem matches_depend_on_tokens (U : UnicodeDB) (s1 s2 : str)
    (sentences : list Sentence) (lo hi : Q) (thr : Z) :
  segment_tokens s1 = segment_tokens s2 ->
  List.map timing (find_matches_for_segment s1 sentences lo hi thr) =
  List.map timing (find_matches_for_segment s2 sentences lo hi thr).
Proof.
  intros H. unfold find_matches_for_segment. rewrite H.
  destruct ((List.length (segment_tokens s2) =? 0)%nat ||
            is_empty (flatten_words sentences)); [reflexivity|].
  apply map_omap_ext. intros i. unfold match_at.
  destruct (strs_eqb _ _); [|reflexivity].
  destruct (hd_error _); [|reflexivity].
  destruct (last_error _); [|reflexivity].
  destruct (Z.of_nat _ <? thr)%Z; [|reflexivity].
  match goal with |- context [if ?c then _ else _] => destruct c end; reflexivity.
Qed.

(** The theorem at the phrases "Hello, World!" and "hello world". *)
Lemma matches_depend_on_tokens_witness :
  List.map timing
    (@find_matches_for_segment UCD.db (lit "Hello, World!")
       MatchExamples.hello_world_today 0 10 2) =
  List.map timing
    (@find_matches_for_segment UCD.db (lit "hello world")
       MatchExamples.hello_world_today 0 10 2).
Proof.
  apply (matches_depend_on_tokens UCD.db (lit "Hello, World!") (lit "hello world")
           MatchExamples.hello_world_today 0 10 2).
  vm_compute. reflexivity.
Defined.

(** X3.  Neither span search returns two matches with the same start, end
    and segment: a window found again for a later span of the phrase is
    dropped. *)
Theorem longest_matches_no_duplicates (U : UnicodeDB) (input_sentence : str)
    (sentences : list Sentence) (lo hi : Q) (thr : Z) (min_words : nat) :
  distinct_keys
    (find_longest_matches input_sentence sentences lo hi thr) /\
  distinct_keys
    (find_longest_matches_filtered input_sentence sentences lo hi thr min_words).
Proof.
  assert (Hspans : forall mw,
            distinct_keys (search_spans mw input_sentence sentences lo hi thr)).
  { intros mw.
    unfold search_spans.
    set (P := fun acc : list (Q * Q * str) * list Match =>
                (forall m, In m (snd acc) -> In (key_of m) (fst acc)) /\
                distinct_keys (snd acc)).
    match goal with |- distinct_keys (snd (fold_left ?f ?l ?a)) =>
      enough (HP : P (fold_left f l a)) by exact (proj2 HP);
      apply fold_left_invariant
    end.
    - intros [seen matches] [i j] [Hrec Hd]. simpl in Hrec, Hd.
      match goal with |- P (if ?c then _ else _) => destruct c end;
        [split; assumption|].
      match goal with |- context [add_new seen ?found] =>
        destruct (add_new seen found) as [seen' new] eqn:En
      end.
      destruct (add_new_spec _ _ _ _ En) as (Hk & Hrec' & Hnew & Hd').
      split; simpl.
      + intros m Hin. apply in_app_or in Hin.
        destruct Hin as [Hin|Hin]; [apply Hk, Hrec, Hin|apply Hrec', Hin].
      + apply ForallOrdPairs_app; [exact Hd|exact Hd'|].
        intros a b Ha Hb. specialize (Hnew b Hb).
        destruct (same_key (key_of b) (key_of a)) eqn:Es; [|reflexivity].
        assert (existsb (same_key (key_of b)) seen = true).
        { apply existsb_exists. exists (key_of a). split; [apply Hrec, Ha|exact Es]. }
        congruence.
    - split; [intros m []|constructor].
  }
  split; apply Hspans.
Qed.

End MatcherInvariants.

(* ================================================================== *)
(** * Further properties of the cache check                           *)
(* ================================================================== *)

Module ClipCacheInvariants.
Import ClipCache ClipCacheProps.

Lemma insert_str_in (x y : str) (l : list str) :
  In y (insert_str x l) <-> y = x \/ In y l.
Proof.
  induction l as [|a l IH]; simpl.
  - split; [intros [H|[]]; auto|intros [H|[]]; auto].
  - destruct (str_leb x a); simpl.
    + split; [intros [H|H]; auto|intros [H|H]; auto].
    + rewrite IH. tauto.
Qed.

Lemma sorted_strs_in (l : list str) (x : str) : In x (sorted_strs l) <-> In x l.
Proof.
  induction l as [|a l IH]; simpl; [tauto|].
  rewrite insert_str_in, IH. split; intros [H|H]; auto.
Qed.

(** A name of the clip directory that ends in [.mp4] and is a file. *)
Definition present_clip {U : UnicodeDB} (fs : Files) (name : str) : Prop :=
  isfile fs name = true /\
  endswith (lower name) (lit ".mp4") = true /\
  exists names, listdir fs = Some names /\ In name names.

Lemma verified_clips_present {U : UnicodeDB} (fs : Files) (name : str) :
  In name (verified_clips fs) -> present_clip fs name.
Proof.
  unfold verified_clips, listed_clips, present_clip. intros H.
  apply filter_In in H. destruct H as [H Hf].
  destruct (listdir fs) as [names|]; [|contradiction].
  apply sorted_strs_in, filter_In in H. destruct H as [Hin He].
  repeat split; auto. exists names. auto.
Qed.

(** X4.  Whatever the maximum (negative ones included), the cache check
    reuses only names that the clip directory lists, that end in [.mp4]
    (in any case) and that are files; it deletes nothing when it decides to
    reuse, and keeps no file name when it decides not to. *)
Theorem cached_files_are_present_clips (U : UnicodeDB) (fs : Files)
    (filenames : list str) (max : Z) :
  let c := check_cache fs filenames max in
  Forall (present_clip fs) (cached_clip_files c) /\
  (skip_export c = true -> actions c = []) /\
  (skip_export c = false -> cached_clip_files c = []).
Proof.
  intros c. subst c. unfold check_cache.
  fold (verified_clips fs).
  assert (HV : forall k, Forall (present_clip fs) (slice_to (verified_clips fs) k)).
  { intros k. apply Forall_forall. intros name Hin.
    apply verified_clips_present. unfold slice_to in Hin.
    destruct (k <? 0)%Z; eapply GeneratorProps.firstn_incl; exact Hin. }
  assert (HV0 : Forall (present_clip fs) (verified_clips fs)).
  { apply Forall_forall. intros name. apply verified_clips_present. }
  assert (Hcap : forall st,
            Forall (present_clip fs) (cached_clip_files st) ->
            (skip_export st = true -> actions st = []) ->
            (skip_export st = false -> cached_clip_files st = []) ->
            (skip_export st = true ->
             cached_clip_files st = verified_clips fs \/ cached_clip_files st = []) ->
            let c :=
              if skip_export st then
                if (Z.min (Z.of_nat (List.length (cached_clip_files st))) max =? 0)%Z
                then {| skip_export := false; cached_clip_files := [];
                        actions := actions st ++ [Rmtree; Makedirs] |}
                else {| skip_export := true;
                        cached_clip_files := slice_to (cached_clip_files st) max;
                        actions := actions st |}
              else st in
            Forall (present_clip fs) (cached_clip_files c) /\
            (skip_export c = true -> actions c = []) /\
            (skip_export c = false -> cached_clip_files c = [])).
  { intros st Hf Ha He Hc. destruct (skip_export st) eqn:Es; simpl.
    - destruct (_ =? 0)%Z; simpl.
      + repeat split; auto; discriminate.
      + repeat split; auto; try discriminate.
        destruct (Hc eq_refl) as [->| ->]; [apply HV|].
        unfold slice_to. destruct (max <? 0)%Z; rewrite firstn_nil; constructor.
    - repeat split; auto; intros; congruence. }
  destruct (stored_source_files fs) as [stored|];
    [|apply Hcap; simpl; auto; discriminate].
  destruct (strs_eqb stored (sorted_strs filenames));
    [|apply Hcap; simpl; auto; discriminate].
  destruct (isdir fs); [|apply Hcap; simpl; auto; discriminate].
  destruct (is_empty (listed_clips fs)) eqn:EL; simpl negb; cbv iota.
  - apply Hcap; simpl; auto; discriminate.
  - destruct (Nat.eqb_spec (List.length (verified_clips fs))
                (List.length (listed_clips fs))) as [Hl|Hl]; simpl negb; cbv iota.
    + assert (HVL : verified_clips fs = listed_clips fs)
        by (apply filter_all; exact Hl).
      rewrite <- HVL. apply Hcap; simpl; auto; discriminate.
    + destruct (is_empty (verified_clips fs)) eqn:EV.
      * apply is_empty_true in EV. rewrite EV.
        apply Hcap; simpl; auto; discriminate.
      * apply Hcap; simpl; auto; discriminate.
Qed.

End ClipCacheInvariants.

(* ================================================================== *)
(** * Further properties of the clip window and the renderer          *)
(* ================================================================== *)

From Stdlib Require Floats.
From Stdlib Require Import Qround.

Module RenderInvariants.
Import MatchFinder Render.

Lemma Qle_bool_false (a b : Q) : Qle_bool a b = false -> (b < a)%Q.
Proof.
  intros H. apply Qnot_le_lt. intros Hle. apply Qle_bool_iff in Hle. congruence.
Qed.

(** What [run_encode] guarantees whatever the processes do. *)
Definition encode_bounds (env : ClipEnv) (g : GpuState) (output_path : str)
    (r : Rendering) : Prop :=
  (1 <= List.length (commands r) <= 3)%nat /\
  gpu_permits (gpu_after r) = gpu_permits g /\
  (gpu_after r = g \/
   gpu_after r = disable_gpu_encoder g /\ (2 <= List.length (commands r))%nat) /\
  (forall p, result r = Rendered p ->
     p = output_path /\
     exists stderr,
       proc_result env (List.length (commands r) - 1) = Exited 0 stderr).

Ltac encode_cases env :=
  unfold run_encode, cpu_fallback, finish, fail;
  repeat match goal with
  | |- context [match proc_result env ?k with _ => _ end] =>
      let E := fresh "E" in destruct (proc_result env k) eqn:E
  | |- context [(?rc =? 0)%Z] =>
      let H := fresh "H" in destruct (Z.eqb_spec rc 0) as [H|H]; [subst rc|]
  | |- context [if ?c then _ else _] => destruct c
  end.

Lemma run_encode_bounds {U : UnicodeDB} (env : ClipEnv) (g : GpuState)
    (current : option (str * list str)) (first minimal cpu : Command)
    (output_path : str) :
  encode_bounds env g output_path
    (run_encode env g current first minimal cpu output_path).
Proof.
  unfold encode_bounds. encode_cases env; simpl;
    (split; [lia|]); (split; [reflexivity|]);
    (split; [first [left; reflexivity|right; split; [reflexivity|lia]]|]);
    intros p Hp; try discriminate Hp; injection Hp as <-;
    (split; [reflexivity|eexists; eassumption]).
Qed.

Lemma run_encode_minimal {U : UnicodeDB} (env : ClipEnv) (g : GpuState)
    (current : option (str * list str)) (first minimal cpu : Command)
    (output_path : str) :
  codec minimal = MinimalNvenc -> codec first <> MinimalNvenc ->
  codec cpu <> MinimalNvenc ->
  (minimal_retries (run_encode env g current first minimal cpu output_path) <= 1)%nat.
Proof.
  intros Hm Hf Hc. unfold minimal_retries. encode_cases env; simpl; rewrite ?Hm;
    destruct (codec first), (codec cpu); simpl; try lia; congruence.
Qed.

Lemma run_encode_no_encoder {U : UnicodeDB} (env : ClipEnv) (g : GpuState)
    (first minimal cpu : Command) (output_path : str) :
  commands (run_encode env g None first minimal cpu output_path) = [first] /\
  gpu_after (run_encode env g None first minimal cpu output_path) = g.
Proof.
  unfold run_encode. simpl gpu_failure_signature. cbv iota.
  encode_cases env; simpl; auto.
Qed.

(** ** The clip window in floating-point arithmetic *)

(** The arithmetic that lines 2430-2444 use: the number that a decimal
    literal denotes, sum, difference and the two comparisons. *)
Record Arith (T : Type) := {
  f_number : Q -> T;
  f_add : T -> T -> T;
  f_sub : T -> T -> T;
  f_lt : T -> T -> bool;
  f_le : T -> T -> bool
}.

Arguments f_number {T}.
Arguments f_add {T}.
Arguments f_sub {T}.
Arguments f_lt {T}.
Arguments f_le {T}.

Section Window.
Context {T : Type} (A : Arith T).

(** [max(a, b)] and [min(a, b)]: [b] when it is the larger (the smaller)
    one, else [a]. *)
Definition max2 (a b : T) : T := if f_lt A a b then b else a.
Definition min2 (a b : T) : T := if f_lt A b a then b else a.

(** Lines 2430-2444 in the arithmetic [A]; [None] for the [ValueError] of
    the final validation. *)
Definition clip_window_in (match_start match_end video_duration : T)
    : option (T * T) :=
  let clip_start :=
    max2 (f_sub A match_start (f_number A DEFAULT_CLIP_START_PADDING))
         (f_number A 0) in
  let clip_end := f_add A match_end (f_number A DEFAULT_CLIP_END_PADDING) in
  let clip_start := min2 clip_start (f_sub A video_duration (f_number A 0.1)) in
  let clip_end := min2 clip_end video_duration in
  let clip_end :=
    if f_le A clip_end clip_start then
      let clip_duration := max2 (f_sub A match_end match_start) (f_number A 0) in
      let min_extension :=
        f_add A (f_number A DEFAULT_CLIP_START_PADDING)
                (f_number A DEFAULT_CLIP_END_PADDING) in
      min2 (f_add A clip_start
              (max2 (f_add A clip_duration min_extension) (f_number A 0.1)))
           video_duration
    else clip_end in
  if f_le A clip_end clip_start then None else Some (clip_start, clip_end).

End Window.

(** Rationals with a rounding [fl] after every operation and of every
    literal: finite floats, where [fl] rounds a real number to the nearest
    float. *)
Definition rounded (fl : Q -> Q) : Arith Q :=
  {| f_number := fl;
     f_add := fun a b => fl (a + b);
     f_sub := fun a b => fl (a - b);
     f_lt := fun a b => negb (Qle_bool b a);
     f_le := Qle_bool |}.

(** The float nearest to a rational with small numerator and denominator:
    the quotient of two integers that are floats, rounded once. *)
Definition float_of (q : Q) : PrimFloat.float :=
  PrimFloat.div (PrimFloat.of_uint63 (Uint63.of_Z (Qnum q)))
                (PrimFloat.of_uint63 (Uint63.of_Z (Zpos (Qden q)))).

(** IEEE 754 binary64, the floats of Python. *)
Definition binary64 : Arith PrimFloat.float :=
  {| f_number := float_of;
     f_add := PrimFloat.add;
     f_sub := PrimFloat.sub;
     f_lt := PrimFloat.ltb;
     f_le := PrimFloat.leb |}.

(** Without rounding the window is the one of [Render.clip_window]. *)
Lemma clip_window_unrounded (match_start match_end video_duration : Q) :
  clip_window_in (rounded (fun x => x)) match_start match_end video_duration =
  clip_window match_start match_end video_duration.
Proof.
  assert (Hmax : forall a b, max2 (rounded (fun x => x)) a b = py_max a b).
  { intros a b. unfold max2, py_max. simpl. now destruct (Qle_bool b a). }
  assert (Hmin : forall a b, min2 (rounded (fun x => x)) a b = py_min a b).
  { intros a b. unfold min2, py_min. simpl. now destruct (Qle_bool a b). }
  unfold clip_window_in, clip_window. cbv zeta. rewrite !Hmax, !Hmin.
  reflexivity.
Qed.

Section Rounding.
Variable fl : Q -> Q.

(** A float is a number that rounding leaves alone. *)
Definition is_float (x : Q) : Prop := (fl x == x)%Q.

Hypothesis fl_monotone : forall x y, (x <= y)%Q -> (fl x <= fl y)%Q.
Hypothesis fl_float : forall x, is_float (fl x).
Hypothesis zero_float : is_float 0.

Lemma max2_cases (a b : Q) :
  (max2 (rounded fl) a b = a /\ (b <= a)%Q) \/
  (max2 (rounded fl) a b = b /\ (a < b)%Q).
Proof.
  unfold max2. simpl. destruct (Qle_bool b a) eqn:E; simpl.
  - left. split; [reflexivity|]. now apply Qle_bool_iff.
  - right. split; [reflexivity|]. now apply Qle_bool_false.
Qed.

Lemma min2_cases (a b : Q) :
  (min2 (rounded fl) a b = a /\ (a <= b)%Q) \/
  (min2 (rounded fl) a b = b /\ (b < a)%Q).
Proof.
  unfold min2. simpl. destruct (Qle_bool a b) eqn:E; simpl.
  - left. split; [reflexivity|]. now apply Qle_bool_iff.
  - right. split; [reflexivity|]. now apply Qle_bool_false.
Qed.

Lemma max2_float (a b : Q) :
  is_float a -> is_float b -> is_float (max2 (rounded fl) a b).
Proof.
  intros Ha Hb. destruct (max2_cases a b) as [[-> _]|[-> _]]; assumption.
Qed.

Lemma min2_float (a b : Q) :
  is_float a -> is_float b -> is_float (min2 (rounded fl) a b).
Proof.
  intros Ha Hb. destruct (min2_cases a b) as [[-> _]|[-> _]]; assumption.
Qed.

(** A literal that is not negative denotes a float that is not negative. *)
Lemma number_nonneg (q : Q) : (0 <= q)%Q -> (0 <= fl q)%Q.
Proof.
  intros H. apply fl_monotone in H. unfold is_float in zero_float.
  rewrite zero_float in H. exact H.
Qed.

(** Adding what is not negative to a float does not give less. *)
Lemma add_nonneg (x e : Q) : is_float x -> (0 <= e)%Q -> (x <= fl (x + e))%Q.
Proof.
  intros Hx He. unfold is_float in Hx. rewrite <- Hx at 1.
  apply fl_monotone. lra.
Qed.

(** Taking what is not negative from a float does not give more. *)
Lemma sub_nonneg (x e : Q) : is_float x -> (0 <= e)%Q -> (fl (x - e) <= x)%Q.
Proof.
  intros Hx He. unfold is_float in Hx. rewrite <- Hx at 2.
  apply fl_monotone. lra.
Qed.

End Rounding.

(** X6.  Whenever the clip range passes the final validation, the clip of
    a match that lies within the video ([0 <= start <= end <= duration],
    the two times being floats) covers the match, ends at the duration at
    the latest and is not empty.  This holds with a rounding after every
    operation, for every rounding that is monotone and leaves floats
    alone. *)
Theorem clip_window_covers_match (fl : Q -> Q)
    (match_start match_end video_duration clip_start clip_end : Q) :
  (forall x y, (x <= y)%Q -> (fl x <= fl y)%Q) ->
  (forall x, is_float fl (fl x)) ->
  is_float fl 0 ->
  is_float fl match_start -> is_float fl match_end ->
  (0 <= match_start)%Q -> (match_start <= match_end)%Q ->
  (match_end <= video_duration)%Q ->
  clip_window_in (rounded fl) match_start match_end video_duration =
    Some (clip_start, clip_end) ->
  (clip_start <= match_start)%Q /\ (match_end <= clip_end)%Q /\
  (clip_end <= video_duration)%Q /\ (clip_start < clip_end)%Q.
Proof.
  intros Hmono Hfloat Hzero Hs He H0 H1 H2.
  unfold clip_window_in.
  change (f_number (rounded fl)) with fl.
  change (f_le (rounded fl)) with Qle_bool.
  change (f_sub (rounded fl)) with (fun a b => fl (a - b)).
  change (f_add (rounded fl)) with (fun a b => fl (a + b)).
  cbv beta zeta.
  pose proof (number_nonneg fl Hmono Hzero DEFAULT_CLIP_START_PADDING
                ltac:(unfold DEFAULT_CLIP_START_PADDING; lra)) as Hps.
  pose proof (number_nonneg fl Hmono Hzero DEFAULT_CLIP_END_PADDING
                ltac:(unfold DEFAULT_CLIP_END_PADDING; lra)) as Hpe.
  pose proof (number_nonneg fl Hmono Hzero 0.1 ltac:(lra)) as Htenth.
  pose proof (sub_nonneg fl Hmono match_start _ Hs Hps) as Hbefore.
  pose proof (add_nonneg fl Hmono match_end _ He Hpe) as Hafter.
  set (before := fl (match_start - fl DEFAULT_CLIP_START_PADDING)) in *.
  set (after := fl (match_end + fl DEFAULT_CLIP_END_PADDING)) in *.
  set (latest := fl (video_duration - fl 0.1)).
  assert (Hcs : is_float fl (min2 (rounded fl) (max2 (rounded fl) before (fl 0)) latest)).
  { apply min2_float; [apply max2_float|]; apply Hfloat. }
  assert (Hcs_le : (min2 (rounded fl) (max2 (rounded fl) before (fl 0)) latest
                    <= match_start)%Q).
  { unfold is_float in Hzero.
    destruct (min2_cases fl (max2 (rounded fl) before (fl 0)) latest)
      as [[-> _]|[-> Hlt]];
      destruct (max2_cases fl before (fl 0)) as [[Hm Hle]|[Hm Hle]];
      rewrite ?Hm in *; lra. }
  set (cs := min2 (rounded fl) (max2 (rounded fl) before (fl 0)) latest) in *.
  assert (Hce : (match_end <= min2 (rounded fl) after video_duration)%Q /\
                (min2 (rounded fl) after video_duration <= video_duration)%Q).
  { destruct (min2_cases fl after video_duration) as [[-> Hle]|[-> Hlt]];
      split; lra. }
  set (ce := min2 (rounded fl) after video_duration) in *.
  destruct (Qle_bool ce cs) eqn:Eext.
  - apply Qle_bool_iff in Eext.
    match goal with
    | |- context [min2 (rounded fl) (fl (cs + ?e)) video_duration] =>
        set (extension := e);
        assert (Hext : (0 <= extension)%Q)
    end.
    { unfold extension.
      match goal with
      | |- (0 <= max2 (rounded fl) ?a ?b)%Q =>
          destruct (max2_cases fl a b) as [[-> Hle]|[-> Hlt]]; lra
      end. }
    pose proof (add_nonneg fl Hmono cs extension Hcs Hext) as Hgrow.
    set (grown := fl (cs + extension)) in *.
    destruct (min2_cases fl grown video_duration) as [[-> Hle]|[-> Hlt]];
      match goal with
      | |- (if Qle_bool ?a ?b then _ else _) = _ -> _ =>
          destruct (Qle_bool a b) eqn:Ev; [discriminate|];
          apply Qle_bool_false in Ev
      end;
      intros H; injection H as <- <-; repeat split; lra.
  - apply Qle_bool_false in Eext.
    destruct (Qle_bool ce cs) eqn:Ev; [apply Qle_bool_iff in Ev; lra|].
    intros H; injection H as <- <-. repeat split; lra.
Qed.

(** A coarse rounding: down to a multiple of 1/8. *)
Definition eighths (x : Q) : Q := inject_Z (Qfloor (x * 8)) / 8.

Lemma eighths_monotone (x y : Q) : (x <= y)%Q -> (eighths x <= eighths y)%Q.
Proof.
  intros H. unfold eighths, Qdiv. apply Qmult_le_compat_r; [|discriminate].
  rewrite <- Zle_Qle. apply Qfloor_resp_le. lra.
Qed.

Lemma eighths_float (x : Q) : is_float eighths (eighths x).
Proof.
  unfold is_float, eighths.
  assert (H : (inject_Z (Qfloor (x * 8)) / 8 * 8 == inject_Z (Qfloor (x * 8)))%Q)
    by (field; discriminate).
  rewrite H, Qfloor_Z. reflexivity.
Qed.

(** The theorem with that rounding, at a match from 1 s to 2 s of a 20 s
    video: the paddings round to 3/8 s. *)
Lemma clip_window_covers_match_witness :
  clip_window_in (rounded eighths) 1 2 20 = Some (5 # 8, 19 # 8) /\
  (5 # 8 <= 1)%Q /\ (2 <= 19 # 8)%Q /\ (19 # 8 <= 20)%Q /\ (5 # 8 < 19 # 8)%Q.
Proof.
  split; [vm_compute; reflexivity|].
  apply (clip_window_covers_match eighths 1 2 20 (5 # 8) (19 # 8)
           eighths_monotone eighths_float);
    try (vm_compute; reflexivity); vm_compute; discriminate.
Defined.

(** In binary64 the same match gives the floats nearest to 0.55 and
    2.45. *)
Example clip_window_binary64 :
  option_map
    (fun w => (PrimFloat.eqb (fst w) (float_of 0.55),
               PrimFloat.eqb (snd w) (float_of 2.45)))
    (clip_window_in binary64 (float_of 1) (float_of 2) (float_of 20))
  = Some (true, true).
Proof. vm_compute. reflexivity. Qed.

(** In binary64 the final validation can fail: from 2^53 s on, a duration
    less 0.1 s is the duration. *)
Example clip_window_binary64_invalid :
  clip_window_in binary64 (float_of (inject_Z (2 ^ 54)))
    (float_of (inject_Z (2 ^ 54))) (float_of (inject_Z (2 ^ 53))) = None.
Proof. vm_compute. reflexivity. Qed.

(** X7.  Whatever the processes do, a task runs at most three encodes, of
    which at most one with the minimal NVENC parameters; it leaves the
    count of permits as it was and the encoder state either untouched or
    disabled; and it reports success only with the path asked for and only
    when the last process it ran exited with 0. *)
Theorem render_single_clip_bounds (U : UnicodeDB) (env : ClipEnv) (g : GpuState)
    (filename : str) (m : Match) (output_path : str) :
  let r := render_single_clip env g filename m output_path in
  (List.length (commands r) <= 3)%nat /\
  (minimal_retries r <= 1)%nat /\
  gpu_permits (gpu_after r) = gpu_permits g /\
  (gpu_after r = g \/ gpu_after r = disable_gpu_encoder g) /\
  (forall p, result r = Rendered p ->
     p = output_path /\
     exists stderr,
       proc_result env (List.length (commands r) - 1) = Exited 0 stderr).
Proof.
  intros r. subst r. unfold render_single_clip.
  destruct (source_exists env); simpl negb; cbv iota;
    [|simpl; repeat split; auto; discriminate].
  destruct (video_duration env) as [d|];
    [|simpl; repeat split; auto; discriminate].
  destruct (clip_window (m_start m) (m_end m) d) as [[cs ce]|];
    [|simpl; repeat split; auto; discriminate].
  cbv zeta.
  match goal with |- context [run_encode env g ?c ?f ?mi ?cp ?o] =>
    destruct (run_encode_bounds env g c f mi cp o) as (Hlen & Hp & Hg & Hr);
    assert (Hf : codec f <> MinimalNvenc)
      by (destruct c as [[name args]|]; [|simpl; discriminate];
          match goal with |- context [if ?b then _ else _] => destruct b end;
          simpl; discriminate);
    pose proof (run_encode_minimal env g c f mi cp o eq_refl Hf
                  ltac:(simpl; discriminate)) as Hmin
  end.
  split; [lia|]. split; [exact Hmin|]. split; [exact Hp|].
  split; [destruct Hg as [Hg|[Hg _]]; auto|exact Hr].
Qed.

(** X8.  When no encoder is configured a task runs at most one encode,
    with libx264, and leaves the encoder state as it was. *)
Theorem render_without_encoder (U : UnicodeDB) (env : ClipEnv) (g : GpuState)
    (filename : str) (m : Match) (output_path : str) :
  get_gpu_encoder g = None ->
  let r := render_single_clip env g filename m output_path in
  gpu_after r = g /\
  (List.length (commands r) <= 1)%nat /\
  Forall (fun c => codec c = Libx264Ultrafast) (commands r).
Proof.
  intros Hg r. subst r. unfold render_single_clip.
  destruct (source_exists env); simpl negb; cbv iota;
    [|simpl; repeat split; auto].
  destruct (video_duration env) as [d|]; [|simpl; repeat split; auto].
  destruct (clip_window (m_start m) (m_end m) d) as [[cs ce]|];
    [|simpl; repeat split; auto].
  cbv zeta. rewrite Hg.
  match goal with |- context [run_encode env g None ?f ?mi ?cp ?o] =>
    destruct (run_encode_no_encoder env g f mi cp o) as [-> ->]
  end.
  simpl. repeat split; auto.
Qed.

(** A server on which detection found no encoder. *)
Definition cpu_only : GpuState :=
  {| gpu_encoder_cache := Some None; gpu_disabled := false;
     gpu_permits := Some 2%nat |}.

(** The theorem at a server without encoder whose encode exits with 1. *)
Lemma render_without_encoder_witness :
  let r := @render_single_clip UCD.db (RenderProps.env_exits [1%Z]) cpu_only
             (lit "v.mp4") RenderProps.a_match (lit "out.mp4") in
  gpu_after r = cpu_only /\
  (List.length (commands r) <= 1)%nat /\
  Forall (fun c => codec c = Libx264Ultrafast) (commands r).
Proof.
  apply (render_without_encoder UCD.db (RenderProps.env_exits [1%Z]) cpu_only
           (lit "v.mp4") RenderProps.a_match (lit "out.mp4")).
  reflexivity.
Defined.

End RenderInvariants.

(* ================================================================== *)
(** * Encoder detection ([detect_gpu_encoder])                        *)
(* ================================================================== *)

Module EncoderDetection.
Import Render.

(** The parameter sets tried for [h264_nvenc], in order. *)
Definition nvenc_test_configs : list (list str) :=
  [ [lit "-preset"; lit "p4"];
    [lit "-preset"; lit "p4"; lit "-rc"; lit "vbr"];
    [lit "-preset"; lit "p1"; lit "-rc"; lit "cbr"; lit "-b:v"; lit "5M"];
    [lit "-preset"; lit "p4"; lit "-rc"; lit "constqp"; lit "-qp"; lit "23"];
    [lit "-preset"; lit "p4"; lit "-rc"; lit "vbr"; lit "-cq"; lit "23"] ].

Section Probe.
(** The output of [ffmpeg -encoders] ([None] when the call fails or exits
    with a non-zero code), and the verdict of [test_gpu_encoder]. *)
Variable encoders : option str.
Variable test_gpu_encoder : str -> list str -> bool.

(** One branch of the chain with a single parameter set. *)
Definition try_one (name : string) (args : list string) : option (str * list str) :=
  if test_gpu_encoder (lit name) (List.map lit args)
  then Some (lit name, List.map lit args)
  else None.

(** The body of [detect_gpu_encoder] after the two cache tests: the pair
    stored in the cache and returned, [None] for [(None, None)]. *)
Definition probe_encoders : option (str * list str) :=
  match encoders with
  | None => None
  | Some encoders =>
      if contains encoders (lit "h264_nvenc") then
        match find (test_gpu_encoder (lit "h264_nvenc")) nvenc_test_configs with
        | Some args => Some (lit "h264_nvenc", args)
        | None => None
        end
      else if contains encoders (lit "hevc_nvenc") then
        try_one "hevc_nvenc" ["-preset"; "p4"; "-rc"; "vbr"; "-cq"; "23"]%string
      else if contains encoders (lit "h264_qsv") then
        try_one "h264_qsv" ["-preset"; "medium"; "-global_quality"; "23"]%string
      else if contains encoders (lit "h264_amf") then
        try_one "h264_amf"
          ["-quality"; "balanced"; "-rc"; "vbr_peak"; "-qmin"; "18"; "-qmax"; "28"]%string
      else if contains encoders (lit "h264_vaapi") then
        try_one "h264_vaapi" ["-qp"; "23"]%string
      else if contains encoders (lit "h264_videotoolbox") then
        try_one "h264_videotoolbox" ["-allow_sw"; "1"; "-b:v"; "5M"]%string
      else None
  end.

End Probe.

(** The names the chain asks for, in its order. *)
Definition encoder_names : list str :=
  [lit "h264_nvenc"; lit "hevc_nvenc"; lit "h264_qsv"; lit "h264_amf";
   lit "h264_vaapi"; lit "h264_videotoolbox"].

(** The first name of [names] that occurs in the listing. *)
Definition first_listed (encoders : str) (names : list str) : option str :=
  find (contains encoders) names.

Lemma try_one_spec (test : str -> list str -> bool) (name : string)
    (args : list string) (r : str * list str) :
  try_one test name args = Some r ->
  fst r = lit name /\ test (fst r) (snd r) = true.
Proof.
  unfold try_one. destruct (test (lit name) (List.map lit args)) eqn:E;
    [|discriminate].
  intros H. injection H as <-. auto.
Qed.

(** X9.  Detection tests only the first encoder of its list that ffmpeg
    names: an encoder is returned only if it is that one and its test
    passed, and when that one fails its tests no encoder is returned,
    whatever the others would do.  Without a listing no encoder is
    returned. *)
Theorem probe_encoders_first_listed (encoders : str)
    (test : str -> list str -> bool) :
  probe_encoders None test = None /\
  (forall name args,
     probe_encoders (Some encoders) test = Some (name, args) ->
     first_listed encoders encoder_names = Some name /\ test name args = true) /\
  (forall name,
     first_listed encoders encoder_names = Some name ->
     (forall args, test name args = false) ->
     probe_encoders (Some encoders) test = None) /\
  (first_listed encoders encoder_names = None ->
   probe_encoders (Some encoders) test = None).
Proof.
  split; [reflexivity|].
  unfold probe_encoders, first_listed, encoder_names. cbn [find].
  destruct (contains encoders (lit "h264_nvenc")).
  { split; [|split].
    - intros name args H.
      destruct (find (test (lit "h264_nvenc")) nvenc_test_configs) as [a|] eqn:Ef; [|discriminate].
      injection H as <- <-. split; [reflexivity|].
      apply find_some in Ef. tauto.
    - intros name H Hall. injection H as <-.
      destruct (find (test (lit "h264_nvenc")) nvenc_test_configs) as [a|] eqn:Ef; [|reflexivity].
      apply find_some in Ef. destruct Ef as [_ Ef]. rewrite Hall in Ef.
      discriminate.
    - discriminate. }
  repeat match goal with
  | |- context [if contains encoders ?n then _ else _] =>
      destruct (contains encoders n);
      [split; [|split];
       [intros name args H; apply try_one_spec in H; simpl in H;
        destruct H as [<- H]; auto
       |intros name H Hall; injection H as <-; unfold try_one;
        now rewrite Hall
       |discriminate]|]
  end.
  split; [|split]; [discriminate|discriminate|reflexivity].
Qed.

(** X10.  Detection runs once: whatever ffmpeg would list and whatever the
    tests would say later, a second call returns what the first call
    returned and leaves the state as the first call left it; and after
    [disable_gpu_encoder] a call returns no encoder. *)
Theorem detect_gpu_encoder_cached (g : GpuState)
    (encoders encoders' : option str) (test test' : str -> list str -> bool) :
  let first := detect_gpu_encoder (probe_encoders encoders test) g in
  detect_gpu_encoder (probe_encoders encoders' test') (fst first) = first /\
  snd (detect_gpu_encoder (probe_encoders encoders' test')
         (disable_gpu_encoder (fst first))) = None.
Proof.
  intros first. subst first. unfold detect_gpu_encoder.
  destruct (gpu_disabled g) eqn:Ed; simpl; rewrite ?Ed; auto.
  destruct (gpu_encoder_cache g) as [c|] eqn:Ec; simpl; rewrite ?Ed, ?Ec; auto.
Qed.

End EncoderDetection.

(* ================================================================== *)
(** * Further properties of the generator                             *)
(* ================================================================== *)

Module GeneratorInvariants.
Import MatchFinder Aggregator ClipCache Generator GeneratorProps.

(** The phrase of a result event. *)
Definition result_phrase (e : Event) : option str :=
  match e with
  | SegmentResult phrase _ _ => Some phrase
  | _ => None
  end.

(** The looks at the registry and the cancellations of futures. *)
Definition control_steps (t : list Step) : list Step :=
  filter (fun s => match s with Look _ | CancelPending => true | _ => false end) t.

Lemma control_steps_app (a b : list Step) :
  control_steps (a ++ b) = control_steps a ++ control_steps b.
Proof. apply filter_app. Qed.

Lemma map_snd_combine {A B} (a : list A) (b : list B) :
  List.length a = List.length b -> List.map snd (combine a b) = b.
Proof.
  revert b. induction a as [|x a IH]; intros [|y b] H; simpl in *;
    try discriminate; [reflexivity|].
  f_equal. apply IH. lia.
Qed.

Lemma clip_numbers_seq (base : nat) (segment_matches : list Item) :
  List.map clip_number (clip_tasks_of base segment_matches) =
  seq base (List.length segment_matches).
Proof.
  unfold clip_tasks_of. rewrite map_map.
  assert (H : forall (l : list Item) s,
            List.map (fun x : nat * Item =>
                        clip_number (let '(i, it) := x in
                          {| clip_idx := i; item := it;
                             clip_number := (base + i)%nat |}))
                     (combine (seq s (List.length l)) l) =
            seq (base + s) (List.length l)).
  { induction l as [|it l IH]; intros s; simpl; [reflexivity|].
    f_equal. rewrite IH. f_equal. lia. }
  rewrite H. f_equal. lia.
Qed.

Lemma deliver_cancel (signals : list Signal) :
  forall r, In Cancel signals \/ cancelled r = true ->
            cancelled (fold_left deliver signals r) = true.
Proof.
  induction signals as [|sig rest IH]; intros r H; simpl.
  - destruct H as [[]|H]. exact H.
  - apply IH. destruct H as [[->|H]|H]; [right; reflexivity|left; exact H|].
    right. destruct sig; simpl; auto.
Qed.

Section WithWorld.
Context {U : UnicodeDB}.
Variable w : World.

(** ** A search without [search_id] *)

Hypothesis no_id : has_search_id w = false.

Lemma harvest_one_no_id (segment_idx : nat) (segment : str) (task : Task)
    (h : Harvest) :
  segment_skipped (snd (harvest_one w segment_idx segment task h)) =
    segment_skipped h /\
  control_steps (fst (harvest_one w segment_idx segment task h)) = [].
Proof.
  unfold harvest_one. rewrite no_id.
  destruct (segment_skipped h); simpl;
    destruct (outcome w segment_idx (clip_idx task)); simpl; auto.
Qed.

Lemma harvest_no_id (segment_idx : nat) (segment : str) (done : list Task) :
  forall h,
  segment_skipped (snd (harvest w segment_idx segment done h)) =
    segment_skipped h /\
  control_steps (fst (harvest w segment_idx segment done h)) = [].
Proof.
  induction done as [|task rest IH]; intros h; simpl; [auto|].
  destruct (harvest_one_no_id segment_idx segment task h) as [H1 C1].
  destruct (harvest_one w segment_idx segment task h) as [steps h1].
  destruct (IH h1) as [H2 C2].
  destruct (harvest w segment_idx segment rest h1) as [steps' h2].
  simpl in *. rewrite control_steps_app, C1, C2. split; [congruence|reflexivity].
Qed.

Lemma process_segment_no_id (segment_groups : Groups) (total : nat) (max : Z)
    (segment_idx : nat) (segment : str) (l : Loop) :
  exists steps l1 files,
    process_segment w segment_groups total max segment_idx segment l =
      (steps, inr l1) /\
    segment_events steps = [SegmentResult segment files (word_count segment)] /\
    control_steps steps = [].
Proof.
  unfold process_segment. rewrite no_id. cbv beta iota zeta. simpl negb. cbv iota.
  match goal with |- context [harvest w segment_idx segment ?d ?h0] =>
    destruct (harvest_no_id segment_idx segment d h0) as [Hs Hc];
    destruct (harvest_spec w segment_idx segment d h0) as (He & _);
    destruct (harvest w segment_idx segment d h0) as [steps h]
  end.
  simpl in Hs, Hc, He. rewrite Hs.
  eexists. eexists. exists (segment_results h). split; [reflexivity|].
  split.
  - unfold segment_events in *. simpl. rewrite omap_app, He. reflexivity.
  - unfold control_steps in *. simpl. rewrite filter_app, Hc. reflexivity.
Qed.

Lemma process_segments_no_id (segment_groups : Groups) (total : nat) (max : Z)
    (segments : list (nat * str)) :
  forall l, exists steps l1,
    process_segments w segment_groups total max segments l = (steps, inr l1) /\
    omap result_phrase (segment_events steps) = List.map snd segments /\
    List.length (segment_events steps) = List.length segments /\
    control_steps steps = [].
Proof.
  induction segments as [|[idx seg] rest IH]; intros l; simpl.
  - exists [], l. auto.
  - destruct (process_segment_no_id segment_groups total max idx seg l)
      as (steps & l1 & files & -> & He & Hc).
    destruct (IH l1) as (steps' & l2 & -> & He' & Hl' & Hc').
    exists (steps ++ steps'), l2. split; [reflexivity|].
    rewrite segment_events_app, control_steps_app, He, Hc, Hc'. simpl.
    rewrite He', Hl'. auto.
Qed.

End WithWorld.

(** ** The numbers of the clips *)

(** [ns] ascends strictly from [base] and stays below [next]. *)
Fixpoint ascending (base : nat) (ns : list nat) (next : nat) : Prop :=
  match ns with
  | [] => (base <= next)%nat
  | n :: r => (base <= n)%nat /\ ascending (S n) r next
  end.

Lemma ascending_seq (base n : nat) : ascending base (seq base n) (base + n).
Proof.
  revert base. induction n as [|n IH]; intros base; simpl; [lia|].
  split; [lia|]. replace (base + S n)%nat with (S base + n)%nat by lia. apply IH.
Qed.

Lemma ascending_weaken (ns : list nat) :
  forall base base' next next',
  ascending base ns next -> (base' <= base)%nat -> (next <= next')%nat ->
  ascending base' ns next'.
Proof.
  induction ns as [|n r IH]; simpl; intros base base' next next' H Hb Hn; [lia|].
  destruct H as [H1 H2]. split; [lia|]. eapply IH; eauto.
Qed.

Lemma ascending_app (l1 l2 : list nat) :
  forall base mid next,
  ascending base l1 mid -> ascending mid l2 next -> ascending base (l1 ++ l2) next.
Proof.
  induction l1 as [|n r IH]; simpl; intros base mid next H1 H2.
  - eapply ascending_weaken; eauto.
  - destruct H1 as [Hb H1]. split; [exact Hb|]. eapply IH; eauto.
Qed.

Lemma ascending_le (ns : list nat) :
  forall base next, ascending base ns next -> (base <= next)%nat.
Proof.
  induction ns as [|n r IH]; simpl; intros base next H; [exact H|].
  destruct H as [Hb H]. specialize (IH _ _ H). lia.
Qed.

Lemma ascending_bounds (ns : list nat) :
  forall base next, ascending base ns next ->
  forall x, In x ns -> (base <= x < next)%nat.
Proof.
  induction ns as [|n r IH]; simpl; intros base next H x Hx; [contradiction|].
  destruct H as [Hb H]. destruct Hx as [<-|Hx].
  - pose proof (ascending_le _ _ _ H). lia.
  - specialize (IH _ _ H x Hx). lia.
Qed.

Lemma ascending_NoDup (ns : list nat) :
  forall base next, ascending base ns next -> NoDup ns.
Proof.
  induction ns as [|n r IH]; simpl; intros base next H; [constructor|].
  destruct H as [_ H]. constructor; [|eapply IH; eauto].
  intros Hin. pose proof (ascending_bounds _ _ _ H n Hin). lia.
Qed.

Section Counter.
Context {U : UnicodeDB}.
Variable w : World.

Lemma sequential_skipped_counter (segment : str) (segment_matches : list Item)
    (l : Loop) :
  submitted (fst (sequential_skipped w segment segment_matches l)) = [] /\
  match snd (sequential_skipped w segment segment_matches l) with
  | inr l2 => (global_clip_counter l <= global_clip_counter l2)%nat
  | inl _ => True
  end.
Proof.
  unfold sequential_skipped.
  destruct segment_matches; [destruct (l_had_success l); simpl; auto|].
  destruct (cancelled (registry (look w (l_ctl l)))); [simpl; auto|].
  destruct (is_skipped _ segment); [|simpl; auto].
  destruct (l_had_success l); simpl; auto.
Qed.

(** The batch of a segment is numbered from the counter on, and the
    counter moves past it. *)
Lemma process_segment_counter (segment_groups : Groups) (total : nat) (max : Z)
    (segment_idx : nat) (segment : str) (l : Loop) :
  exists next,
    ascending (global_clip_counter l)
      (List.map clip_number
         (submitted (fst (process_segment w segment_groups total max
                            segment_idx segment l))))
      next /\
    match snd (process_segment w segment_groups total max segment_idx segment l) with
    | inr l1 => (next <= global_clip_counter l1)%nat
    | inl _ => True
    end.
Proof.
  unfold process_segment.
  set (sm := slice_to (group_get segment_groups segment) max).
  fold (clip_tasks_of (global_clip_counter l) sm).
  set (tasks := clip_tasks_of (global_clip_counter l) sm).
  set (key := fun t : Task => finish_time w segment_idx (clip_idx t)).
  assert (Htasks : ascending (global_clip_counter l) (List.map clip_number tasks)
                     (global_clip_counter l + List.length sm)).
  { unfold tasks. rewrite clip_numbers_seq. apply ascending_seq. }
  assert (Hbatch : forall h0,
            submitted (fst (harvest w segment_idx segment (as_completed key tasks) h0))
            = []).
  { intros h0. apply harvest_spec. }
  assert (Hnone : ascending (global_clip_counter l) [] (global_clip_counter l))
    by (simpl; lia).
  unfold submitted in *.
  destruct (has_search_id w).
  - destruct (cancelled (registry (look w (l_ctl l)))).
    { exists (global_clip_counter l). simpl. auto. }
    destruct (is_skipped (registry (look w (look w (l_ctl l)))) segment);
      cbv beta iota zeta; simpl negb; cbv iota.
    + simpl segment_skipped. cbv iota.
      match goal with |- context [sequential_skipped w segment sm ?l1] =>
        destruct (sequential_skipped_counter segment sm l1) as [Hs Hc];
        destruct (sequential_skipped w segment sm l1) as [steps [e|l2]]
      end; unfold submitted in Hs; simpl in Hs, Hc;
        exists (global_clip_counter l); simpl;
        rewrite ?flat_map_app, ?Hs; simpl; auto.
    + specialize (Hbatch {| h_ctl := look w (look w (l_ctl l));
                            segment_skipped := false; completed_count := 0;
                            segment_results := [];
                            had_success := l_had_success l |}).
      destruct (harvest w segment_idx segment (as_completed key tasks) _)
        as [steps h]. simpl in Hbatch.
      destruct (segment_skipped h).
      * match goal with |- context [sequential_skipped w segment sm ?l1] =>
          destruct (sequential_skipped_counter segment sm l1) as [Hs Hc];
          destruct (sequential_skipped w segment sm l1) as [steps' [e|l2]]
        end; unfold submitted in Hs; simpl in Hs, Hc;
          exists (global_clip_counter l + List.length sm)%nat; simpl;
          rewrite ?flat_map_app, ?Hbatch, ?Hs; simpl; rewrite ?app_nil_r; auto.
      * exists (global_clip_counter l + List.length sm)%nat. simpl.
        rewrite ?flat_map_app, ?Hbatch. simpl. rewrite ?app_nil_r. auto.
  - cbv beta iota zeta. simpl negb. cbv iota.
    specialize (Hbatch {| h_ctl := l_ctl l;
                          segment_skipped := false; completed_count := 0;
                          segment_results := [];
                          had_success := l_had_success l |}).
    destruct (harvest w segment_idx segment (as_completed key tasks) _)
      as [steps h]. simpl in Hbatch.
    destruct (segment_skipped h).
    + match goal with |- context [sequential_skipped w segment sm ?l1] =>
        destruct (sequential_skipped_counter segment sm l1) as [Hs Hc];
        destruct (sequential_skipped w segment sm l1) as [steps' [e|l2]]
      end; unfold submitted in Hs; simpl in Hs, Hc;
        exists (global_clip_counter l + List.length sm)%nat; simpl;
        rewrite ?flat_map_app, ?Hbatch, ?Hs; simpl; rewrite ?app_nil_r; auto.
    + exists (global_clip_counter l + List.length sm)%nat. simpl.
      rewrite ?flat_map_app, ?Hbatch. simpl. rewrite ?app_nil_r. auto.
Qed.

Lemma process_segments_counter (segment_groups : Groups) (total : nat) (max : Z)
    (segments : list (nat * str)) :
  forall l, exists next,
    ascending (global_clip_counter l)
      (List.map clip_number
         (submitted (fst (process_segments w segment_groups total max segments l))))
      next.
Proof.
  induction segments as [|[idx seg] rest IH]; intros l; simpl.
  - exists (global_clip_counter l). simpl. lia.
  - destruct (process_segment_counter segment_groups total max idx seg l)
      as (mid & Ha & Hn).
    destruct (process_segment w segment_groups total max idx seg l)
      as [steps [e|l1]]; simpl in *.
    + exists mid. exact Ha.
    + destruct (IH l1) as (next & Hr).
      destruct (process_segments w segment_groups total max rest l1)
        as [steps' r]. simpl in *.
      exists next. rewrite submitted_app, map_app.
      eapply ascending_app; [exact Ha|].
      eapply ascending_weaken; [exact Hr|exact Hn|lia].
Qed.

End Counter.

(** X11.  A search that carries no [search_id] can be neither skipped nor
    cancelled: it never looks at the registry and cancels no future, it
    yields exactly one result event for each selected segment, in their
    order, and returns normally. *)
Theorem no_search_id_runs_to_the_end (U : UnicodeDB) (w : World)
    (load : str -> option (list Sentence)) (fs : Files) (input : str)
    (filenames : list str) (lo hi : Q) (thr : Z) (partial all : bool) (max : Z) :
  has_search_id w = false ->
  let r := find_and_export_longest_matches_incremental w load fs input
             filenames lo hi thr partial all max in
  exit r = Returned /\
  control_steps (trace r) = [] /\
  forall groups segments,
    select_segments load input filenames lo hi thr partial all =
      Some (groups, segments) ->
    omap result_phrase (segment_events (trace r)) = segments /\
    List.length (segment_events (trace r)) = List.length segments.
Proof.
  intros Hid r. subst r. unfold find_and_export_longest_matches_incremental.
  destruct (select_segments load input filenames lo hi thr partial all)
    as [[groups segments]|]; [|simpl; repeat split; auto; discriminate].
  destruct (process_segments_no_id w Hid groups (List.length segments) max
              (combine (seq 1 (List.length segments)) segments) fresh)
    as (steps & l1 & -> & He & Hl & Hc).
  simpl.
  destruct (finalize_quiet (check_cache fs filenames max) l1) as [Fe _].
  assert (Fc : control_steps (finalize (check_cache fs filenames max) l1) = []).
  { unfold finalize.
    destruct ((global_clip_counter l1 =? 0)%nat && _); [reflexivity|].
    destruct (negb _); reflexivity. }
  rewrite control_steps_app, segment_events_app, Hc, Fc, Fe, !app_nil_r.
  split; [reflexivity|]. split; [reflexivity|].
  intros g s H. injection H as <- <-.
  rewrite He, Hl, length_combine, length_seq, Nat.min_id.
  split; [|reflexivity]. apply map_snd_combine. now rewrite length_seq.
Qed.

(** A search without [search_id], in which every future succeeds. *)
Definition anonymous : World :=
  {| has_search_id := false;
     arrivals := fun _ => [Cancel];
     finish_time := fun _ i => i;
     outcome := fun _ _ => Succeeded |}.

(** The theorem at a search for "hello world" without [search_id], with a
    cancellation waiting in the registry. *)
Lemma no_search_id_runs_to_the_end_witness :
  let r := @find_and_export_longest_matches_incremental UCD.db anonymous
             GeneratorExamples.one_video GeneratorExamples.cold
             (lit "hello world") [lit "v.mp4"] 0 10 2 false false 25 in
  exit r = Returned /\
  control_steps (trace r) = [] /\
  forall groups segments,
    @select_segments UCD.db GeneratorExamples.one_video (lit "hello world")
      [lit "v.mp4"] 0 10 2 false false = Some (groups, segments) ->
    omap result_phrase (segment_events (trace r)) = segments /\
    List.length (segment_events (trace r)) = List.length segments.
Proof.
  apply (no_search_id_runs_to_the_end UCD.db anonymous
           GeneratorExamples.one_video GeneratorExamples.cold
           (lit "hello world") [lit "v.mp4"] 0 10 2 false false 25).
  reflexivity.
Defined.

(** X12.  The clips handed to the pool during a search are numbered in
    strictly ascending order, so no two tasks of a search write the same
    clip file, whatever is skipped or cancelled on the way. *)
Theorem clip_numbers_distinct (U : UnicodeDB) (w : World)
    (load : str -> option (list Sentence)) (fs : Files) (input : str)
    (filenames : list str) (lo hi : Q) (thr : Z) (partial all : bool) (max : Z) :
  let numbers :=
    List.map clip_number
      (submitted (trace (find_and_export_longest_matches_incremental w load fs
                           input filenames lo hi thr partial all max))) in
  NoDup numbers /\ exists next, ascending 0 numbers next.
Proof.
  intros numbers. subst numbers.
  unfold find_and_export_longest_matches_incremental.
  destruct (select_segments load input filenames lo hi thr partial all)
    as [[groups segments]|].
  2:{ simpl. split; [constructor|]. exists 0%nat. simpl. lia. }
  destruct (process_segments_counter w groups (List.length segments) max
              (combine (seq 1 (List.length segments)) segments) fresh)
    as (next & Ha).
  simpl in Ha.
  destruct (process_segments w groups (List.length segments) max
              (combine (seq 1 (List.length segments)) segments) fresh)
    as [steps [e|l]]; simpl in *.
  - split; [eapply ascending_NoDup; exact Ha|exists next; exact Ha].
  - destruct (finalize_quiet (check_cache fs filenames max) l) as [_ Fs].
    rewrite submitted_app, Fs, app_nil_r.
    split; [eapply ascending_NoDup; exact Ha|exists next; exact Ha].
Qed.

(** X13.  A cancellation that has arrived before the first look at the
    registry stops the search before anything is rendered: no batch is
    submitted, no segment event is yielded, and the generator ends with
    [GeneratorExit] (when it has a segment to process at all). *)
Theorem cancel_before_first_batch (U : UnicodeDB) (w : World)
    (load : str -> option (list Sentence)) (fs : Files) (input : str)
    (filenames : list str) (lo hi : Q) (thr : Z) (partial all : bool) (max : Z)
    (groups : Groups) (segment : str) (rest : list str) :
  has_search_id w = true ->
  In Cancel (arrivals w 0) ->
  select_segments load input filenames lo hi thr partial all =
    Some (groups, segment :: rest) ->
  let r := find_and_export_longest_matches_incremental w load fs input
             filenames lo hi thr partial all max in
  exit r = RaisedGeneratorExit /\
  submitted (trace r) = [] /\
  segment_events (trace r) = [] /\
  List.length (trace r) = 2%nat.
Proof.
  intros Hid Hc Hs r. subst r.
  unfold find_and_export_longest_matches_incremental. rewrite Hs.
  simpl combine. simpl process_segments. unfold process_segment.
  rewrite Hid.
  assert (Hcan : cancelled (registry (look w (l_ctl fresh))) = true).
  { unfold look. simpl. apply deliver_cancel. now left. }
  rewrite Hcan. simpl. auto.
Qed.

(** The theorem at the search of [cancel_before_batch_stops]. *)
Lemma cancel_before_first_batch_witness :
  let r := GeneratorExamples.search
             (GeneratorExamples.world (GeneratorExamples.cancel_before 0))
             GeneratorExamples.cold "hello world" 25 in
  exit r = RaisedGeneratorExit /\
  submitted (trace r) = [] /\
  segment_events (trace r) = [] /\
  List.length (trace r) = 2%nat.
Proof.
  refine (cancel_before_first_batch UCD.db
            (GeneratorExamples.world (GeneratorExamples.cancel_before 0))
            GeneratorExamples.one_video GeneratorExamples.cold
            (lit "hello world") [lit "v.mp4"] 0 10 2 false false 25
            _ (lit "hello world") [] eq_refl _ _).
  - left. reflexivity.
  - vm_compute. reflexivity.
Defined.

End GeneratorInvariants.

(* ================================================================== *)
(** * A further property of the GPU permit                             *)
(* ================================================================== *)

Module GpuPermitInvariants.
Import GpuPermit.

Lemma none_held_at_start (max_gpu_streams n : nat) :
  permits_held (start max_gpu_streams n) = 0%nat.
Proof.
  unfold permits_held, start. simpl.
  induction n as [|n IH]; simpl; [reflexivity|exact IH].
Qed.

(** X14.  Under every interleaving of the render tasks, the permits left in
    the semaphore and the permits held by tasks add up to the number the
    semaphore was created with; so at no time do more than
    [max_gpu_streams] tasks hold a permit, and the count never exceeds
    that number. *)
Theorem permits_never_exceed (max_gpu_streams n : nat) (schedule : list nat) :
  let s := run schedule (start max_gpu_streams n) in
  (permits s + permits_held s = max_gpu_streams)%nat /\
  (permits_held s <= max_gpu_streams)%nat /\
  (permits s <= max_gpu_streams)%nat.
Proof.
  intros s.
  pose proof (permits_conserved schedule (start max_gpu_streams n)) as H.
  rewrite none_held_at_start in H. simpl permits in H. fold s in H.
  repeat split; lia.
Qed.

End GpuPermitInvariants.

(* ================================================================== *)
(** * Further properties of the grouping by segment                   *)
(* ================================================================== *)

Module AggregatorInvariants.
Import MatchFinder Aggregator GeneratorProps.

Lemma NoDup_snoc {A} (l : list A) (x : A) :
  NoDup l -> ~ In x l -> NoDup (l ++ [x]).
Proof.
  intros Hl Hx. induction Hl as [|a l Ha Hl IH]; simpl.
  - constructor; [intros []|constructor].
  - constructor.
    + intros Hin. apply in_app_or in Hin. destruct Hin as [Hin|[<-|[]]].
      * contradiction.
      * apply Hx. now left.
    + apply IH. intros Hin. apply Hx. now right.
Qed.

(** The keys after [group_add]: a new key goes to the end. *)
Lemma group_add_keys (groups : Groups) (seg : str) (it : Item) :
  (In seg (List.map fst groups) ->
   List.map fst (group_add groups seg it) = List.map fst groups) /\
  (~ In seg (List.map fst groups) ->
   List.map fst (group_add groups seg it) = List.map fst groups ++ [seg]).
Proof.
  induction groups as [|[k v] r [IH1 IH2]]; simpl.
  - split; [contradiction|reflexivity].
  - destruct (str_eqb k seg) eqn:E; simpl.
    + apply str_eqb_eq in E. subst k. split; [reflexivity|].
      intros H. exfalso. apply H. now left.
    + assert (Hne : k <> seg).
      { intros ->. rewrite str_eqb_refl in E. discriminate. }
      split.
      * intros [H|H]; [contradiction|]. now rewrite IH1.
      * intros H. rewrite IH2; [reflexivity|]. intros Hin. apply H. now right.
Qed.

Lemma group_add_NoDup (groups : Groups) (seg : str) (it : Item) :
  NoDup (List.map fst groups) -> NoDup (List.map fst (group_add groups seg it)).
Proof.
  intros H. destruct (group_add_keys groups seg it) as [H1 H2].
  destruct (in_dec str_eq_dec seg (List.map fst groups)) as [Hin|Hnin].
  - now rewrite H1.
  - rewrite H2 by exact Hnin. now apply NoDup_snoc.
Qed.

(** [group_add] loses nothing, and records the item under its segment. *)
Lemma group_add_mono (groups : Groups) (seg seg' : str) (it it' : Item) :
  In it (group_get groups seg) ->
  In it (group_get (group_add groups seg' it') seg).
Proof.
  induction groups as [|[k v] r IH]; simpl; [contradiction|].
  destruct (str_eqb k seg') eqn:E'; simpl.
  - destruct (str_eqb k seg); [|auto].
    intros H. apply in_or_app. now left.
  - destruct (str_eqb k seg); auto.
Qed.

Lemma group_add_self (groups : Groups) (seg : str) (it : Item) :
  In it (group_get (group_add groups seg it) seg).
Proof.
  induction groups as [|[k v] r IH]; simpl.
  - rewrite str_eqb_refl. now left.
  - destruct (str_eqb k seg) eqn:E; simpl; rewrite E.
    + apply in_or_app. right. now left.
    + exact IH.
Qed.

(** A fold that only adds: what it is given is recorded, and what was
    recorded stays. *)
Lemma fold_left_adds {A S} (f : S -> A -> S) (R : A -> S -> Prop) :
  (forall s a b, R a s -> R a (f s b)) ->
  (forall s a, R a (f s a)) ->
  forall l s a, (In a l \/ R a s) -> R a (fold_left f l s).
Proof.
  intros Hmono Hadd. induction l as [|b l IH]; simpl; intros s a H.
  - destruct H as [[]|H]. exact H.
  - apply IH. destruct H as [[->|H]|H]; [right; apply Hadd|now left|].
    right. now apply Hmono.
Qed.

(** The item made from a match of a file. *)
Definition item_of (entry : FileMatches) (m : Match) : Item :=
  {| it_file := fm_file entry; it_match := m |}.

(** The inner loop of the grouping. *)
Definition add_matches (groups : Groups) (entry : FileMatches) : Groups :=
  fold_left (fun groups m => group_add groups (segment m) (item_of entry m))
            (fm_matches entry) groups.

Lemma group_all_unfold (all_file_matches : list FileMatches) :
  group_all all_file_matches = fold_left add_matches all_file_matches [].
Proof. reflexivity. Qed.

Lemma add_matches_mono (entry : FileMatches) (seg : str) (it : Item) :
  forall groups,
  In it (group_get groups seg) -> In it (group_get (add_matches groups entry) seg).
Proof.
  unfold add_matches. intros groups H.
  apply (MatcherInvariants.fold_left_invariant
           (fun g => In it (group_get g seg))); [|exact H].
  intros g m Hg. now apply group_add_mono.
Qed.

Lemma add_matches_NoDup (entry : FileMatches) (groups : Groups) :
  NoDup (List.map fst groups) -> NoDup (List.map fst (add_matches groups entry)).
Proof.
  unfold add_matches. intros H.
  apply (MatcherInvariants.fold_left_invariant
           (fun g => NoDup (List.map fst g))); [|exact H].
  intros g m Hg. now apply group_add_NoDup.
Qed.

(** X15.  Grouping the matches by segment loses and invents nothing: the
    segments of the groups are pairwise distinct; every match of every
    file is in the group of its segment, with its file; and every item of
    a group carries the segment of the group and is a match of the file it
    names. *)
Theorem group_all_partition (all_file_matches : list FileMatches) :
  let groups := group_all all_file_matches in
  NoDup (List.map fst groups) /\
  (forall entry m,
     In entry all_file_matches -> In m (fm_matches entry) ->
     In (item_of entry m) (group_get groups (segment m))) /\
  (forall seg it,
     In it (group_get groups seg) ->
     segment (it_match it) = seg /\
     exists entry,
       In entry all_file_matches /\ it_file it = fm_file entry /\
       In (it_match it) (fm_matches entry)).
Proof.
  intros groups. subst groups. rewrite group_all_unfold. split; [|split].
  - apply (MatcherInvariants.fold_left_invariant
             (fun g => NoDup (List.map fst g))); [|constructor].
    intros g entry Hg. now apply add_matches_NoDup.
  - intros entry m He Hm.
    apply (fold_left_adds add_matches
             (fun e g => forall m, In m (fm_matches e) ->
                                   In (item_of e m) (group_get g (segment m))));
      [| |now left|exact Hm].
    + intros g a b H m' Hm'. apply add_matches_mono. now apply H.
    + intros g a m' Hm'. unfold add_matches.
      apply (fold_left_adds
               (fun g m => group_add g (segment m) (item_of a m))
               (fun m g => In (item_of a m) (group_get g (segment m))));
        [| |now left].
      * intros s x y H. now apply group_add_mono.
      * intros s x. apply group_add_self.
  - intros seg it Hin. rewrite <- group_all_unfold in Hin.
    apply group_get_in in Hin. destruct Hin as (v & Hv & Hi).
    destruct (group_all_ok all_file_matches seg v Hv) as [_ Hall].
    exact (Hall it Hi).
Qed.

End AggregatorInvariants.

(* ================================================================== *)
(** * The response of the search routes ([format_matches_response])   *)
(* ================================================================== *)

From Stdlib Require Import Permutation Sorted.

Module Response.
Import Aggregator.

Definition MAX_CLIPS_PER_SEGMENT : nat := 25.

(** The keys that [handle_entry] reads from a dict: ['segment'], ['file']
    and ['source_video'] as strings ([None] for a missing key or [None]),
    ['duration_ms'] as an int. *)
Record Fields := {
  f_segment : option str;
  f_file : option str;
  f_source_video : option str;
  f_duration_ms : option Z
}.

(** What [format_matches_response] is given: a dict, a list (or tuple or
    set) of such values, or anything else. *)
#[warnings="-register-all"]
Inductive Entry :=
| EDict (d : Fields)
| EList (entries : list Entry)
| EOther.

(** An element of ['files']. *)
Record MatchObj := {
  mo_file : str;
  mo_source_video : option str;
  mo_duration_ms : option Z
}.

(** An element of the result. *)
Record Card := {
  phrase : str;
  files : list MatchObj;
  card_word_count : nat
}.

(** [grouped_matches], a dict in insertion order, and [ordered_segments]. *)
Record State := {
  grouped_matches : list (str * list MatchObj);
  ordered_segments : list str
}.

(** [d[k]], with the empty list for a key that is not there (the source
    reads only keys it has set). *)
Fixpoint dict_get (d : list (str * list MatchObj)) (k : str) : list MatchObj :=
  match d with
  | [] => []
  | (k', v) :: r => if str_eqb k' k then v else dict_get r k
  end.

(** [k in d] *)
Definition dict_has (d : list (str * list MatchObj)) (k : str) : bool :=
  existsb (fun kv => str_eqb (fst kv) k) d.

(** [d[k] = v]: in place for a key that is there, at the end otherwise. *)
Fixpoint dict_set (d : list (str * list MatchObj)) (k : str) (v : list MatchObj)
    : list (str * list MatchObj) :=
  match d with
  | [] => [(k, v)]
  | (k', v') :: r =>
      if str_eqb k' k then (k', v) :: r else (k', v') :: dict_set r k v
  end.

(** [register_match(segment, file_reference, source_video, duration_ms)] *)
Definition register_match (st : State) (d : Fields) : State :=
  match f_segment d, f_file d with
  | Some segment, Some file_reference =>
      if is_empty segment || is_empty file_reference then st
      else
        let st :=
          if negb (dict_has (grouped_matches st) segment)
          then {| grouped_matches := dict_set (grouped_matches st) segment [];
                  ordered_segments := ordered_segments st ++ [segment] |}
          else st in
        let match_obj :=
          {| mo_file := file_reference;
             mo_source_video :=
               match f_source_video d with
               | Some v => if is_empty v then None else Some v
               | None => None
               end;
             mo_duration_ms := f_duration_ms d |} in
        if negb (existsb (fun m => str_eqb (mo_file m) file_reference)
                         (dict_get (grouped_matches st) segment))
        then {| grouped_matches :=
                  dict_set (grouped_matches st) segment
                    (dict_get (grouped_matches st) segment ++ [match_obj]);
                ordered_segments := ordered_segments st |}
        else st
  | _, _ => st
  end.

(** [handle_entry(entry)] *)
Fixpoint handle_entry (st : State) (entry : Entry) : State :=
  match entry with
  | EDict d => register_match st d
  | EList entries => fold_left handle_entry entries st
  | EOther => st
  end.

Section WithDB.
Context {U : UnicodeDB}.

(** The loop over [ordered_segments]. *)
Definition cards (st : State) : list Card :=
  List.map
    (fun segment =>
       {| phrase := segment;
          files := firstn MAX_CLIPS_PER_SEGMENT (dict_get (grouped_matches st) segment);
          card_word_count := word_count segment |})
    (ordered_segments st).

(** [format_matches_response(matches)].  The first line returns [[]] for a
    falsy argument; for those that are not an empty list (an empty dict,
    [None]) the lines that follow return [[]] as well. *)
Definition format_matches_response (matches : Entry) : list Card :=
  match matches with
  | EList [] => []
  | _ =>
      sorted_desc card_word_count
        (cards (handle_entry {| grouped_matches := []; ordered_segments := [] |}
                  matches))
  end.

End WithDB.

End Response.

Module ResponseProps.
Import Aggregator Response.

(** The dicts of an argument, in the order in which [handle_entry] meets
    them. *)
Fixpoint dicts_of (entry : Entry) : list Fields :=
  match entry with
  | EDict d => [d]
  | EList entries => flat_map dicts_of entries
  | EOther => []
  end.

Lemma Entry_nested_ind (P : Entry -> Prop) :
  (forall d, P (EDict d)) ->
  (forall entries, Forall P entries -> P (EList entries)) ->
  P EOther ->
  forall e, P e.
Proof.
  intros Hd Hl Ho. fix IH 1. intros [d|entries|].
  - apply Hd.
  - apply Hl. induction entries as [|e r IHr]; constructor; [apply IH|exact IHr].
  - exact Ho.
Qed.

Lemma handle_entry_flat (e : Entry) :
  forall st, handle_entry st e = fold_left register_match (dicts_of e) st.
Proof.
  induction e as [d|entries IH|] using Entry_nested_ind; intros st; simpl;
    try reflexivity.
  revert st. induction IH as [|e r He _ IHr]; intros st; simpl; [reflexivity|].
  rewrite fold_left_app, <- He. apply IHr.
Qed.

(** ** The dict operations *)

Lemma dict_has_keys (d : list (str * list MatchObj)) (k : str) :
  dict_has d k = true <-> In k (List.map fst d).
Proof.
  unfold dict_has. rewrite existsb_exists. split.
  - intros [[k' v] [Hin Hk]]. apply str_eqb_eq in Hk. simpl in Hk. subst k'.
    apply in_map_iff. exists (k, v). auto.
  - intros H. apply in_map_iff in H. destruct H as [[k' v] [<- Hin]].
    exists (k', v). split; [exact Hin|apply str_eqb_refl].
Qed.

Lemma dict_set_keys (d : list (str * list MatchObj)) (k : str) (v : list MatchObj) :
  List.map fst (dict_set d k v) =
  if dict_has d k then List.map fst d else List.map fst d ++ [k].
Proof.
  unfold dict_has. induction d as [|[k' v'] r IH]; simpl; [reflexivity|].
  destruct (str_eqb k' k) eqn:E; simpl; [reflexivity|].
  rewrite IH. now destruct (existsb _ r).
Qed.

Lemma dict_get_set (d : list (str * list MatchObj)) (k k' : str) (v : list MatchObj) :
  dict_get (dict_set d k v) k' = if str_eqb k k' then v else dict_get d k'.
Proof.
  induction d as [|[k0 v0] r IH]; simpl.
  - now destruct (str_eqb k k').
  - destruct (str_eqb k0 k) eqn:E; simpl.
    + apply str_eqb_eq in E. subst k0. now destruct (str_eqb k k').
    + destruct (str_eqb k0 k') eqn:E'; [|exact IH].
      destruct (str_eqb k k') eqn:E''; [|reflexivity].
      apply str_eqb_eq in E', E''. subst. rewrite str_eqb_refl in E. discriminate.
Qed.

Lemma dict_get_missing (d : list (str * list MatchObj)) (k : str) :
  dict_has d k = false -> dict_get d k = [].
Proof.
  unfold dict_has. induction d as [|[k' v] r IH]; simpl; [reflexivity|].
  destruct (str_eqb k' k); simpl; [discriminate|exact IH].
Qed.

(** ** What the registration keeps *)

(** The object registered for a dict. *)
Definition registered_from (segment : str) (m : MatchObj) (d : Fields) : Prop :=
  f_segment d = Some segment /\ f_file d = Some (mo_file m) /\
  mo_duration_ms m = f_duration_ms d.

Record Inv (seen : list Fields) (st : State) : Prop := {
  inv_order : ordered_segments st = List.map fst (grouped_matches st);
  inv_keys : NoDup (ordered_segments st);
  inv_phrase : forall k, In k (ordered_segments st) -> k <> [];
  inv_group : forall k, In k (ordered_segments st) ->
                dict_get (grouped_matches st) k <> [];
  inv_files : forall k, NoDup (List.map mo_file (dict_get (grouped_matches st) k));
  inv_source : forall k m, In m (dict_get (grouped_matches st) k) ->
                 exists d, In d seen /\ registered_from k m d;
  inv_complete : forall d segment file_reference,
                   In d seen -> f_segment d = Some segment ->
                   f_file d = Some file_reference ->
                   segment <> [] -> file_reference <> [] ->
                   In file_reference
                      (List.map mo_file (dict_get (grouped_matches st) segment))
}.

Lemma Inv_weaken (seen : list Fields) (d : Fields) (st : State) :
  Inv seen st ->
  (forall segment file_reference,
     f_segment d = Some segment -> f_file d = Some file_reference ->
     segment <> [] -> file_reference <> [] ->
     In file_reference
        (List.map mo_file (dict_get (grouped_matches st) segment))) ->
  Inv (seen ++ [d]) st.
Proof.
  intros [H1 H2 H3 H4 H5 H6 H7] Hd. constructor; auto.
  - intros k m Hin. destruct (H6 k m Hin) as (d' & Hd' & Hr).
    exists d'. split; [apply in_or_app; now left|exact Hr].
  - intros d' s f Hin Hs Hf Hs' Hf'. apply in_app_or in Hin.
    destruct Hin as [Hin|[<-|[]]]; [eapply H7; eauto|apply Hd; auto].
Qed.

Lemma is_empty_nil {A} (l : list A) : is_empty l = false -> l <> [].
Proof. destruct l; [discriminate|intros _; discriminate]. Qed.

Lemma register_match_inv (seen : list Fields) (st : State) (d : Fields) :
  Inv seen st -> Inv (seen ++ [d]) (register_match st d).
Proof.
  intros HI. unfold register_match.
  destruct (f_segment d) as [segment|] eqn:Es.
  2:{ apply Inv_weaken; [exact HI|]. intros s f H. congruence. }
  destruct (f_file d) as [file_reference|] eqn:Ef.
  2:{ apply Inv_weaken; [exact HI|]. intros s f _ H. congruence. }
  destruct (is_empty segment) eqn:Ese; simpl orb.
  { apply Inv_weaken; [exact HI|]. intros s f H _ Hs.
    assert (s = segment) by congruence. subst s.
    destruct segment; [congruence|discriminate Ese]. }
  destruct (is_empty file_reference) eqn:Efe.
  { apply Inv_weaken; [exact HI|]. intros s f _ H _ Hf.
    assert (f = file_reference) by congruence. subst f.
    destruct file_reference; [congruence|discriminate Efe]. }
  apply is_empty_nil in Ese, Efe.
  set (match_obj := {| mo_file := file_reference;
                       mo_source_video := _;
                       mo_duration_ms := f_duration_ms d |}).
  (* the state once the key is there *)
  set (st1 := if negb (dict_has (grouped_matches st) segment)
              then {| grouped_matches := dict_set (grouped_matches st) segment [];
                      ordered_segments := ordered_segments st ++ [segment] |}
              else st).
  destruct HI as [H1 H2 H3 H4 H5 H6 H7].
  assert (Hget1 : forall k, dict_get (grouped_matches st1) k =
                            dict_get (grouped_matches st) k).
  { intros k. unfold st1.
    destruct (dict_has (grouped_matches st) segment) eqn:Eh; simpl; [reflexivity|].
    rewrite dict_get_set. destruct (str_eqb segment k) eqn:E; [|reflexivity].
    apply str_eqb_eq in E. subst k. symmetry. now apply dict_get_missing. }
  assert (Hhas1 : dict_has (grouped_matches st1) segment = true).
  { unfold st1. destruct (dict_has (grouped_matches st) segment) eqn:Eh; simpl;
      [exact Eh|].
    apply dict_has_keys. rewrite dict_set_keys, Eh. apply in_or_app. right. now left. }
  assert (Hord1 : ordered_segments st1 = List.map fst (grouped_matches st1)).
  { unfold st1. destruct (dict_has (grouped_matches st) segment) eqn:Eh; simpl;
      [exact H1|].
    rewrite dict_set_keys, Eh, H1. reflexivity. }
  assert (Hkeys1 : NoDup (ordered_segments st1)).
  { unfold st1. destruct (dict_has (grouped_matches st) segment) eqn:Eh; simpl;
      [exact H2|].
    apply AggregatorInvariants.NoDup_snoc; [exact H2|].
    rewrite H1. intros Hin. apply dict_has_keys in Hin. congruence. }
  assert (Hin1 : forall k, In k (ordered_segments st1) ->
                           In k (ordered_segments st) \/
                           (k = segment /\ dict_has (grouped_matches st) segment = false)).
  { intros k. unfold st1.
    destruct (dict_has (grouped_matches st) segment) eqn:Eh; simpl; [auto|].
    intros Hin. apply in_app_or in Hin. destruct Hin as [Hin|[<-|[]]]; auto. }
  assert (Hseg1 : In segment (ordered_segments st1)).
  { rewrite Hord1. now apply dict_has_keys. }
  fold st1.
  destruct (existsb (fun m => str_eqb (mo_file m) file_reference)
                    (dict_get (grouped_matches st1) segment)) eqn:Ex; simpl negb;
    cbv iota.
  - (* the file is there already *)
    apply existsb_exists in Ex. destruct Ex as (m0 & Hm0 & Hf0).
    apply str_eqb_eq in Hf0. rewrite Hget1 in Hm0.
    assert (Hne : dict_has (grouped_matches st) segment = true).
    { destruct (dict_has (grouped_matches st) segment) eqn:Eh; [reflexivity|].
      rewrite (dict_get_missing _ _ Eh) in Hm0. contradiction. }
    assert (Hst : st1 = st) by (unfold st1; now rewrite Hne).
    rewrite Hst. apply Inv_weaken; [constructor; auto|].
    intros s f Hs Hf _ _.
    assert (s = segment) by congruence. assert (f = file_reference) by congruence.
    subst s f. apply in_map_iff. exists m0. auto.
  - (* the file is appended *)
    assert (Hnew : ~ In file_reference
                     (List.map mo_file (dict_get (grouped_matches st) segment))).
    { intros Hin. apply in_map_iff in Hin. destruct Hin as (m0 & Hf0 & Hm0).
      assert (existsb (fun m => str_eqb (mo_file m) file_reference)
                      (dict_get (grouped_matches st1) segment) = true).
      { apply existsb_exists. exists m0. rewrite Hget1. split; [exact Hm0|].
        now apply str_eqb_eq. }
      congruence. }
    assert (Hget2 : forall k,
              dict_get (dict_set (grouped_matches st1) segment
                          (dict_get (grouped_matches st1) segment ++ [match_obj])) k =
              if str_eqb segment k
              then dict_get (grouped_matches st) segment ++ [match_obj]
              else dict_get (grouped_matches st) k).
    { intros k. rewrite dict_get_set, !Hget1. reflexivity. }
    constructor; simpl.
    + rewrite dict_set_keys, Hhas1. exact Hord1.
    + exact Hkeys1.
    + intros k Hk. destruct (Hin1 k Hk) as [Hk'|[-> _]]; auto.
    + intros k Hk. rewrite Hget2. destruct (str_eqb segment k) eqn:E.
      * intros H. apply app_eq_nil in H. destruct H as [_ H]. discriminate.
      * destruct (Hin1 k Hk) as [Hk'|[-> _]]; [auto|].
        rewrite str_eqb_refl in E. discriminate.
    + intros k. rewrite Hget2. destruct (str_eqb segment k); [|apply H5].
      rewrite map_app. simpl. apply AggregatorInvariants.NoDup_snoc;
        [apply H5|exact Hnew].
    + intros k m. rewrite Hget2. destruct (str_eqb segment k) eqn:E.
      * apply str_eqb_eq in E. subst k. intros Hin. apply in_app_or in Hin.
        destruct Hin as [Hin|[<-|[]]].
        -- destruct (H6 _ _ Hin) as (d' & Hd' & Hr). exists d'.
           split; [apply in_or_app; now left|exact Hr].
        -- exists d. split; [apply in_or_app; right; now left|].
           unfold registered_from. simpl. auto.
      * intros Hin. destruct (H6 _ _ Hin) as (d' & Hd' & Hr). exists d'.
        split; [apply in_or_app; now left|exact Hr].
    + intros d' s f Hin Hs Hf Hs' Hf'. rewrite Hget2.
      apply in_app_or in Hin. destruct Hin as [Hin|[<-|[]]].
      * specialize (H7 d' s f Hin Hs Hf Hs' Hf').
        destruct (str_eqb segment s) eqn:E; [|exact H7].
        apply str_eqb_eq in E. subst s. rewrite map_app. apply in_or_app. now left.
      * rewrite Es in Hs. rewrite Ef in Hf. injection Hs as <-. injection Hf as <-.
        rewrite str_eqb_refl, map_app. apply in_or_app. right. now left.
Qed.

Lemma fold_register_inv (ds : list Fields) :
  forall seen st, Inv seen st -> Inv (seen ++ ds) (fold_left register_match ds st).
Proof.
  induction ds as [|d ds IH]; intros seen st HI; simpl.
  - now rewrite app_nil_r.
  - replace (seen ++ d :: ds) with ((seen ++ [d]) ++ ds)
      by (rewrite <- app_assoc; reflexivity).
    apply IH. now apply register_match_inv.
Qed.

Lemma handle_entry_inv (matches : Entry) :
  Inv (dicts_of matches)
      (handle_entry {| grouped_matches := []; ordered_segments := [] |} matches).
Proof.
  rewrite handle_entry_flat.
  apply (fold_register_inv (dicts_of matches) []).
  constructor; simpl; auto; try constructor; try contradiction.
Qed.

(** ** The sort *)

Lemma insert_desc_perm {A} (key : A -> nat) (x : A) (l : list A) :
  Permutation (insert_desc key x l) (x :: l).
Proof.
  induction l as [|y r IH]; simpl; [reflexivity|].
  destruct (key y <=? key x)%nat; [reflexivity|].
  rewrite IH. apply perm_swap.
Qed.

Lemma sorted_desc_perm {A} (key : A -> nat) (l : list A) :
  Permutation (sorted_desc key l) l.
Proof.
  induction l as [|x l IH]; simpl; [reflexivity|].
  rewrite insert_desc_perm. now constructor.
Qed.

(** Larger keys first. *)
Definition descending {A} (key : A -> nat) (l : list A) : Prop :=
  StronglySorted (fun a b => (key b <= key a)%nat) l.

Lemma insert_desc_descending {A} (key : A -> nat) (x : A) (l : list A) :
  descending key l -> descending key (insert_desc key x l).
Proof.
  unfold descending. induction 1 as [|y r Hr IH Hy]; simpl.
  - constructor; constructor.
  - destruct (Nat.leb_spec (key y) (key x)).
    + constructor; [constructor; assumption|].
      constructor; [assumption|].
      eapply Forall_impl; [|exact Hy]. simpl. intros a Ha. lia.
    + constructor; [exact IH|].
      apply Forall_forall. intros a Ha.
      apply (Permutation_in _ (insert_desc_perm key x r)) in Ha.
      destruct Ha as [<-|Ha]; [lia|].
      rewrite Forall_forall in Hy. now apply Hy.
Qed.

Lemma sorted_desc_descending {A} (key : A -> nat) (l : list A) :
  descending key (sorted_desc key l).
Proof.
  induction l as [|x l IH]; simpl; [constructor|].
  now apply insert_desc_descending.
Qed.

(** A dict that [matches] holds, at any depth. *)
Definition holds (matches : Entry) (d : Fields) : Prop := In d (dicts_of matches).

(** X16.  The response lists each phrase once, longest phrases first; a
    card holds at least one and at most 25 files, no file twice, and each
    of its files was given for its phrase by a dict of the argument;
    conversely every dict with a non-empty segment and file has a card for
    its segment. *)
Theorem format_matches_response_spec (U : UnicodeDB) (matches : Entry) :
  let response := format_matches_response matches in
  NoDup (List.map phrase response) /\
  descending card_word_count response /\
  (forall c, In c response ->
     phrase c <> [] /\
     card_word_count c = word_count (phrase c) /\
     (1 <= List.length (files c) <= MAX_CLIPS_PER_SEGMENT)%nat /\
     NoDup (List.map mo_file (files c)) /\
     forall m, In m (files c) ->
       exists d, holds matches d /\ registered_from (phrase c) m d) /\
  (forall d segment file_reference,
     holds matches d ->
     f_segment d = Some segment -> f_file d = Some file_reference ->
     segment <> [] -> file_reference <> [] ->
     In segment (List.map phrase response)).
Proof.
  intros response.
  pose proof (handle_entry_inv matches) as HI.
  set (st := handle_entry {| grouped_matches := []; ordered_segments := [] |}
               matches) in *.
  assert (Hresp : response = sorted_desc card_word_count (cards st) \/
                  (matches = EList [] /\ response = [])).
  { unfold response, format_matches_response.
    destruct matches as [d|[|e r]|]; auto. }
  assert (Hphr : List.map phrase (cards st) = ordered_segments st).
  { unfold cards. rewrite map_map. simpl. apply map_id. }
  destruct HI as [H1 H2 H3 H4 H5 H6 H7].
  destruct Hresp as [Hresp|[-> Hresp]].
  2:{ rewrite Hresp. simpl. split; [constructor|]. split; [constructor|].
      split; [intros c []|]. intros d s f []. }
  rewrite Hresp.
  assert (Hperm : Permutation (sorted_desc card_word_count (cards st)) (cards st))
    by apply sorted_desc_perm.
  split; [|split; [|split]].
  - apply (Permutation_NoDup (l := List.map phrase (cards st))).
    + apply Permutation_map. now symmetry.
    + rewrite Hphr. exact H2.
  - apply sorted_desc_descending.
  - intros c Hc. apply (Permutation_in _ Hperm) in Hc.
    unfold cards in Hc. apply in_map_iff in Hc. destruct Hc as (k & <- & Hk).
    cbn [phrase files card_word_count].
    split; [now apply H3|]. split; [reflexivity|].
    specialize (H4 k Hk). specialize (H5 k).
    set (g := dict_get (grouped_matches st) k) in *.
    split; [|split].
    + rewrite length_firstn. unfold MAX_CLIPS_PER_SEGMENT.
      destruct g; [congruence|simpl List.length; lia].
    + rewrite <- (firstn_skipn MAX_CLIPS_PER_SEGMENT g), map_app in H5.
      now apply NoDup_app_remove_r in H5.
    + intros m Hm. apply GeneratorProps.firstn_incl in Hm. now apply H6.
  - intros d s f Hd Hs Hf Hs' Hf'.
    specialize (H7 d s f Hd Hs Hf Hs' Hf').
    apply (Permutation_in (l := List.map phrase (cards st))).
    + apply Permutation_map. now symmetry.
    + rewrite Hphr, H1.
      apply dict_has_keys.
      destruct (dict_has (grouped_matches st) s) eqn:E; [reflexivity|].
      rewrite (dict_get_missing _ _ E) in H7. contradiction.
Qed.

End ResponseProps.

(* ================================================================== *)
(** * Text helpers: [slugify_text] and the sentences of a transcript  *)
(* ================================================================== *)

Module Text.
Import Normalize MatchFinder.

(** [re.sub(cls + '+', repl, s)] for a character class [cls]: every
    maximal run of characters of the class is replaced by [repl].
    [in_run] says that the character before was of the class. *)
Fixpoint sub_runs (cls : codepoint -> bool) (repl : str) (in_run : bool) (s : str)
    : str :=
  match s with
  | [] => []
  | c :: r =>
      if cls c
      then if in_run then sub_runs cls repl true r
           else repl ++ sub_runs cls repl true r
      else c :: sub_runs cls repl false r
  end.

(** The class [[a-z0-9]]. *)
Definition is_slug_alnum (c : codepoint) : bool :=
  ((97 <=? c) && (c <=? 122) || (48 <=? c) && (c <=? 57))%N.

(** The character ['-']. *)
Definition is_dash (c : codepoint) : bool := (c =? 45)%N.

Section WithDB.
Context {U : UnicodeDB}.

(** [unicodedata.normalize('NFKD', .)] *)
Variable nfkd : str -> str.

(** [slugify_text(text, max_length)] *)
Definition slugify_text (text : value) (max_length : Z) : str :=
  match text with
  | VOther => lit "entry"
  | VStr text =>
      (* [.encode('ascii', 'ignore').decode('ascii')] *)
      let normalized := filter (fun c => (c <? 128)%N) (nfkd text) in
      let normalized :=
        rstrip is_dash
          (lstrip is_dash
             (sub_runs (fun c => negb (is_slug_alnum c)) (lit "-") false
                (lower normalized))) in
      let normalized := if is_empty normalized then lit "entry" else normalized in
      let normalized :=
        if (max_length <? Z.of_nat (List.length normalized))%Z
        then rstrip is_dash (slice_to normalized max_length)
        else normalized in
      if is_empty normalized then lit "entry" else normalized
  end.

(** [normalize_sentence_text(text)] *)
Definition normalize_sentence_text (text : value) : str :=
  match text with
  | VOther => []
  | VStr text => strip (sub_runs isspace (lit " ") false (nfkc text))
  end.

(** The words of a segment that are non-blank strings, stripped. *)
Definition stripped_words (segment : Sentence) : list str :=
  omap (fun word_entry =>
          match word word_entry with
          | VStr w => if negb (is_empty (strip w)) then Some (strip w) else None
          | VOther => None
          end)
       (words segment).

(** [sentence_text] of the loop of [extract_sentences_from_segments], for
    a segment that is a dict. *)
Definition sentence_text_of (segment : Sentence) : str :=
  let from_words :=
    normalize_sentence_text (VStr (join (lit " ") (stripped_words segment))) in
  match content segment with
  | VStr c =>
      if negb (is_empty (strip c)) then normalize_sentence_text (VStr c)
      else from_words
  | VOther => from_words
  end.

(** One pass of the loop: [previous_lower] and [sentences_list] before and
    after.  A segment that is not a dict is [None]. *)
Definition extract_step (acc : option str * list str) (segment : option Sentence)
    : option str * list str :=
  let '(previous_lower, sentences_list) := acc in
  match segment with
  | None => acc
  | Some segment =>
      let sentence_text := sentence_text_of segment in
      if is_empty sentence_text then acc
      else
        let sentence_lower := lower sentence_text in
        match previous_lower with
        | Some p =>
            if str_eqb p sentence_lower then acc
            else (Some sentence_lower, sentences_list ++ [sentence_text])
        | None => (Some sentence_lower, sentences_list ++ [sentence_text])
        end
  end.

(** [extract_sentences_from_segments(segments)] *)
Definition extract_sentences_from_segments (segments : list (option Sentence))
    : list str :=
  snd (fold_left extract_step segments (None, [])).

End WithDB.

End Text.

Module TextProps.
Import Normalize MatchFinder Text.

(** ** Slugs *)

(** A character of a slug. *)
Definition slug_char (c : codepoint) : Prop :=
  is_slug_alnum c = true \/ c = 45%N.

(** Slug characters only, and no dash at either end. *)
Definition clean (s : str) : Prop :=
  Forall slug_char s /\
  (forall c, first_char s = Some c -> is_dash c = false) /\
  (forall c, last_char s = Some c -> is_dash c = false).

Lemma sub_runs_slug (s : str) :
  forall in_run,
  Forall slug_char
    (sub_runs (fun c => negb (is_slug_alnum c)) (lit "-") in_run s).
Proof.
  induction s as [|c r IH]; intros in_run; simpl; [constructor|].
  destruct (is_slug_alnum c) eqn:E; simpl.
  - constructor; [now left|apply IH].
  - destruct in_run; [apply IH|].
    constructor; [now right|apply IH].
Qed.

Lemma dropwhile_length (p : codepoint -> bool) (s : str) :
  (List.length (dropwhile p s) <= List.length s)%nat.
Proof.
  induction s as [|c r IH]; simpl; [lia|]. destruct (p c); simpl; lia.
Qed.

Lemma rstrip_length (p : codepoint -> bool) (s : str) :
  (List.length (rstrip p s) <= List.length s)%nat.
Proof.
  unfold rstrip. rewrite length_rev.
  etransitivity; [apply dropwhile_length|]. now rewrite length_rev.
Qed.

Lemma firstn_Forall {A} (P : A -> Prop) (n : nat) (l : list A) :
  Forall P l -> Forall P (firstn n l).
Proof.
  intros H. apply Forall_forall. intros x Hx.
  rewrite Forall_forall in H. apply H. eapply GeneratorProps.firstn_incl. exact Hx.
Qed.

(** Cutting the dashes off the right end of a string that does not start
    with one. *)
Lemma clean_rstrip (s : str) :
  Forall slug_char s ->
  (forall c, first_char s = Some c -> is_dash c = false) ->
  clean (rstrip is_dash s).
Proof.
  intros Hs Hf. split; [|split].
  - now apply NormalizeProps.rstrip_Forall.
  - destruct s as [|a r]; [intros c; discriminate|].
    rewrite (rstrip_first is_dash a r (Hf a eq_refl)).
    intros c H. injection H as <-. now apply Hf.
  - intros c. apply rstrip_last.
Qed.

Lemma clean_strip (s : str) :
  Forall slug_char s -> clean (rstrip is_dash (lstrip is_dash s)).
Proof.
  intros Hs. apply clean_rstrip.
  - now apply NormalizeProps.dropwhile_Forall.
  - unfold lstrip, first_char. destruct (dropwhile is_dash s) as [|a r] eqn:E;
      [intros c; discriminate|].
    intros c H. injection H as <-. now apply dropwhile_head in E.
Qed.

Lemma clean_cut (s : str) (k : Z) :
  clean s -> clean (rstrip is_dash (slice_to s k)).
Proof.
  intros (Hs & Hf & _). unfold slice_to.
  assert (H : forall n, clean (rstrip is_dash (firstn n s))).
  { intros n. apply clean_rstrip; [now apply firstn_Forall|].
    destruct n as [|n]; [intros c; discriminate|].
    destruct s as [|a r]; [intros c; discriminate|]. exact Hf. }
  destruct (k <? 0)%Z; apply H.
Qed.

Lemma clean_entry : clean (lit "entry").
Proof.
  split; [|split].
  - repeat constructor.
  - intros c H. injection H as <-. reflexivity.
  - intros c H. injection H as <-. reflexivity.
Qed.

Lemma slice_to_length_le {A} (l : list A) (k : Z) :
  (0 <= k)%Z -> (Z.of_nat (List.length (slice_to l k)) <= k)%Z.
Proof. apply GeneratorProps.slice_to_length. Qed.

(** X17.  A slug is never empty, consists of the characters [a-z], [0-9]
    and [-] only, and neither begins nor ends with [-], whatever the text
    and the length asked for; for a non-negative [max_length] it has at
    most [max(max_length, 5)] characters (40 by default). *)
Theorem slugify_text_safe (U : UnicodeDB) (nfkd : str -> str) (text : value)
    (max_length : Z) :
  let slug := slugify_text nfkd text max_length in
  slug <> [] /\
  Forall slug_char slug /\
  (forall c, first_char slug = Some c -> c <> 45%N) /\
  (forall c, last_char slug = Some c -> c <> 45%N) /\
  ((0 <= max_length)%Z ->
   (Z.of_nat (List.length slug) <= Z.max max_length 5)%Z).
Proof.
  intros slug.
  assert (Hfinal : forall s, clean s ->
            let r := if is_empty s then lit "entry" else s in
            r <> [] /\ Forall slug_char r /\
            (forall c, first_char r = Some c -> c <> 45%N) /\
            (forall c, last_char r = Some c -> c <> 45%N)).
  { intros s Hs r.
    assert (Hr : r <> [] /\ clean r).
    { unfold r. destruct s; simpl; [split; [discriminate|apply clean_entry]|].
      split; [discriminate|exact Hs]. }
    destruct Hr as (Hne & Hc & Hf & Hl). repeat split; auto.
    - intros c H. apply Hf in H. now apply N.eqb_neq.
    - intros c H. apply Hl in H. now apply N.eqb_neq. }
  unfold slug, slugify_text. destruct text as [text|].
  2:{ destruct (Hfinal (lit "entry") clean_entry) as (H1 & H2 & H3 & H4).
      simpl in H1, H2, H3, H4. repeat split; auto. simpl. lia. }
  set (n0 := rstrip is_dash (lstrip is_dash _)).
  assert (H0 : clean n0) by (apply clean_strip, sub_runs_slug).
  set (n1 := if is_empty n0 then lit "entry" else n0).
  assert (H1 : clean n1).
  { unfold n1. destruct (is_empty n0); [apply clean_entry|exact H0]. }
  set (n2 := if (max_length <? Z.of_nat (List.length n1))%Z
             then rstrip is_dash (slice_to n1 max_length) else n1).
  assert (H2 : clean n2).
  { unfold n2. destruct (max_length <? _)%Z; [now apply clean_cut|exact H1]. }
  destruct (Hfinal n2 H2) as (F1 & F2 & F3 & F4).
  split; [exact F1|]. split; [exact F2|]. split; [exact F3|]. split; [exact F4|].
  intros Hmax.
  assert (Hlen : (Z.of_nat (List.length n2) <= max_length)%Z).
  { unfold n2. destruct (Z.ltb_spec max_length (Z.of_nat (List.length n1))); [|lia].
    pose proof (rstrip_length is_dash (slice_to n1 max_length)).
    pose proof (slice_to_length_le n1 max_length Hmax). lia. }
  destruct n2; simpl is_empty; cbv iota; [simpl; lia|lia].
Qed.

(** ** Sentences *)

Section WithDB.
Context {U : UnicodeDB}.

(** A sentence text is stripped: no whitespace at either end. *)
Lemma strip_ends (s : str) :
  (forall c, first_char (strip s) = Some c -> isspace c = false) /\
  (forall c, last_char (strip s) = Some c -> isspace c = false).
Proof.
  unfold strip. split.
  - destruct (lstrip isspace s) as [|a r] eqn:E; [intros c; discriminate|].
    pose proof (dropwhile_head _ _ _ _ E) as Ha.
    rewrite (rstrip_first isspace a r Ha). intros c H. now injection H as <-.
  - intros c. apply rstrip_last.
Qed.

Lemma sentence_text_stripped (segment : Sentence) :
  (forall c, first_char (sentence_text_of segment) = Some c -> isspace c = false) /\
  (forall c, last_char (sentence_text_of segment) = Some c -> isspace c = false).
Proof.
  unfold sentence_text_of, normalize_sentence_text.
  destruct (content segment) as [c|]; [destruct (negb (is_empty (strip c)))|];
    apply strip_ends.
Qed.

(** No two neighbours are the same sentence up to case. *)
Definition no_repeats (l : list str) : Prop :=
  forall before a b after, l = before ++ a :: b :: after -> lower a <> lower b.

(** The state of the loop: [previous_lower] is the lower-cased last
    sentence, every sentence is the non-empty text of a segment seen, and
    no sentence repeats its neighbour. *)
Definition loop_inv (seen : list (option Sentence)) (acc : option str * list str)
    : Prop :=
  (snd acc = [] /\ fst acc = None \/
   exists l a, snd acc = l ++ [a] /\ fst acc = Some (lower a)) /\
  (forall s, In s (snd acc) ->
     s <> [] /\ exists segment, In (Some segment) seen /\ sentence_text_of segment = s) /\
  no_repeats (snd acc).

Lemma no_repeats_snoc (l : list str) (a x : str) :
  no_repeats (l ++ [a]) -> lower a <> lower x -> no_repeats ((l ++ [a]) ++ [x]).
Proof.
  intros Hl Hax before p q after Heq.
  destruct (exists_last (l := p :: q :: after) ltac:(discriminate))
    as (front & z & Hz).
  destruct after as [|y after'].
  - replace (before ++ [p; q]) with ((before ++ [p]) ++ [q]) in Heq
      by (rewrite <- app_assoc; reflexivity).
    apply app_inj_tail in Heq. destruct Heq as [Heq <-].
    apply app_inj_tail in Heq. destruct Heq as [_ <-]. exact Hax.
  - destruct (exists_last (l := y :: after') ltac:(discriminate))
      as (mid & z' & Hmid).
    rewrite Hmid in Heq.
    replace (before ++ p :: q :: mid ++ [z'])
      with ((before ++ p :: q :: mid) ++ [z']) in Heq
      by (rewrite <- app_assoc; reflexivity).
    apply app_inj_tail in Heq. destruct Heq as [Heq _].
    eapply Hl. exact Heq.
Qed.

Lemma no_repeats_single (x : str) : no_repeats [x].
Proof.
  intros before a b after H.
  apply (f_equal (@List.length str)) in H. rewrite length_app in H.
  simpl in H. lia.
Qed.

Lemma extract_step_inv (seen : list (option Sentence)) (acc : option str * list str)
    (segment : option Sentence) :
  loop_inv seen acc -> loop_inv (seen ++ [segment]) (extract_step acc segment).
Proof.
  intros (Hlast & Hsrc & Hrep).
  assert (Hkeep : loop_inv (seen ++ [segment]) acc).
  { split; [exact Hlast|]. split; [|exact Hrep].
    intros s Hs. destruct (Hsrc s Hs) as (Hne & seg & Hin & Ht).
    split; [exact Hne|]. exists seg. split; [apply in_or_app; now left|exact Ht]. }
  destruct acc as [previous_lower sentences_list]. unfold extract_step.
  destruct segment as [segment|]; [|exact Hkeep].
  destruct (is_empty (sentence_text_of segment)) eqn:Ee; [exact Hkeep|].
  assert (Hne : sentence_text_of segment <> [])
    by (destruct (sentence_text_of segment); [discriminate|discriminate]).
  assert (Hadd : forall s, In s (sentences_list ++ [sentence_text_of segment]) ->
            s <> [] /\
            exists seg, In (Some seg) (seen ++ [Some segment]) /\
                        sentence_text_of seg = s).
  { intros s Hs. apply in_app_or in Hs. destruct Hs as [Hs|[<-|[]]].
    - destruct (Hsrc s Hs) as (Hn & seg & Hin & Ht).
      split; [exact Hn|]. exists seg. split; [apply in_or_app; now left|exact Ht].
    - split; [exact Hne|]. exists segment.
      split; [apply in_or_app; right; now left|reflexivity]. }
  simpl in Hlast, Hrep.
  destruct Hlast as [[Hnil Hprev]|(l & a & Hl & Hprev)]; simpl in Hprev; subst.
  - split; [|split; [exact Hadd|]]; simpl.
    + right. exists [], (sentence_text_of segment). auto.
    + apply no_repeats_single.
  - destruct (str_eqb (lower a) (lower (sentence_text_of segment))) eqn:Eq;
      [exact Hkeep|].
    split; [|split; [exact Hadd|]]; simpl.
    + right. exists (l ++ [a]), (sentence_text_of segment). auto.
    + apply no_repeats_snoc; [exact Hrep|].
      intros H. rewrite H, str_eqb_refl in Eq. discriminate.
Qed.

Lemma extract_loop_inv (segments : list (option Sentence)) :
  forall seen acc, loop_inv seen acc ->
  loop_inv (seen ++ segments) (fold_left extract_step segments acc).
Proof.
  induction segments as [|s r IH]; intros seen acc H; simpl.
  - now rewrite app_nil_r.
  - replace (seen ++ s :: r) with ((seen ++ [s]) ++ r)
      by (rewrite <- app_assoc; reflexivity).
    apply IH. now apply extract_step_inv.
Qed.

End WithDB.

(** X18.  The sentences extracted from a transcript are non-empty texts of
    its segments, in their order without whitespace at either end, and no
    sentence is followed by the same sentence up to case. *)
Theorem extract_sentences_spec (U : UnicodeDB) (segments : list (option Sentence)) :
  let sentences := extract_sentences_from_segments segments in
  (forall s, In s sentences ->
     s <> [] /\
     (forall c, first_char s = Some c -> isspace c = false) /\
     (forall c, last_char s = Some c -> isspace c = false) /\
     exists segment, In (Some segment) segments /\ sentence_text_of segment = s) /\
  no_repeats sentences.
Proof.
  intros sentences.
  destruct (extract_loop_inv segments [] (None, [])) as (_ & Hsrc & Hrep).
  { split; [left; auto|]. split; [intros s []|].
    intros before a b after H. destruct before; discriminate. }
  split; [|exact Hrep].
  intros s Hs. destruct (Hsrc s Hs) as (Hne & seg & Hin & Ht).
  destruct (sentence_text_stripped seg) as [Hf Hl]. rewrite Ht in Hf, Hl.
  repeat split; auto. exists seg. auto.
Qed.

(** The slug of a phrase and the sentences of a transcript that says
    "Hello world." twice in a row. *)
Example slug_and_sentences :
  @slugify_text UCD.db UCD.decompose (VStr (lit "sentence-Hello, World!")) 40 =
    lit "sentence-hello-world" /\
  @slugify_text UCD.db UCD.decompose (VStr (lit "--")) 40 = lit "entry" /\
  @extract_sentences_from_segments UCD.db
    [ Some {| content := VStr (lit "  Hello   world. ");
              words := [] |};
      None;
      Some {| content := VStr (lit "hello world.");
              words := [] |};
      Some {| content := VOther;
              words := [MatchExamples.w " Good " 0 1; MatchExamples.w "bye." 1 2] |} ] =
    [lit "Hello world."; lit "Good bye."].
Proof. vm_compute. repeat split. Qed.

End TextProps.

(* ================================================================== *)
(** * [find_and_export_longest_matches]: what is rendered             *)
(* ================================================================== *)

(** The function behind [/search] and [/search_longest_segments], from
    its cache check to the list of tasks it hands to the pool (lines
    3038-3246), for [export_clips=True]. *)
Module PhraseExport.
Import MatchFinder Aggregator ClipCache.

(** [file_match_dict[filename].append(match)], the dict in insertion
    order. *)
Fixpoint file_dict_add (d : list FileMatches) (filename : str) (m : Match)
    : list FileMatches :=
  match d with
  | [] => [{| fm_file := filename; fm_matches := [m] |}]
  | e :: r =>
      if str_eqb (fm_file e) filename
      then {| fm_file := fm_file e; fm_matches := fm_matches e ++ [m] |} :: r
      else e :: file_dict_add r filename m
  end.

(** "Group back by file". *)
Definition regroup (segment_matches : list Item) : list FileMatches :=
  fold_left (fun d it => file_dict_add d (it_file it) (it_match it))
            segment_matches [].

(** The name of a clip file: [f"{clip_group_name}_{n:05d}.mp4"] for a
    counter [n], or a name taken from the cached list. *)
Inductive ClipName :=
| Numbered (n : nat)
| CachedName (name : str).

(** An element of [clip_metadata]; [cached] is the key ['cached']. *)
Record Meta := {
  clip_counter : nat;
  meta_filename : str;
  meta_match : Match;
  clip_filename : ClipName;
  cached : bool
}.

(** An element of [clip_tasks]. *)
Record ClipTask := {
  task_counter : nat;
  task_item : Item;
  task_clip : ClipName
}.

(** The variables of the loop that prepares the tasks. *)
Record Prep := {
  p_skip_export : bool;
  cached_clip_index : nat;
  global_clip_counter : nat;
  clip_tasks : list ClipTask;
  clip_metadata : list Meta
}.

Record Exported := {
  x_cache : CacheState;
  x_prep : Prep
}.

(** Whether the clip directory exists after [acts]. *)
Definition dir_after (isdir0 : bool) (acts : list Action) : bool :=
  fold_left (fun _ a => match a with Rmtree => false | Makedirs => true end)
            acts isdir0.

(** [sum(len(entry['matches']) for entry in collected_matches)] *)
Definition collected_total (collected_matches : list FileMatches) : nat :=
  list_sum (List.map (fun entry => List.length (fm_matches entry)) collected_matches).

(** Lines 3177-3187: the cache against the number of clips wanted. *)
Definition adjust_cache (isdir0 : bool) (c : CacheState) (total : nat) : CacheState :=
  if skip_export c && (List.length (cached_clip_files c) <? total)%nat then
    {| skip_export := false; cached_clip_files := [];
       actions := actions c ++ [Rmtree; Makedirs] |}
  else if negb (skip_export c) && negb (dir_after isdir0 (actions c)) then
    {| skip_export := skip_export c; cached_clip_files := cached_clip_files c;
       actions := actions c ++ [Makedirs] |}
  else if skip_export c then
    {| skip_export := true;
       cached_clip_files := firstn total (cached_clip_files c);
       actions := actions c |}
  else c.

Section WithDB.
Context {U : UnicodeDB}.

Variable load_transcript_sentences : str -> option (list Sentence).
Variable fs : Files.
(** [os.path.exists] of a cached clip when the loop reaches it. *)
Variable path_exists : str -> bool.

(** Lines 3098-3169: [collected_matches]. *)
Definition collect_matches (input_sentence : str) (filenames : list str)
    (min_silence max_silence : Q) (silence_word_threshold : Z)
    : list FileMatches :=
  let all_file_matches :=
    omap (search_file load_transcript_sentences input_sentence min_silence
            max_silence silence_word_threshold true true)
         filenames in
  let segment_groups := group_all all_file_matches in
  let sorted_segments := sorted_desc word_count (List.map fst segment_groups) in
  flat_map
    (fun segment =>
       regroup (firstn Response.MAX_CLIPS_PER_SEGMENT
                  (group_get segment_groups segment)))
    sorted_segments.

(** Lines 3195-3246: one pass of the inner loop. *)
Definition prepare_clip (cached_clip_files : list str) (filename : str)
    (st : Prep) (m : Match) : Prep :=
  let numbered := Numbered (global_clip_counter st) in
  let '(skip_export, index, clip_filename) :=
    if p_skip_export st then
      match nth_error cached_clip_files (cached_clip_index st) with
      | Some name => (path_exists name, S (cached_clip_index st), CachedName name)
      | None => (false, cached_clip_index st, numbered)
      end
    else (false, cached_clip_index st, numbered) in
  let meta c :=
    {| clip_counter := global_clip_counter st; meta_filename := filename;
       meta_match := m; clip_filename := clip_filename; cached := c |} in
  if negb skip_export then
    {| p_skip_export := skip_export;
       cached_clip_index := index;
       global_clip_counter := S (global_clip_counter st);
       clip_tasks :=
         clip_tasks st ++
         [{| task_counter := global_clip_counter st;
             task_item := {| it_file := filename; it_match := m |};
             task_clip := clip_filename |}];
       clip_metadata := clip_metadata st ++ [meta false] |}
  else
    {| p_skip_export := skip_export;
       cached_clip_index := index;
       global_clip_counter := S (global_clip_counter st);
       clip_tasks := clip_tasks st;
       clip_metadata := clip_metadata st ++ [meta true] |}.

(** The two loops over [collected_matches]. *)
Definition prepare (cached_clip_files : list str)
    (collected_matches : list FileMatches) (st : Prep) : Prep :=
  fold_left
    (fun st entry =>
       fold_left (prepare_clip cached_clip_files (fm_file entry))
                 (fm_matches entry) st)
    collected_matches st.

(** [find_and_export_longest_matches], up to the rendering. *)
Definition find_and_export_longest_matches (input_sentence : str)
    (filenames : list str) (min_silence max_silence : Q)
    (silence_word_threshold : Z) : Exported :=
  let silence_word_threshold := Z.max silence_word_threshold 1 in
  let cache :=
    check_cache fs filenames (Z.of_nat Response.MAX_CLIPS_PER_SEGMENT) in
  let collected_matches :=
    collect_matches input_sentence filenames min_silence max_silence
      silence_word_threshold in
  let cache := adjust_cache (isdir fs) cache (collected_total collected_matches) in
  {| x_cache := cache;
     x_prep :=
       prepare (cached_clip_files cache) collected_matches
         {| p_skip_export := skip_export cache; cached_clip_index := 0;
            global_clip_counter := 0; clip_tasks := []; clip_metadata := [] |} |}.

End WithDB.

End PhraseExport.

Module PhraseExportProps.
Import MatchFinder Aggregator ClipCache PhraseExport.

(** The clips wanted, in the order of the two loops: the file and the
    match of each. *)
Definition clips_of (collected_matches : list FileMatches) : list (str * Match) :=
  flat_map (fun entry => List.map (fun m => (fm_file entry, m)) (fm_matches entry))
           collected_matches.

Lemma clips_of_length (collected_matches : list FileMatches) :
  List.length (clips_of collected_matches) = collected_total collected_matches.
Proof.
  unfold clips_of, collected_total.
  induction collected_matches as [|e r IH]; simpl; [reflexivity|].
  now rewrite length_app, length_map, IH.
Qed.

Lemma fold_left_map {A B S} (f : S -> B -> S) (g : A -> B) (l : list A) :
  forall s, fold_left f (List.map g l) s = fold_left (fun s x => f s (g x)) l s.
Proof. induction l as [|a l IH]; intros s; simpl; [reflexivity|apply IH]. Qed.

Section WithDB.
Context {U : UnicodeDB}.
Variable path_exists : str -> bool.

Definition prepare_pair (cached_clip_files : list str) (st : Prep)
    (p : str * Match) : Prep :=
  prepare_clip path_exists cached_clip_files (fst p) st (snd p).

Lemma prepare_flat (cached_clip_files : list str)
    (collected_matches : list FileMatches) :
  forall st,
  prepare path_exists cached_clip_files collected_matches st =
  fold_left (prepare_pair cached_clip_files) (clips_of collected_matches) st.
Proof.
  unfold prepare, clips_of.
  induction collected_matches as [|e r IH]; intros st; simpl; [reflexivity|].
  rewrite fold_left_app, IH. f_equal. now rewrite fold_left_map.
Qed.

(** The task and the metadata of the [i]-th clip when it is rendered. *)
Definition rendered_task (i : nat) (p : str * Match) : ClipTask :=
  {| task_counter := i;
     task_item := {| it_file := fst p; it_match := snd p |};
     task_clip := Numbered i |}.

Definition rendered_meta (i : nat) (p : str * Match) : Meta :=
  {| clip_counter := i; meta_filename := fst p; meta_match := snd p;
     clip_filename := Numbered i; cached := false |}.

(** The metadata of the [i]-th clip when it is taken from the cache. *)
Definition cached_meta (i : nat) (p : str * Match) (name : str) : Meta :=
  {| clip_counter := i; meta_filename := fst p; meta_match := snd p;
     clip_filename := CachedName name; cached := true |}.

Fixpoint numbered_from {A B} (f : nat -> A -> B) (i : nat) (l : list A) : list B :=
  match l with
  | [] => []
  | x :: r => f i x :: numbered_from f (S i) r
  end.

Lemma numbered_from_length {A B} (f : nat -> A -> B) (l : list A) :
  forall i, List.length (numbered_from f i l) = List.length l.
Proof. induction l as [|x r IH]; intros i; simpl; [reflexivity|now rewrite IH]. Qed.

Lemma numbered_from_map {A B C} (g : B -> C) (f : nat -> A -> B) (h : nat -> C)
    (l : list A) :
  (forall i x, g (f i x) = h i) ->
  forall i, List.map g (numbered_from f i l) = List.map h (seq i (List.length l)).
Proof.
  intros H. induction l as [|x r IH]; intros i; simpl; [reflexivity|].
  now rewrite H, IH.
Qed.

(** Once [skip_export] is off, every clip becomes a task with a numbered
    file. *)
Lemma prepare_rendering (cached_clip_files : list str) (clips : list (str * Match)) :
  forall st, p_skip_export st = false ->
  let r := fold_left (prepare_pair cached_clip_files) clips st in
  p_skip_export r = false /\
  clip_tasks r =
    clip_tasks st ++ numbered_from rendered_task (global_clip_counter st) clips /\
  clip_metadata r =
    clip_metadata st ++ numbered_from rendered_meta (global_clip_counter st) clips.
Proof.
  induction clips as [|p clips IH]; intros st Hs; simpl.
  - now rewrite !app_nil_r.
  - set (st1 := prepare_pair cached_clip_files st p).
    assert (H1 : p_skip_export st1 = false /\
                 global_clip_counter st1 = S (global_clip_counter st) /\
                 clip_tasks st1 =
                   clip_tasks st ++ [rendered_task (global_clip_counter st) p] /\
                 clip_metadata st1 =
                   clip_metadata st ++ [rendered_meta (global_clip_counter st) p]).
    { unfold st1, prepare_pair, prepare_clip. rewrite Hs. simpl. auto. }
    destruct H1 as (Hs1 & Hc1 & Ht1 & Hm1).
    destruct (IH st1 Hs1) as (Hr & Ht & Hm).
    rewrite Hc1, Ht1, Hm1, <- !app_assoc in *. simpl in Ht, Hm. auto.
Qed.

(** While the cached files are there, every clip is taken from the cache. *)
Lemma prepare_reusing (cached_clip_files : list str) (clips : list (str * Match)) :
  (forall name, In name cached_clip_files -> path_exists name = true) ->
  forall st, p_skip_export st = true ->
  (cached_clip_index st + List.length clips <= List.length cached_clip_files)%nat ->
  let r := fold_left (prepare_pair cached_clip_files) clips st in
  p_skip_export r = true /\
  clip_tasks r = clip_tasks st /\
  List.map cached (clip_metadata r) =
    List.map cached (clip_metadata st) ++ repeat true (List.length clips) /\
  List.map clip_filename (clip_metadata r) =
    List.map clip_filename (clip_metadata st) ++
    List.map CachedName
      (firstn (List.length clips) (skipn (cached_clip_index st) cached_clip_files)) /\
  List.map clip_counter (clip_metadata r) =
    List.map clip_counter (clip_metadata st) ++
    seq (global_clip_counter st) (List.length clips).
Proof.
  intros Hex. induction clips as [|p clips IH]; intros st Hs Hlen; simpl.
  - now rewrite !app_nil_r.
  - simpl in Hlen.
    destruct (nth_error cached_clip_files (cached_clip_index st)) as [name|] eqn:En.
    2:{ apply nth_error_None in En. lia. }
    assert (Hname : path_exists name = true).
    { apply Hex. eapply nth_error_In. exact En. }
    set (st1 := prepare_pair cached_clip_files st p).
    assert (H1 : p_skip_export st1 = true /\
                 cached_clip_index st1 = S (cached_clip_index st) /\
                 global_clip_counter st1 = S (global_clip_counter st) /\
                 clip_tasks st1 = clip_tasks st /\
                 clip_metadata st1 =
                   clip_metadata st ++
                   [cached_meta (global_clip_counter st) p name]).
    { unfold st1, prepare_pair, prepare_clip. rewrite Hs, En, Hname. simpl. auto. }
    destruct H1 as (Hs1 & Hi1 & Hc1 & Ht1 & Hm1).
    destruct (IH st1 Hs1) as (Hr & Ht & Hc & Hf & Hn); [lia|].
    rewrite Hi1, Hc1, Ht1, Hm1 in *.
    rewrite !map_app, <- !app_assoc in *. simpl in Hc, Hf, Hn.
    split; [exact Hr|]. split; [exact Ht|]. split; [exact Hc|].
    split; [|exact Hn].
    rewrite Hf. do 2 f_equal.
    clear - En. revert En. generalize (cached_clip_index st) as i.
    induction cached_clip_files as [|c cs IHc]; intros [|i] En; simpl in *;
      try discriminate.
    + injection En as ->. reflexivity.
    + now apply IHc.
Qed.

End WithDB.

Lemma present_is_file {U : UnicodeDB} (fs : Files) (filenames : list str) (max : Z)
    (name : str) :
  (0 <= max)%Z ->
  In name (cached_clip_files (check_cache fs filenames max)) ->
  isfile fs name = true.
Proof.
  intros Hmax Hin.
  destruct (ClipCacheProps.check_cache_cases fs filenames max Hmax)
    as [(_ & _ & _ & _ & _ & Hc & _)|(_ & _ & Hc & _)]; rewrite Hc in Hin;
    [|contradiction].
  apply GeneratorProps.slice_to_incl in Hin.
  now destruct (ClipCacheInvariants.verified_clips_present fs name Hin).
Qed.

(** What the function has got ready when the rendering starts. *)
Definition outcome_of {U : UnicodeDB} (load : str -> option (list Sentence))
    (fs : Files) (path_exists : str -> bool) (input : str) (filenames : list str)
    (lo hi : Q) (thr : Z) : Prep :=
  x_prep (find_and_export_longest_matches load fs path_exists input filenames
            lo hi thr).

(** The clips that a search wants. *)
Definition wanted {U : UnicodeDB} (load : str -> option (list Sentence))
    (input : str) (filenames : list str) (lo hi : Q) (thr : Z)
    : list (str * Match) :=
  clips_of (collect_matches load input filenames lo hi (Z.max thr 1)).

(** X19.  As long as the clip files that the cache check found are still
    there when the tasks are prepared, a search reuses every clip or
    renders every clip.  It reuses them exactly when the check decided to
    reuse and found at least as many clip files as clips are wanted; then
    no task is created and the clips are the first cached files, in
    order.  Otherwise every wanted clip becomes a task, numbered from 0 in
    the order of the search. *)
Theorem export_reuses_all_or_nothing (U : UnicodeDB)
    (load : str -> option (list Sentence)) (fs : Files)
    (path_exists : str -> bool) (input : str) (filenames : list str)
    (lo hi : Q) (thr : Z) :
  (forall name, isfile fs name = true -> path_exists name = true) ->
  let r := outcome_of load fs path_exists input filenames lo hi thr in
  let clips := wanted load input filenames lo hi thr in
  let checked := check_cache fs filenames 25 in
  List.map clip_counter (clip_metadata r) = seq 0 (List.length clips) /\
  (skip_export checked = true /\
   (List.length clips <= List.length (cached_clip_files checked))%nat ->
   clip_tasks r = [] /\
   List.map clip_filename (clip_metadata r) =
     List.map CachedName (firstn (List.length clips) (cached_clip_files checked))) /\
  (skip_export checked = false \/
   (List.length (cached_clip_files checked) < List.length clips)%nat ->
   clip_tasks r = numbered_from rendered_task 0 clips /\
   clip_metadata r = numbered_from rendered_meta 0 clips).
Proof.
  intros Hex r clips checked.
  unfold r, outcome_of, find_and_export_longest_matches. simpl x_prep.
  change (Z.of_nat Response.MAX_CLIPS_PER_SEGMENT) with 25%Z. fold checked.
  rewrite prepare_flat. fold (wanted load input filenames lo hi thr). fold clips.
  rewrite <- clips_of_length.
  fold (wanted load input filenames lo hi thr). fold clips.
  unfold adjust_cache.
  destruct (skip_export checked) eqn:Es.
  - destruct (Nat.ltb_spec (List.length (cached_clip_files checked))
                (List.length clips)) as [Hlt|Hge]; simpl andb; cbv iota.
    + (* too few cached files *)
      simpl skip_export. simpl cached_clip_files.
      destruct (prepare_rendering path_exists [] clips
                  {| p_skip_export := false; cached_clip_index := 0;
                     global_clip_counter := 0; clip_tasks := [];
                     clip_metadata := [] |} eq_refl) as (_ & Ht & Hm).
      simpl in Ht, Hm. rewrite Ht, Hm. split; [|split].
      * rewrite (numbered_from_map clip_counter rendered_meta (fun i => i))
          by reflexivity.
        apply map_id.
      * intros [_ H]. lia.
      * auto.
    + (* every clip is in the cache *)
      simpl skip_export. simpl cached_clip_files.
      set (cached_list := firstn (List.length clips) (cached_clip_files checked)).
      assert (Hall : forall name, In name cached_list -> path_exists name = true).
      { intros name Hin. apply Hex. apply GeneratorProps.firstn_incl in Hin.
        eapply (present_is_file fs filenames 25); [lia|exact Hin]. }
      assert (Hlen : List.length cached_list = List.length clips).
      { unfold cached_list. rewrite length_firstn. lia. }
      destruct (prepare_reusing path_exists cached_list clips Hall
                  {| p_skip_export := true; cached_clip_index := 0;
                     global_clip_counter := 0; clip_tasks := [];
                     clip_metadata := [] |} eq_refl)
        as (_ & Ht & _ & Hf & Hn); [simpl; lia|].
      simpl in Ht, Hf, Hn. split; [exact Hn|]. split.
      * intros _. split; [exact Ht|]. rewrite Hf. f_equal.
        rewrite <- Hlen. apply firstn_all.
      * intros [H|H]; [discriminate|lia].
  - simpl andb. cbv iota.
    assert (Hprep : forall c, skip_export c = false ->
              let r' := fold_left (prepare_pair path_exists (cached_clip_files c))
                          clips
                          {| p_skip_export := skip_export c; cached_clip_index := 0;
                             global_clip_counter := 0; clip_tasks := [];
                             clip_metadata := [] |} in
              clip_tasks r' = numbered_from rendered_task 0 clips /\
              clip_metadata r' = numbered_from rendered_meta 0 clips).
    { intros c Hc. rewrite Hc.
      destruct (prepare_rendering path_exists (cached_clip_files c) clips
                  {| p_skip_export := false; cached_clip_index := 0;
                     global_clip_counter := 0; clip_tasks := [];
                     clip_metadata := [] |} eq_refl) as (_ & Ht & Hm).
      simpl in Ht, Hm. auto. }
    match goal with |- context [fold_left _ clips
                                  {| p_skip_export := skip_export ?c |}] =>
      destruct (Hprep c) as [Ht Hm]
    end.
    { destruct (negb (dir_after (isdir fs) (actions checked))); simpl; auto. }
    rewrite Ht, Hm. split; [|split].
    + rewrite (numbered_from_map clip_counter rendered_meta (fun i => i))
        by reflexivity.
      apply map_id.
    + intros [H _]. discriminate.
    + auto.
Qed.

(** X20.  The cache is cut to 25 files and compared with the number of all
    wanted clips, of which there are up to 25 for each span of the phrase:
    a search that wants more than 25 clips never reuses one, it renders
    them all again and purges the clip directory if the check had decided
    to reuse. *)
Theorem export_large_search_rerenders (U : UnicodeDB)
    (load : str -> option (list Sentence)) (fs : Files)
    (path_exists : str -> bool) (input : str) (filenames : list str)
    (lo hi : Q) (thr : Z) :
  (25 < List.length (wanted load input filenames lo hi thr))%nat ->
  let x := find_and_export_longest_matches load fs path_exists input filenames
             lo hi thr in
  clip_tasks (x_prep x) =
    numbered_from rendered_task 0 (wanted load input filenames lo hi thr) /\
  skip_export (x_cache x) = false /\
  (skip_export (check_cache fs filenames 25) = true ->
   In Rmtree (actions (x_cache x))).
Proof.
  intros Hbig x. subst x.
  unfold find_and_export_longest_matches. simpl x_prep. simpl x_cache.
  change (Z.of_nat Response.MAX_CLIPS_PER_SEGMENT) with 25%Z.
  set (checked := check_cache fs filenames 25).
  rewrite prepare_flat. fold (wanted load input filenames lo hi thr).
  rewrite <- clips_of_length. fold (wanted load input filenames lo hi thr).
  set (clips := wanted load input filenames lo hi thr) in *.
  assert (Hcap : (List.length (cached_clip_files checked) <= 25)%nat).
  { destruct (ClipCacheProps.check_cache_cases fs filenames 25 ltac:(lia))
      as [(_ & _ & _ & _ & _ & Hc & _)|(_ & _ & Hc & _)]; fold checked in Hc;
      rewrite Hc; [|simpl; lia].
    pose proof (GeneratorProps.slice_to_length
                  (ClipCacheProps.verified_clips fs) 25 ltac:(lia)). lia. }
  unfold adjust_cache.
  destruct (skip_export checked) eqn:Es.
  - destruct (Nat.ltb_spec (List.length (cached_clip_files checked))
                (List.length clips)) as [Hlt|Hge]; [|lia].
    simpl andb. cbv iota. simpl skip_export. simpl cached_clip_files.
    simpl actions.
    destruct (prepare_rendering path_exists [] clips
                {| p_skip_export := false; cached_clip_index := 0;
                   global_clip_counter := 0; clip_tasks := [];
                   clip_metadata := [] |} eq_refl) as (_ & Ht & _).
    simpl in Ht. split; [exact Ht|]. split; [reflexivity|].
    intros _. apply in_or_app. right. now left.
  - simpl andb. cbv iota.
    assert (Hs : forall cached_list,
              clip_tasks
                (fold_left (prepare_pair path_exists cached_list) clips
                   {| p_skip_export := false; cached_clip_index := 0;
                      global_clip_counter := 0; clip_tasks := [];
                      clip_metadata := [] |}) =
              numbered_from rendered_task 0 clips).
    { intros cached_list.
      destruct (prepare_rendering path_exists cached_list clips
                  {| p_skip_export := false; cached_clip_index := 0;
                     global_clip_counter := 0; clip_tasks := [];
                     clip_metadata := [] |} eq_refl) as (_ & Ht & _).
      exact Ht. }
    destruct (negb (dir_after (isdir fs) (actions checked))); simpl; rewrite ?Es;
      (split; [apply Hs|split; [reflexivity|discriminate]]).
Qed.

(** ** Examples *)

(** A transcript that says "a b" thirteen times, a word a second. *)
Definition a_b_thirteen_times : str -> option (list Sentence) :=
  fun _ =>
    Some [ {| content := VStr (lit "a b");
              words :=
                flat_map
                  (fun i =>
                     let t := inject_Z (Z.of_nat (2 * i)) in
                     [MatchExamples.w "a" t (t + 1);
                      MatchExamples.w "b" (t + 1) (t + 2)])
                  (seq 0 13) |} ].

(** A clip directory left by an earlier search of [v.mp4], with three
    clips. *)
Definition three_clips : Files :=
  {| stored_source_files := Some [lit "v.mp4"];
     isdir := true;
     listdir := Some [lit "c_00002.mp4"; lit "c_00000.mp4"; lit "metadata.json";
                      lit "c_00001.mp4"];
     isfile := fun _ => true |}.

(** "hello world" wants three clips (for "hello world", "hello" and
    "world"); with three cached clips nothing is rendered. *)
Example three_clips_are_reused :
  let r := @outcome_of UCD.db GeneratorExamples.one_video three_clips
             (fun _ => true) (lit "hello world") [lit "v.mp4"] 0 10 2 in
  List.map (fun p => segment (snd p))
    (@wanted UCD.db GeneratorExamples.one_video (lit "hello world")
       [lit "v.mp4"] 0 10 2) =
    [lit "hello world"; lit "hello"; lit "world"] /\
  clip_tasks r = [] /\
  List.map clip_filename (clip_metadata r) =
    [CachedName (lit "c_00000.mp4"); CachedName (lit "c_00001.mp4");
     CachedName (lit "c_00002.mp4")].
Proof. vm_compute. repeat split. Qed.

(** The theorem at that search. *)
Lemma export_reuses_all_or_nothing_witness :
  let r := @outcome_of UCD.db GeneratorExamples.one_video three_clips
             (fun _ => true) (lit "hello world") [lit "v.mp4"] 0 10 2 in
  let clips := @wanted UCD.db GeneratorExamples.one_video (lit "hello world")
                 [lit "v.mp4"] 0 10 2 in
  let checked := @check_cache UCD.db three_clips [lit "v.mp4"] 25 in
  List.map clip_counter (clip_metadata r) = seq 0 (List.length clips) /\
  (skip_export checked = true /\
   (List.length clips <= List.length (cached_clip_files checked))%nat ->
   clip_tasks r = [] /\
   List.map clip_filename (clip_metadata r) =
     List.map CachedName (firstn (List.length clips) (cached_clip_files checked))) /\
  (skip_export checked = false \/
   (List.length (cached_clip_files checked) < List.length clips)%nat ->
   clip_tasks r = numbered_from rendered_task 0 clips /\
   clip_metadata r = numbered_from rendered_meta 0 clips).
Proof.
  apply (export_reuses_all_or_nothing UCD.db GeneratorExamples.one_video
           three_clips (fun _ => true) (lit "hello world") [lit "v.mp4"] 0 10 2).
  intros name _. reflexivity.
Defined.

(** The theorem at a search for "a b" in [a_b_thirteen_times], which wants
    39 clips. *)
Lemma export_large_search_rerenders_witness :
  let x := @find_and_export_longest_matches UCD.db a_b_thirteen_times three_clips
             (fun _ => true) (lit "a b") [lit "v.mp4"] 0 10 2 in
  clip_tasks (x_prep x) =
    numbered_from rendered_task 0
      (@wanted UCD.db a_b_thirteen_times (lit "a b") [lit "v.mp4"] 0 10 2) /\
  skip_export (x_cache x) = false /\
  (skip_export (@check_cache UCD.db three_clips [lit "v.mp4"] 25) = true ->
   In Rmtree (actions (x_cache x))).
Proof.
  apply (export_large_search_rerenders UCD.db a_b_thirteen_times three_clips
           (fun _ => true) (lit "a b") [lit "v.mp4"] 0 10 2).
  apply Nat.ltb_lt. vm_compute. reflexivity.
Defined.

End PhraseExportProps.

(* ================================================================== *)
(** * srt_word_boundaries.py: alignment and interpolation             *)
(* ================================================================== *)

(** [match_words], [fill_range] and [interpolate_word_times] of
    [srt_word_boundaries.py].  A word is looked at through its [norm]; the
    similarity ratio of [difflib.SequenceMatcher] is a parameter. *)
Module Alignment.
Import MatchFinder.

Definition FUZZY_RATIO_THRESHOLD : Q := 0.82.

Section Matching.
(** [SequenceMatcher(None, a, b).ratio()] *)
Variable ratio : str -> str -> Q.

(** The loop over [cand_idx]: the candidates left, with their indices. *)
Fixpoint scan (norm : str) (candidates : list (nat * str))
    (best_idx : option nat) (best_score : Q) : option nat :=
  match candidates with
  | [] => best_idx
  | (cand_idx, candidate) :: rest =>
      if str_eqb norm candidate then Some cand_idx
      else
        let score := ratio norm candidate in
        if Qle_bool FUZZY_RATIO_THRESHOLD score && negb (Qle_bool score best_score)
        then scan norm rest (Some cand_idx) score
        else scan norm rest best_idx best_score
  end.

(** The candidates of [range(pointer, search_limit)]. *)
Definition candidates_from (asr_window : list str) (search_window : Z)
    (pointer : nat) : list (nat * str) :=
  let asr_len := Z.of_nat (List.length asr_window) in
  let search_limit := Z.min asr_len (Z.of_nat pointer + Z.max search_window 1) in
  let count := Z.to_nat (search_limit - Z.of_nat pointer) in
  combine (seq pointer count) (firstn count (skipn pointer asr_window)).

(** The loop over [enumerate(srt_words)]; the mapping is the list of its
    items, in insertion order. *)
Fixpoint match_from (asr_window : list str) (search_window : Z)
    (srt_idx pointer : nat) (srt_words : list str) : list (nat * nat) :=
  match srt_words with
  | [] => []
  | srt_word :: rest =>
      match scan srt_word (candidates_from asr_window search_window pointer)
              None 0 with
      | Some best_idx =>
          (srt_idx, best_idx) ::
          match_from asr_window search_window (S srt_idx) (S best_idx) rest
      | None => match_from asr_window search_window (S srt_idx) pointer rest
      end
  end.

(** [match_words(srt_words, asr_window, search_window)] *)
Definition match_words (srt_words asr_window : list str) (search_window : Z)
    : list (nat * nat) :=
  match_from asr_window search_window 0 0 srt_words.

End Matching.

(** ** Interpolation *)

(** A list of [Optional[Tuple[float, float]]]. *)
Definition Times := list (option (Q * Q)).

(** The position that a Python index denotes in a list, [None] for an
    [IndexError]. *)
Definition py_index {A} (l : list A) (i : Z) : option nat :=
  let n := Z.of_nat (List.length l) in
  if ((0 <=? i) && (i <? n))%Z then Some (Z.to_nat i)
  else if ((- n <=? i) && (i <? 0))%Z then Some (Z.to_nat (n + i))
  else None.

(** [l[i] = v] *)
Definition list_set {A} (l : list A) (i : Z) (v : A) : option (list A) :=
  match py_index l i with
  | Some k => Some (GpuPermit.set_nth l k v)
  | None => None
  end.

(** [l[i]] *)
Definition list_get {A} (l : list A) (i : Z) : option A :=
  match py_index l i with
  | Some k => nth_error l k
  | None => None
  end.

(** The loop of [fill_range] over [range(start_idx, end_idx + 1)], [count]
    indices from [idx] on. *)
Fixpoint fill_loop (target : Times) (idx : Z) (count : nat) (current step : Q)
    : option Times :=
  match count with
  | O => Some target
  | S k =>
      let next_time := current + step in
      let next_time := if negb (Qle_bool current next_time) then current else next_time in
      match list_set target idx (Some (current, next_time)) with
      | Some target => fill_loop target (idx + 1) k next_time step
      | None => None
      end
  end.

(** [fill_range(target, start_idx, end_idx, interval_start, interval_end)]:
    the list after the call, [None] when the call raises. *)
Definition fill_range (target : Times) (start_idx end_idx : Z)
    (interval_start interval_end : Q) : option Times :=
  if (end_idx <? start_idx)%Z then Some target
  else
    let interval_end :=
      if negb (Qle_bool interval_start interval_end) then interval_start
      else interval_end in
    let count := (end_idx - start_idx + 1)%Z in
    if (count <=? 0)%Z then Some target
    else
      let step := (interval_end - interval_start) / inject_Z count in
      match fill_loop target start_idx (Z.to_nat count) interval_start step with
      | None => None
      | Some target =>
          match list_get target end_idx with
          | None => None
          | Some None => Some target
          | Some (Some (start_val, end_val)) =>
              list_set target end_idx
                (Some (start_val, py_max end_val interval_end))
          end
      end.

(** [[idx for idx, value in enumerate(l) if value is not None]] *)
Fixpoint known_from (i : nat) (l : Times) : list nat :=
  match l with
  | [] => []
  | Some _ :: r => i :: known_from (S i) r
  | None :: r => known_from (S i) r
  end.

(** The first loop of [interpolate_word_times], over [known_indices]. *)
Fixpoint place_known (known_times : Times) (segment_start segment_end : Q)
    (known_indices : list nat) (result : Times) : option Times :=
  match known_indices with
  | [] => Some result
  | idx :: rest =>
      match nth_error known_times idx with
      | Some (Some (s, e)) =>
          let s := py_max segment_start s in
          let e := Render.py_min segment_end e in
          let e := if negb (Qle_bool s e) then s else e in
          match list_set result (Z.of_nat idx) (Some (s, e)) with
          | Some result =>
              place_known known_times segment_start segment_end rest result
          | None => None
          end
      | _ => None
      end
  end.

(** The loop over [zip(known_indices, known_indices[1:])]. *)
Fixpoint fill_between (pairs : list (nat * nat)) (result : Times) : option Times :=
  match pairs with
  | [] => Some result
  | (left_idx, right_idx) :: rest =>
      match nth_error result left_idx, nth_error result right_idx with
      | Some (Some (_, left_end)), Some (Some (right_start, _)) =>
          match fill_range result (Z.of_nat left_idx + 1) (Z.of_nat right_idx - 1)
                  left_end right_start with
          | Some result => fill_between rest result
          | None => None
          end
      | _, _ => None
      end
  end.

(** The last line: a default for what is still [None]. *)
Definition finish (segment_start : Q) (result : Times) : list (Q * Q) :=
  List.map (fun value => match value with
                         | Some v => v
                         | None => (segment_start, segment_start)
                         end) result.

(** [interpolate_word_times(known_times, segment_start, segment_end)];
    [None] when it raises. *)
Definition interpolate_word_times (known_times : Times)
    (segment_start segment_end : Q) : option (list (Q * Q)) :=
  let n := List.length known_times in
  let result : Times := repeat None n in
  let known_indices := known_from 0 known_times in
  match known_indices with
  | [] =>
      match fill_range result 0 (Z.of_nat n - 1) segment_start segment_end with
      | Some result => Some (finish segment_start result)
      | None => None
      end
  | first_known :: later =>
      match place_known known_times segment_start segment_end known_indices result with
      | None => None
      | Some result =>
          let after_first :=
            if (0 <? first_known)%nat then
              match nth_error result first_known with
              | Some (Some (first_start, _)) =>
                  fill_range result 0 (Z.of_nat first_known - 1)
                    segment_start first_start
              | _ => None
              end
            else Some result in
          match after_first with
          | None => None
          | Some result =>
              match fill_between (combine known_indices later) result with
              | None => None
              | Some result =>
                  let last_known := last known_indices first_known in
                  let after_last :=
                    if (Z.of_nat last_known <? Z.of_nat n - 1)%Z then
                      match nth_error result last_known with
                      | Some (Some (_, last_end)) =>
                          fill_range result (Z.of_nat last_known + 1)
                            (Z.of_nat n - 1) last_end segment_end
                      | _ => None
                      end
                    else Some result in
                  match after_last with
                  | None => None
                  | Some result => Some (finish segment_start result)
                  end
              end
          end
      end
  end.

(** ** Entries of a cue *)

(** [SRTWord], [ASRWord] and the dict of a word in the output. *)
Record SRTWord := { w_text : str; w_norm : str }.
Record ASRWord := { a_text : str; a_norm : str; a_start : Q; a_end : Q; a_conf : Q }.
Record WordEntry := { e_word : str; e_start : Q; e_end : Q; e_conf : Q }.

(** What the first loop of [build_entries_from_alignment] updates. *)
Record Known := { known_times : Times; confs : list Q; matched : nat }.

Section Entries.
(** [round(x, 6)] *)
Variable round6 : Q -> Q.

(** One item of [mapping.items()]; [None] when the body raises. *)
Definition place_item (cue_start cue_end : Q) (asr_words : list ASRWord)
    (state : option Known) (item : Z * Z) : option Known :=
  match state with
  | None => None
  | Some k =>
      let '(srt_idx, asr_idx) := item in
      if ((asr_idx <? 0) || (Z.of_nat (List.length asr_words) <=? asr_idx))%Z
      then Some k
      else
        match list_get asr_words asr_idx with
        | None => None
        | Some asr_word =>
            let start := py_max cue_start (a_start asr_word) in
            let stop := Render.py_min cue_end (a_end asr_word) in
            let stop := if negb (Qle_bool start stop) then start else stop in
            match list_set (known_times k) srt_idx (Some (start, stop)) with
            | None => None
            | Some times =>
                match list_set (confs k) srt_idx (a_conf asr_word) with
                | None => None
                | Some cs =>
                    Some {| known_times := times; confs := cs;
                            matched := S (matched k) |}
                end
            end
        end
  end.

(** The loop over [enumerate(srt_words)], from index [idx] on. *)
Fixpoint entries_from (filled : list (Q * Q)) (cs : list Q) (idx : nat)
    (srt_words : list SRTWord) : option (list WordEntry) :=
  match srt_words with
  | [] => Some []
  | word :: rest =>
      match nth_error filled idx, nth_error cs idx with
      | Some (start, stop), Some conf =>
          match entries_from filled cs (S idx) rest with
          | Some entries =>
              Some ({| e_word := w_text word;
                       e_start := round6 start;
                       e_end := round6 stop;
                       e_conf := if Qeq_bool conf 0 then 0 else conf |} :: entries)
          | None => None
          end
      | _, _ => None
      end
  end.

(** [build_entries_from_alignment(cue, srt_words, mapping, asr_words)], with
    the items of [mapping] in their order; [None] when it raises. *)
Definition build_entries_from_alignment (cue_start cue_end : Q)
    (srt_words : list SRTWord) (mapping : list (Z * Z))
    (asr_words : list ASRWord) : option (list WordEntry * nat) :=
  let total := List.length srt_words in
  if (total =? 0)%nat then Some ([], 0%nat)
  else
    match fold_left (place_item cue_start cue_end asr_words) mapping
            (Some {| known_times := repeat None total;
                     confs := repeat 0 total; matched := 0 |}) with
    | None => None
    | Some k =>
        match interpolate_word_times (known_times k) cue_start cue_end with
        | None => None
        | Some filled =>
            match entries_from filled (confs k) 0 srt_words with
            | None => None
            | Some entries => Some (entries, matched k)
            end
        end
    end.

(** The step of [align_cues_with_asr] for one cue once the window is
    chosen: the words are matched within [asr_words[pointer:window_end]],
    the indices are shifted by [pointer], and the entries are built. *)
Definition align_window (ratio : str -> str -> Q) (cue_start cue_end : Q)
    (srt_words : list SRTWord) (asr_words : list ASRWord)
    (pointer window_end : nat) (match_window : Z)
    : option (list WordEntry * nat) :=
  let window := firstn (window_end - pointer) (skipn pointer asr_words) in
  let local_mapping :=
    match_words ratio (List.map w_norm srt_words) (List.map a_norm window)
      match_window in
  let global_mapping :=
    List.map (fun item : nat * nat =>
                (Z.of_nat (fst item), Z.of_nat (pointer + snd item)))
      local_mapping in
  build_entries_from_alignment cue_start cue_end srt_words global_mapping asr_words.

End Entries.

End Alignment.

Module AlignmentProps.
Import MatchFinder Alignment GeneratorInvariants.

(** ** The alignment *)

Section Matching.
Variable ratio : str -> str -> Q.

(** The words match: the same [norm], or a ratio of at least 0.82. *)
Definition similar (a b : str) : Prop :=
  a = b \/ (FUZZY_RATIO_THRESHOLD <= ratio a b)%Q.

Lemma scan_spec (norm : str) (candidates : list (nat * str)) :
  forall best_idx best_score j,
  scan ratio norm candidates best_idx best_score = Some j ->
  best_idx = Some j \/
  exists candidate, In (j, candidate) candidates /\ similar norm candidate.
Proof.
  induction candidates as [|[i c] rest IH]; simpl; intros best score j H.
  - now left.
  - destruct (str_eqb norm c) eqn:E.
    + injection H as <-. right. exists c. split; [now left|].
      left. now apply str_eqb_eq.
    + destruct (Qle_bool FUZZY_RATIO_THRESHOLD (ratio norm c)) eqn:Et; simpl in H.
      * destruct (Qle_bool (ratio norm c) score); simpl in H.
        -- destruct (IH _ _ _ H) as [Hb|(c' & Hin & Hs)]; [now left|].
           right. exists c'. split; [now right|exact Hs].
        -- destruct (IH _ _ _ H) as [Hb|(c' & Hin & Hs)].
           ++ injection Hb as <-. right. exists c. split; [now left|].
              right. now apply Qle_bool_iff.
           ++ right. exists c'. split; [now right|exact Hs].
      * destruct (IH _ _ _ H) as [Hb|(c' & Hin & Hs)]; [now left|].
        right. exists c'. split; [now right|exact Hs].
Qed.

Lemma nth_error_combine_inv {A B} (l : list A) (l' : list B) :
  forall k a b, nth_error (combine l l') k = Some (a, b) ->
  nth_error l k = Some a /\ nth_error l' k = Some b.
Proof.
  revert l'. induction l as [|x l IH]; intros [|y l'] [|k] a b H;
    simpl in *; try discriminate.
  - injection H as <- <-. auto.
  - now apply IH.
Qed.

Lemma candidates_in (asr_window : list str) (search_window : Z) (pointer j : nat)
    (c : str) :
  In (j, c) (candidates_from asr_window search_window pointer) ->
  (pointer <= j)%nat /\ nth_error asr_window j = Some c /\
  (Z.of_nat j < Z.of_nat pointer + Z.max search_window 1)%Z.
Proof.
  unfold candidates_from.
  set (count := Z.to_nat _). intros Hin.
  apply In_nth_error in Hin. destruct Hin as [k Hk].
  apply nth_error_combine_inv in Hk. destruct Hk as [Ej Ec].
  rewrite nth_error_seq in Ej.
  destruct (Nat.ltb_spec k count) as [Hkc|]; [|discriminate]. injection Ej as <-.
  rewrite nth_error_firstn in Ec.
  destruct (Nat.ltb_spec k count) as [_|]; [|lia].
  rewrite nth_error_skipn in Ec.
  split; [lia|]. split; [exact Ec|]. unfold count in Hkc. lia.
Qed.

(** The items of the mapping: ascending in both indices, within the two
    lists, and between similar words. *)
Lemma match_from_spec (asr_window : list str) (search_window : Z)
    (srt_words : list str) :
  forall srt_idx pointer all_words,
  (forall i, nth_error srt_words i = nth_error all_words (srt_idx + i)) ->
  let mapping := match_from ratio asr_window search_window srt_idx pointer srt_words in
  ascending srt_idx (List.map fst mapping) (srt_idx + List.length srt_words) /\
  (exists next,
     ascending pointer (List.map snd mapping) next /\
     (next <= Nat.max pointer (List.length asr_window))%nat) /\
  forall i j, In (i, j) mapping ->
    exists a b, nth_error all_words i = Some a /\ nth_error asr_window j = Some b /\
                similar a b.
Proof.
  induction srt_words as [|w rest IH]; intros srt_idx pointer all_words Hall; simpl.
  - split; [lia|]. split; [exists pointer; simpl; lia|]. intros i j [].
  - assert (Hrest : forall i, nth_error rest i = nth_error all_words (S srt_idx + i)).
    { intros i. specialize (Hall (S i)). simpl in Hall.
      rewrite Hall. f_equal. lia. }
    assert (Hw : nth_error all_words srt_idx = Some w).
    { specialize (Hall 0%nat). simpl in Hall. rewrite Nat.add_0_r in Hall. auto. }
    destruct (scan ratio w (candidates_from asr_window search_window pointer) None 0)
      as [best|] eqn:Es.
    + apply scan_spec in Es. destruct Es as [Hb|(c & Hin & Hsim)]; [discriminate|].
      apply candidates_in in Hin. destruct Hin as (Hp & Hc & _).
      assert (Hlt : (best < List.length asr_window)%nat)
        by (apply nth_error_Some; congruence).
      destruct (IH (S srt_idx) (S best) all_words Hrest) as (H1 & (next & H2 & H3) & H4).
      simpl. split; [|split].
      * split; [lia|].
        replace (srt_idx + S (List.length rest))%nat
          with (S srt_idx + List.length rest)%nat by lia. exact H1.
      * exists next. split; [split; [exact Hp|exact H2]|]. lia.
      * intros i j [Hij|Hij]; [|now apply H4].
        injection Hij as <- <-. exists w, c. auto.
    + destruct (IH (S srt_idx) pointer all_words Hrest) as (H1 & (next & H2 & H3) & H4).
      split; [|split].
      * eapply ascending_weaken; [exact H1|lia|lia].
      * exists next. auto.
      * exact H4.
Qed.

End Matching.

(** X21.  The alignment of subtitle words with ASR words keeps the order of
    both: the items of the mapping ascend strictly in the subtitle index
    and in the ASR index (no ASR word is used twice, none is used out of
    order), both indices lie within their lists, and two words are mapped
    only if their normal forms are equal or their similarity ratio is at
    least 0.82. *)
Theorem match_words_monotone (ratio : str -> str -> Q)
    (srt_words asr_window : list str) (search_window : Z) :
  let mapping := match_words ratio srt_words asr_window search_window in
  ascending 0 (List.map fst mapping) (List.length srt_words) /\
  ascending 0 (List.map snd mapping) (List.length asr_window) /\
  NoDup (List.map fst mapping) /\ NoDup (List.map snd mapping) /\
  forall i j, In (i, j) mapping ->
    exists a b, nth_error srt_words i = Some a /\ nth_error asr_window j = Some b /\
                similar ratio a b.
Proof.
  intros mapping. unfold mapping, match_words.
  destruct (match_from_spec ratio asr_window search_window srt_words 0 0 srt_words)
    as (H1 & (next & H2 & H3) & H4); [reflexivity|].
  simpl in H1, H3.
  assert (H2' : ascending 0
                  (List.map snd (match_from ratio asr_window search_window 0 0 srt_words))
                  (List.length asr_window))
    by (eapply ascending_weaken; [exact H2|lia|lia]).
  split; [exact H1|]. split; [exact H2'|].
  split; [eapply ascending_NoDup; exact H1|].
  split; [eapply ascending_NoDup; exact H2'|exact H4].
Qed.

(** ** Interpolation *)

(** Every interval of the list is well formed. *)
Definition well_formed (target : Times) : Prop :=
  forall i s e, nth_error target i = Some (Some (s, e)) -> (s <= e)%Q.

(** What is set in [target] is set in [target']. *)
Definition keeps_set (target target' : Times) : Prop :=
  forall i v, nth_error target i = Some (Some v) ->
              exists v', nth_error target' i = Some (Some v').

Lemma set_nth_length {A} (l : list A) (i : nat) (x : A) :
  List.length (GpuPermit.set_nth l i x) = List.length l.
Proof.
  revert i. induction l as [|a l IH]; intros [|i]; simpl; auto.
Qed.

Lemma set_nth_get {A} (l : list A) (i j : nat) (x : A) :
  nth_error (GpuPermit.set_nth l i x) j =
  if (i =? j)%nat && (i <? List.length l)%nat then Some x else nth_error l j.
Proof.
  revert i j. induction l as [|a l IH]; intros [|i] [|j]; simpl; auto.
  now rewrite andb_false_r.
Qed.

Lemma py_index_nonneg {A} (l : list A) (i : nat) :
  (i < List.length l)%nat -> py_index l (Z.of_nat i) = Some i.
Proof.
  intros H. unfold py_index.
  destruct (Z.leb_spec 0 (Z.of_nat i)); [|lia].
  destruct (Z.ltb_spec (Z.of_nat i) (Z.of_nat (List.length l))); [|lia].
  simpl. now rewrite Nat2Z.id.
Qed.

(** Setting a well-formed interval at a valid index. *)
Lemma list_set_spec (target : Times) (i : nat) (s e : Q) :
  (i < List.length target)%nat -> (s <= e)%Q -> well_formed target ->
  exists target',
    list_set target (Z.of_nat i) (Some (s, e)) = Some target' /\
    List.length target' = List.length target /\
    well_formed target' /\ keeps_set target target' /\
    nth_error target' i = Some (Some (s, e)).
Proof.
  intros Hi Hse Hwf. unfold list_set. rewrite (py_index_nonneg _ _ Hi).
  eexists. split; [reflexivity|]. split; [apply set_nth_length|].
  assert (Hlt : (i <? List.length target)%nat = true) by now apply Nat.ltb_lt.
  split; [|split].
  - intros j s' e'. rewrite set_nth_get, Hlt, andb_true_r.
    destruct (Nat.eqb_spec i j).
    + intros H. injection H as <- <-. exact Hse.
    + apply Hwf.
  - intros j v. rewrite set_nth_get, Hlt, andb_true_r.
    destruct (Nat.eqb_spec i j); eauto.
  - rewrite set_nth_get, Hlt, Nat.eqb_refl. reflexivity.
Qed.

Lemma keeps_set_trans (a b c : Times) :
  keeps_set a b -> keeps_set b c -> keeps_set a c.
Proof.
  intros H1 H2 i v Hv. destruct (H1 i v Hv) as [v' Hv']. eapply H2. exact Hv'.
Qed.

Lemma keeps_set_refl (a : Times) : keeps_set a a.
Proof. intros i v H. eauto. Qed.

Lemma fill_loop_spec (count : nat) :
  forall (target : Times) (idx : nat) (current step : Q),
  (idx + count <= List.length target)%nat -> well_formed target ->
  exists target',
    fill_loop target (Z.of_nat idx) count current step = Some target' /\
    List.length target' = List.length target /\
    well_formed target' /\ keeps_set target target' /\
    forall i, (idx <= i < idx + count)%nat ->
              exists v, nth_error target' i = Some (Some v).
Proof.
  induction count as [|k IH]; intros target idx current step Hlen Hwf; simpl.
  - exists target. repeat split; auto using keeps_set_refl. intros i Hi. lia.
  - set (next_time := if negb (Qle_bool current (current + step))
                      then current else current + step).
    assert (Hle : (current <= next_time)%Q).
    { unfold next_time. destruct (Qle_bool current (current + step)) eqn:E; simpl.
      - now apply Qle_bool_iff.
      - apply Qle_refl. }
    destruct (list_set_spec target idx current next_time ltac:(lia) Hle Hwf)
      as (t1 & -> & Hl1 & Hwf1 & Hk1 & Hn1).
    replace (Z.of_nat idx + 1)%Z with (Z.of_nat (S idx)) by lia.
    destruct (IH t1 (S idx) next_time step ltac:(lia) Hwf1)
      as (t2 & -> & Hl2 & Hwf2 & Hk2 & Hn2).
    exists t2. split; [reflexivity|]. split; [lia|]. split; [exact Hwf2|].
    split; [eapply keeps_set_trans; eauto|].
    intros i Hi. destruct (Nat.eq_dec i idx) as [->|Hne].
    + eapply Hk2. exact Hn1.
    + apply Hn2. lia.
Qed.

(** [fill_range] on a range within the list: it does not raise, keeps the
    length and what was set, and leaves every interval well formed. *)
Lemma fill_range_spec (target : Times) (a b : nat) (x y : Q) :
  (b <= List.length target)%nat -> well_formed target ->
  exists target',
    fill_range target (Z.of_nat a) (Z.of_nat b - 1) x y = Some target' /\
    List.length target' = List.length target /\
    well_formed target' /\ keeps_set target target'.
Proof.
  intros Hb Hwf. unfold fill_range.
  destruct (Z.ltb_spec (Z.of_nat b - 1) (Z.of_nat a)) as [Hlt|Hge].
  { exists target. auto using keeps_set_refl. }
  destruct (Z.leb_spec (Z.of_nat b - 1 - Z.of_nat a + 1) 0) as [Hz|Hpos].
  { exists target. auto using keeps_set_refl. }
  replace (Z.to_nat (Z.of_nat b - 1 - Z.of_nat a + 1)) with (b - a)%nat by lia.
  match goal with
  | |- context [fill_loop _ _ _ _ ?step] =>
      destruct (fill_loop_spec (b - a) target a x step ltac:(lia) Hwf)
        as (t1 & -> & Hl1 & Hwf1 & Hk1 & Hn1)
  end.
  assert (Hend : (b - 1 < List.length t1)%nat) by lia.
  unfold list_get.
  replace (Z.of_nat b - 1)%Z with (Z.of_nat (b - 1)) by lia.
  rewrite (py_index_nonneg _ _ Hend).
  destruct (Hn1 (b - 1)%nat ltac:(lia)) as [[s e] Hv]. rewrite Hv.
  assert (Hse : (s <= py_max e (if negb (Qle_bool x y) then x else y))%Q).
  { specialize (Hwf1 _ _ _ Hv). unfold py_max.
    destruct (Qle_bool _ e) eqn:E; [exact Hwf1|].
    apply RenderInvariants.Qle_bool_false in E. lra. }
  destruct (list_set_spec t1 (b - 1) s _ Hend Hse Hwf1)
    as (t2 & -> & Hl2 & Hwf2 & Hk2 & _).
  exists t2. split; [reflexivity|]. split; [lia|]. split; [exact Hwf2|].
  eapply keeps_set_trans; eauto.
Qed.

Lemma known_from_spec (l : Times) :
  forall i idx, In idx (known_from i l) ->
  (i <= idx)%nat /\ exists v, nth_error l (idx - i) = Some (Some v).
Proof.
  induction l as [|[v|] r IH]; simpl; intros i idx H; [contradiction| |].
  - destruct H as [<-|H].
    + split; [lia|]. rewrite Nat.sub_diag. simpl. eauto.
    + destruct (IH _ _ H) as [Hle [v' Hv']]. split; [lia|].
      replace (idx - i)%nat with (S (idx - S i)) by lia. simpl. eauto.
  - destruct (IH _ _ H) as [Hle [v' Hv']]. split; [lia|].
    replace (idx - i)%nat with (S (idx - S i)) by lia. simpl. eauto.
Qed.

Lemma place_known_spec (known_times : Times) (a b : Q) (indices : list nat) :
  forall result,
  (forall idx, In idx indices -> exists v, nth_error known_times idx = Some (Some v)) ->
  List.length result = List.length known_times -> well_formed result ->
  exists result',
    place_known known_times a b indices result = Some result' /\
    List.length result' = List.length result /\
    well_formed result' /\ keeps_set result result' /\
    forall idx, In idx indices -> exists v, nth_error result' idx = Some (Some v).
Proof.
  induction indices as [|idx rest IH]; intros result Hk Hlen Hwf; simpl.
  - exists result. repeat split; auto using keeps_set_refl. intros idx [].
  - destruct (Hk idx (or_introl eq_refl)) as [[s e] Hv]. rewrite Hv.
    assert (Hi : (idx < List.length result)%nat).
    { rewrite Hlen. apply nth_error_Some. congruence. }
    set (s' := py_max a s). set (e0 := Render.py_min b e).
    set (e' := if negb (Qle_bool s' e0) then s' else e0).
    assert (Hse : (s' <= e')%Q).
    { unfold e'. destruct (Qle_bool s' e0) eqn:E; simpl.
      - now apply Qle_bool_iff.
      - apply Qle_refl. }
    destruct (list_set_spec result idx s' e' Hi Hse Hwf)
      as (r1 & -> & Hl1 & Hwf1 & Hk1 & Hn1).
    destruct (IH r1) as (r2 & -> & Hl2 & Hwf2 & Hk2 & Hn2);
      [intros i Hin; apply Hk; now right|congruence|exact Hwf1|].
    exists r2. split; [reflexivity|]. split; [congruence|]. split; [exact Hwf2|].
    split; [eapply keeps_set_trans; eauto|].
    intros i [<-|Hin]; [eapply Hk2; exact Hn1|now apply Hn2].
Qed.

Lemma fill_between_spec (known : list nat) (pairs : list (nat * nat)) :
  forall result,
  (forall l r, In (l, r) pairs -> In l known /\ In r known) ->
  (forall idx, In idx known ->
     (idx < List.length result)%nat /\ exists v, nth_error result idx = Some (Some v)) ->
  well_formed result ->
  exists result',
    fill_between pairs result = Some result' /\
    List.length result' = List.length result /\
    well_formed result' /\ keeps_set result result'.
Proof.
  induction pairs as [|[l r] rest IH]; intros result Hp Hk Hwf; simpl.
  - exists result. auto using keeps_set_refl.
  - destruct (Hp l r (or_introl eq_refl)) as [Hl Hr].
    destruct (Hk l Hl) as [_ [[ls le] Hlv]].
    destruct (Hk r Hr) as [Hrlen [[rs re] Hrv]].
    rewrite Hlv, Hrv.
    replace (Z.of_nat l + 1)%Z with (Z.of_nat (S l)) by lia.
    destruct (fill_range_spec result (S l) r le rs ltac:(lia) Hwf)
      as (r1 & -> & Hl1 & Hwf1 & Hk1).
    destruct (IH r1) as (r2 & -> & Hl2 & Hwf2 & Hk2).
    + intros l' r' Hin. apply Hp. now right.
    + intros idx Hin. destruct (Hk idx Hin) as [Hlen [v Hv]].
      split; [lia|]. eapply Hk1. exact Hv.
    + exact Hwf1.
    + exists r2. split; [reflexivity|]. split; [lia|]. split; [exact Hwf2|].
      eapply keeps_set_trans; eauto.
Qed.

Lemma finish_spec (a : Q) (result : Times) :
  well_formed result ->
  List.length (finish a result) = List.length result /\
  Forall (fun v => (fst v <= snd v)%Q) (finish a result).
Proof.
  intros Hwf. unfold finish. split; [apply length_map|].
  apply Forall_forall. intros v Hin. apply in_map_iff in Hin.
  destruct Hin as ([[s e]|] & <- & Hin); simpl.
  - apply In_nth_error in Hin. destruct Hin as [i Hi]. eapply Hwf. exact Hi.
  - apply Qle_refl.
Qed.

Lemma repeat_None_wf (n : nat) : well_formed (repeat None n).
Proof.
  intros i s e H. apply nth_error_In, repeat_spec in H. discriminate.
Qed.

Lemma in_last {A} (l : list A) (d : A) : l <> [] -> In (last l d) l.
Proof.
  induction l as [|a [|b r] IH]; intros H; [congruence|now left|].
  right. apply IH. discriminate.
Qed.

(** The list that [interpolate_word_times] has built when it reaches its
    last line: it is reached on every input, with a list of the length of
    [known_times] in which every interval is well formed. *)
Lemma interpolate_word_times_result (known_times : Times)
    (segment_start segment_end : Q) :
  exists result,
    interpolate_word_times known_times segment_start segment_end =
      Some (finish segment_start result) /\
    List.length result = List.length known_times /\
    well_formed result.
Proof.
  unfold interpolate_word_times.
  set (n := List.length known_times).
  assert (Hn : List.length (repeat (@None (Q * Q)) n) = n) by apply repeat_length.
  pose proof (repeat_None_wf n) as Hwf0.
  assert (Hknown : forall idx, In idx (known_from 0 known_times) ->
            exists v, nth_error known_times idx = Some (Some v)).
  { intros idx Hin. destruct (known_from_spec _ _ _ Hin) as [_ H].
    now rewrite Nat.sub_0_r in H. }
  destruct (known_from 0 known_times) as [|first_known later] eqn:Ek.
  - destruct (fill_range_spec (repeat None n) 0 n segment_start segment_end
                ltac:(lia) Hwf0) as (r1 & Hr & Hl1 & Hwf1 & _).
    simpl Z.of_nat in Hr. rewrite Hr.
    exists r1. split; [reflexivity|]. split; [lia|exact Hwf1].
  - set (known := first_known :: later) in *.
    destruct (place_known_spec known_times segment_start segment_end known
                (repeat None n) Hknown Hn Hwf0)
      as (r1 & -> & Hl1 & Hwf1 & _ & Hset1).
    assert (Hidx : forall idx, In idx known -> (idx < n)%nat).
    { intros idx Hin. destruct (Hknown idx Hin) as [v Hv].
      apply nth_error_Some. congruence. }
    (* before the first known word *)
    assert (H2 : exists r2,
              (if (0 <? first_known)%nat
               then match nth_error r1 first_known with
                    | Some (Some (first_start, _)) =>
                        fill_range r1 0 (Z.of_nat first_known - 1)
                          segment_start first_start
                    | _ => None
                    end
               else Some r1) = Some r2 /\
              List.length r2 = n /\ well_formed r2 /\ keeps_set r1 r2).
    { destruct (0 <? first_known)%nat.
      - destruct (Hset1 first_known (or_introl eq_refl)) as [[fs fe] Hv].
        rewrite Hv.
        destruct (fill_range_spec r1 0 first_known segment_start fs) as
          (r2 & Hr & Hl2 & Hwf2 & Hk2);
          [specialize (Hidx first_known (or_introl eq_refl)); lia|exact Hwf1|].
        simpl Z.of_nat in Hr. exists r2. split; [exact Hr|].
        split; [lia|]. auto.
      - exists r1. split; [reflexivity|]. split; [lia|].
        auto using keeps_set_refl. }
    destruct H2 as (r2 & -> & Hl2 & Hwf2 & Hk2).
    assert (Hset2 : forall idx, In idx known ->
              (idx < List.length r2)%nat /\
              exists v, nth_error r2 idx = Some (Some v)).
    { intros idx Hin. split; [rewrite Hl2; now apply Hidx|].
      destruct (Hset1 idx Hin) as [v Hv]. eapply Hk2. exact Hv. }
    destruct (fill_between_spec known (combine known later) r2) as
      (r3 & -> & Hl3 & Hwf3 & Hk3); [|exact Hset2|exact Hwf2|].
    { intros l r Hin. split; [eapply in_combine_l; exact Hin|].
      right. eapply in_combine_r. exact Hin. }
    (* after the last known word *)
    set (last_known := last known first_known).
    assert (Hlast : In last_known known) by (apply in_last; discriminate).
    assert (H4 : exists r4,
              (if (Z.of_nat last_known <? Z.of_nat n - 1)%Z
               then match nth_error r3 last_known with
                    | Some (Some (_, last_end)) =>
                        fill_range r3 (Z.of_nat last_known + 1) (Z.of_nat n - 1)
                          last_end segment_end
                    | _ => None
                    end
               else Some r3) = Some r4 /\
              List.length r4 = n /\ well_formed r4).
    { destruct (Z.of_nat last_known <? Z.of_nat n - 1)%Z.
      - destruct (Hset2 last_known Hlast) as [_ [v Hv]].
        destruct (Hk3 _ _ Hv) as [[ls le] Hv3]. rewrite Hv3.
        replace (Z.of_nat last_known + 1)%Z with (Z.of_nat (S last_known)) by lia.
        destruct (fill_range_spec r3 (S last_known) n le segment_end) as
          (r4 & Hr & Hl4 & Hwf4 & _); [lia|exact Hwf3|].
        exists r4. split; [exact Hr|]. split; [lia|exact Hwf4].
      - exists r3. split; [reflexivity|]. split; [lia|exact Hwf3]. }
    destruct H4 as (r4 & -> & Hl4 & Hwf4).
    exists r4. split; [reflexivity|]. split; [lia|exact Hwf4].
Qed.

(** X22.  [interpolate_word_times] never raises: for every list of known
    times and every segment it returns one interval for each word, and the
    start of every interval is at or before its end. *)
Theorem interpolate_word_times_total (known_times : Times)
    (segment_start segment_end : Q) :
  exists times,
    interpolate_word_times known_times segment_start segment_end = Some times /\
    List.length times = List.length known_times /\
    Forall (fun v => (fst v <= snd v)%Q) times.
Proof.
  destruct (interpolate_word_times_result known_times segment_start segment_end)
    as (result & Hr & Hlen & Hwf).
  destruct (finish_spec segment_start result Hwf) as [Hlen' Hall].
  exists (finish segment_start result).
  split; [exact Hr|]. split; [congruence|exact Hall].
Qed.

Lemma inject_S (k : nat) :
  (inject_Z (Z.of_nat (S k)) == inject_Z (Z.of_nat k) + 1)%Q.
Proof. rewrite Nat2Z.inj_succ. unfold Z.succ. rewrite inject_Z_plus. reflexivity. Qed.

(** With a step that is not negative, the loop writes one interval of that
    width after the other. *)
Lemma fill_loop_values (count : nat) :
  forall (target : Times) (idx : nat) (current step : Q),
  (idx + count <= List.length target)%nat -> (0 <= step)%Q ->
  exists target',
    fill_loop target (Z.of_nat idx) count current step = Some target' /\
    List.length target' = List.length target /\
    (forall i, (i < idx)%nat -> nth_error target' i = nth_error target i) /\
    forall k, (k < count)%nat ->
      exists s e, nth_error target' (idx + k) = Some (Some (s, e)) /\
                  (s == current + inject_Z (Z.of_nat k) * step)%Q /\
                  (e == current + inject_Z (Z.of_nat (S k)) * step)%Q.
Proof.
  induction count as [|c IH]; intros target idx current step Hlen Hstep; simpl fill_loop.
  - exists target. repeat split; auto. intros k Hk. lia.
  - assert (Hg : Qle_bool current (current + step) = true)
      by (apply Qle_bool_iff; lra).
    rewrite Hg. simpl negb. cbv iota.
    unfold list_set. rewrite py_index_nonneg by lia.
    replace (Z.of_nat idx + 1)%Z with (Z.of_nat (S idx)) by lia.
    destruct (IH (GpuPermit.set_nth target idx (Some (current, current + step)))
                (S idx) (current + step) step) as (t2 & -> & Hl2 & Hlow & Hval);
      [rewrite set_nth_length; lia|exact Hstep|].
    rewrite set_nth_length in Hl2.
    exists t2. split; [reflexivity|]. split; [exact Hl2|]. split.
    + intros i Hi. rewrite Hlow by lia. rewrite set_nth_get.
      destruct (Nat.eqb_spec idx i); [lia|reflexivity].
    + intros [|k] Hk.
      * exists current, (current + step). rewrite Nat.add_0_r, Hlow by lia.
        rewrite set_nth_get, Nat.eqb_refl.
        destruct (Nat.ltb_spec idx (List.length target)); [|lia].
        split; [reflexivity|]. simpl inject_Z. split; ring.
      * destruct (Hval k ltac:(lia)) as (s & e & Hn & Hs & He).
        exists s, e. replace (idx + S k)%nat with (S idx + k)%nat by lia.
        split; [exact Hn|]. rewrite Hs, He, !inject_S. split; ring.
Qed.

Lemma known_from_none (n : nat) : forall i, known_from i (repeat None n) = [].
Proof. induction n as [|n IH]; intros i; simpl; auto. Qed.

(** X23.  When no word of a cue has a known time and the cue does not end
    before it starts, the words share the cue evenly: word [k] of [n]
    starts [k] widths after the start of the cue and ends one width later,
    the width being the [n]-th part of the cue's duration (in exact
    arithmetic). *)
Theorem unaligned_words_share_the_cue (n : nat) (segment_start segment_end : Q)
    (Hordered : (segment_start <= segment_end)%Q) :
  let width := ((segment_end - segment_start) / inject_Z (Z.of_nat n))%Q in
  exists times,
    interpolate_word_times (repeat None n) segment_start segment_end = Some times /\
    List.length times = n /\
    forall k, (k < n)%nat ->
      exists s e, nth_error times k = Some (s, e) /\
                  (s == segment_start + inject_Z (Z.of_nat k) * width)%Q /\
                  (e == segment_start + inject_Z (Z.of_nat (S k)) * width)%Q.
Proof.
  intros width. unfold interpolate_word_times.
  rewrite known_from_none, repeat_length. unfold fill_range.
  destruct (Z.ltb_spec (Z.of_nat n - 1) 0) as [Hlt|Hge].
  { assert (n = 0)%nat as -> by lia. exists []. simpl. repeat split; auto.
    intros k Hk. lia. }
  assert (Hg : Qle_bool segment_start segment_end = true) by now apply Qle_bool_iff.
  rewrite Hg. simpl negb. cbv iota.
  replace (Z.of_nat n - 1 - 0 + 1)%Z with (Z.of_nat n) by lia.
  destruct (Z.leb_spec (Z.of_nat n) 0) as [Hz|Hpos]; [lia|].
  rewrite Nat2Z.id. fold width.
  assert (Hn : (0 < inject_Z (Z.of_nat n))%Q).
  { change 0%Q with (inject_Z 0). rewrite <- Zlt_Qlt. exact Hpos. }
  assert (Hw : (0 <= width)%Q).
  { unfold width. apply Qle_shift_div_l; [exact Hn|]. lra. }
  assert (Hfull : (segment_start + inject_Z (Z.of_nat n) * width == segment_end)%Q).
  { unfold width. field. lra. }
  destruct (fill_loop_values n (repeat None n) 0 segment_start width)
    as (t1 & Ht1 & Hl1 & _ & Hval); [rewrite repeat_length; lia|exact Hw|].
  simpl Z.of_nat in Ht1. rewrite Ht1. rewrite repeat_length in Hl1.
  unfold list_get. replace (Z.of_nat n - 1)%Z with (Z.of_nat (n - 1)) by lia.
  rewrite py_index_nonneg by lia.
  destruct (Hval (n - 1)%nat ltac:(lia)) as (ls & le & Hlast & Hls & Hle).
  simpl plus in Hlast. rewrite Hlast.
  unfold list_set. rewrite py_index_nonneg by lia.
  eexists. split; [reflexivity|]. unfold finish.
  split; [rewrite length_map, set_nth_length; exact Hl1|].
  intros k Hk. rewrite nth_error_map, set_nth_get.
  destruct (Nat.ltb_spec (n - 1) (List.length t1)) as [_|]; [|lia].
  rewrite andb_true_r.
  destruct (Nat.eqb_spec (n - 1) k) as [<-|Hne]; simpl option_map.
  - exists ls, (py_max le segment_end). split; [reflexivity|].
    split; [exact Hls|].
    replace (S (n - 1)) with n in * by lia.
    unfold py_max. destruct (Qle_bool segment_end le); [exact Hle|].
    now rewrite Hfull.
  - destruct (Hval k Hk) as (s & e & Hk' & Hs & He). simpl plus in Hk'.
    rewrite Hk'. exists s, e. auto.
Qed.

(** Four words without a known time in a cue from 2 s to 4 s. *)
Lemma unaligned_words_share_the_cue_witness :
  (2 <= 4)%Q /\
  exists times,
    interpolate_word_times (repeat None 4) 2 4 = Some times /\
    List.length times = 4%nat /\
    forall k, (k < 4)%nat ->
      exists s e, nth_error times k = Some (s, e) /\
                  (s == 2 + inject_Z (Z.of_nat k) * ((4 - 2) / inject_Z (Z.of_nat 4)))%Q /\
                  (e == 2 + inject_Z (Z.of_nat (S k)) * ((4 - 2) / inject_Z (Z.of_nat 4)))%Q.
Proof.
  assert (H : (2 <= 4)%Q) by (apply Qle_bool_iff; reflexivity).
  split; [exact H|]. exact (unaligned_words_share_the_cue 4 2 4 H).
Defined.

(** Three words of which the middle one is known, in a cue from 10 s to
    13 s. *)
Example interpolate_around_known :
  let reduced := List.map (fun v : Q * Q => (Qred (fst v), Qred (snd v))) in
  option_map reduced (interpolate_word_times [None; Some (11, 11.5); None] 10 13) =
    Some (reduced [(10, 11); (11, 11.5); (11.5, 13)]).
Proof. vm_compute. reflexivity. Qed.

(** ** Entries of a cue *)

Lemma ascending_length (ns : list nat) :
  forall base next, ascending base ns next ->
  (base + List.length ns <= next)%nat.
Proof.
  induction ns as [|n r IH]; simpl; intros base next H; [lia|].
  destruct H as [Hb H]. specialize (IH _ _ H). lia.
Qed.

Lemma list_set_any {A} (l : list A) (i : nat) (v : A) :
  (i < List.length l)%nat ->
  exists l', list_set l (Z.of_nat i) v = Some l' /\ List.length l' = List.length l.
Proof.
  intros Hi. unfold list_set. rewrite (py_index_nonneg _ _ Hi).
  eexists. split; [reflexivity|apply set_nth_length].
Qed.

(** The first loop on items whose indices lie within the two lists: every
    item is placed. *)
Lemma place_items_spec (cue_start cue_end : Q) (asr_words : list ASRWord)
    (total : nat) (items : list (nat * nat)) :
  forall k,
  (forall i j, In (i, j) items ->
     (i < total)%nat /\ (j < List.length asr_words)%nat) ->
  List.length (known_times k) = total -> List.length (confs k) = total ->
  exists k',
    fold_left (place_item cue_start cue_end asr_words)
      (List.map (fun item : nat * nat => (Z.of_nat (fst item), Z.of_nat (snd item)))
         items) (Some k) = Some k' /\
    List.length (known_times k') = total /\ List.length (confs k') = total /\
    matched k' = (matched k + List.length items)%nat.
Proof.
  induction items as [|[i j] rest IH]; intros k Hin Hlt Hlc; simpl.
  - exists k. repeat split; auto.
  - destruct (Hin i j (or_introl eq_refl)) as [Hi Hj].
    destruct (Z.ltb_spec (Z.of_nat j) 0); [lia|].
    destruct (Z.leb_spec (Z.of_nat (List.length asr_words)) (Z.of_nat j)); [lia|].
    simpl orb. cbv iota.
    unfold list_get. rewrite (py_index_nonneg _ _ Hj).
    destruct (nth_error asr_words j) as [asr_word|] eqn:Ej;
      [|apply nth_error_None in Ej; lia].
    match goal with
    | |- context [list_set (known_times k) (Z.of_nat i) ?v] =>
        destruct (list_set_any (known_times k) i v ltac:(lia)) as (t1 & -> & Hl1)
    end.
    destruct (list_set_any (confs k) i (a_conf asr_word) ltac:(lia))
      as (c1 & -> & Hc1).
    destruct (IH {| known_times := t1; confs := c1; matched := S (matched k) |})
      as (k' & -> & H1 & H2 & H3); simpl.
    + intros i' j' H'. apply Hin. now right.
    + lia.
    + lia.
    + exists k'. split; [reflexivity|]. split; [exact H1|].
      split; [exact H2|]. simpl in H3. lia.
Qed.

Lemma entries_from_spec (round6 : Q -> Q) (filled : list (Q * Q)) (cs : list Q)
    (srt_words : list SRTWord) :
  forall idx,
  (idx + List.length srt_words <= List.length filled)%nat ->
  (idx + List.length srt_words <= List.length cs)%nat ->
  Forall (fun v => (fst v <= snd v)%Q) filled ->
  exists entries,
    entries_from round6 filled cs idx srt_words = Some entries /\
    List.map e_word entries = List.map w_text srt_words /\
    Forall (fun entry => exists start stop,
              e_start entry = round6 start /\ e_end entry = round6 stop /\
              (start <= stop)%Q) entries.
Proof.
  induction srt_words as [|word rest IH]; intros idx Hf Hc Hall; simpl in *.
  - exists []. repeat split; auto.
  - destruct (nth_error filled idx) as [[start stop]|] eqn:Ef;
      [|apply nth_error_None in Ef; lia].
    destruct (nth_error cs idx) as [conf|] eqn:Ec;
      [|apply nth_error_None in Ec; lia].
    destruct (IH (S idx) ltac:(lia) ltac:(lia) Hall) as (entries & -> & Hw & He).
    eexists. split; [reflexivity|]. simpl. split; [now rewrite Hw|].
    constructor; [|exact He]. simpl. exists start, stop.
    split; [reflexivity|]. split; [reflexivity|].
    apply nth_error_In in Ef. rewrite Forall_forall in Hall.
    exact (Hall _ Ef).
Qed.

(** X24.  The words of a cue matched within a window of the ASR words always
    give their entries: building them never raises, every pair of the
    mapping is used (none is dropped by the check of the ASR index), so the
    count of matched words is the size of the mapping and at most the
    number of words; there is one entry for each word of the cue, in order
    and with its text; and the times of every entry are the roundings of an
    interval whose start is at or before its end. *)
Theorem align_window_entries (ratio : str -> str -> Q) (round6 : Q -> Q)
    (cue_start cue_end : Q) (srt_words : list SRTWord)
    (asr_words : list ASRWord) (pointer window_end : nat) (match_window : Z) :
  let window := firstn (window_end - pointer) (skipn pointer asr_words) in
  let local_mapping :=
    match_words ratio (List.map w_norm srt_words) (List.map a_norm window)
      match_window in
  exists entries,
    align_window round6 ratio cue_start cue_end srt_words asr_words
      pointer window_end match_window =
      Some (entries, List.length local_mapping) /\
    (List.length local_mapping <= List.length srt_words)%nat /\
    List.map e_word entries = List.map w_text srt_words /\
    Forall (fun entry => exists start stop,
              e_start entry = round6 start /\ e_end entry = round6 stop /\
              (start <= stop)%Q) entries.
Proof.
  intros window local_mapping. unfold align_window. fold window. fold local_mapping.
  destruct (match_from_spec ratio (List.map a_norm window) match_window
              (List.map w_norm srt_words) 0 0 (List.map w_norm srt_words))
    as (Hfst & _ & Hpairs); [reflexivity|].
  fold (match_words ratio (List.map w_norm srt_words) (List.map a_norm window)
          match_window) in Hfst, Hpairs.
  fold local_mapping in Hfst, Hpairs.
  simpl in Hfst. rewrite length_map in Hfst.
  assert (Hcount : (List.length local_mapping <= List.length srt_words)%nat).
  { pose proof (ascending_length _ _ _ Hfst) as Hb.
    rewrite length_map in Hb. lia. }
  unfold build_entries_from_alignment.
  destruct (Nat.eqb_spec (List.length srt_words) 0) as [Hz|Hnz].
  { assert (srt_words = []) as -> by (destruct srt_words; [auto|discriminate]).
    exists []. unfold local_mapping. simpl. repeat split; auto. }
  set (total := List.length srt_words) in *.
  set (items := List.map (fun item : nat * nat => (fst item, (pointer + snd item)%nat))
                  local_mapping).
  assert (Hitems : forall i j, In (i, j) items ->
            (i < total)%nat /\ (j < List.length asr_words)%nat).
  { intros i j Hin. unfold items in Hin. apply in_map_iff in Hin.
    destruct Hin as ([i' j'] & Heq & Hin). simpl in Heq. injection Heq as <- <-.
    destruct (Hpairs _ _ Hin) as (a & b & Ha & Hb & _).
    assert (Hi : (i' < List.length (List.map w_norm srt_words))%nat)
      by (apply nth_error_Some; congruence).
    assert (Hj : (j' < List.length (List.map a_norm window))%nat)
      by (apply nth_error_Some; congruence).
    rewrite length_map in Hi, Hj. unfold window in Hj.
    rewrite length_firstn, length_skipn in Hj.
    split; [exact Hi|lia]. }
  destruct (place_items_spec cue_start cue_end asr_words total items
              {| known_times := repeat None total; confs := repeat 0 total;
                 matched := 0 |} Hitems)
    as (k & Hk & Hlt & Hlc & Hm); [apply repeat_length|apply repeat_length|].
  unfold items in Hk. rewrite map_map in Hk. simpl in Hk. rewrite Hk.
  simpl in Hm. unfold items in Hm. rewrite length_map in Hm.
  destruct (interpolate_word_times_result (known_times k) cue_start cue_end)
    as (result & -> & Hlen & Hwf).
  destruct (finish_spec cue_start result Hwf) as [Hlen' Hall].
  destruct (entries_from_spec round6 (finish cue_start result) (confs k) srt_words 0)
    as (entries & -> & Hwords & Htimes);
    [fold total; lia|fold total; lia|exact Hall|].
  exists entries. rewrite Hm.
  split; [reflexivity|]. split; [exact Hcount|]. split; [exact Hwords|exact Htimes].
Qed.

End AlignmentProps.
